(** * rsult: Option / Result and their asynchronous wrappers

    A shallow embedding of the TypeScript library: [Option] and
    [Result] (option.ts, result.ts) and the wrappers [OptionAsync] and
    [ResultAsync] around a promise of one of them (option-async.ts,
    result-async.ts).

    The wrappers are written against the host's promises, so the
    embedding comes with the part of that machinery they rest on:

    - a store of promise cells, each pending with the reactions
      attached to it or settled for good;
    - code as a tree of the operations it performs on the store
      ([Promise.resolve], [then], the call of an [async] function,
      [await]), with callbacks as functions into such trees;
    - a FIFO queue of microtasks, run to exhaustion after each event
      that comes from outside.

    What is observed of a run is how promises settle, which awaits were
    issued, and the side effects of user callbacks, in order. The number
    of turns of the queue a step takes is not: following a thenable is
    modelled as one reaction on its promise. *)

From Stdlib Require Import ZArith.
From stdpp Require Import base option list strings pretty.

Local Open Scope string_scope.
Local Open Scope list_scope.
Set Warnings "-register-all".

(** ** Values *)

(** Promises are cells of a store and are named by their index in it. *)
Abbreviation pid := nat (only parsing).

(** [Option<T>] and [Result<T, E>]: one constructor per class, the
    argument being the [value] field. *)
Inductive Option (T : Type) : Type :=
| OptionSome (value : T)
| OptionNone.

Inductive Result (T E : Type) : Type :=
| ResultOk (value : T)
| ResultErr (value : E).

Arguments OptionSome {T} value.
Arguments OptionNone {T}.
Arguments ResultOk {T E} value.
Arguments ResultErr {T E} value.

(** The JavaScript values the library handles. Numbers are the safe
    integers, those of absolute value at most [2^53 - 1], which a
    double holds exactly and prints in decimal notation; [VError msg]
    is [new Error(msg)]. *)
Inductive val : Type :=
| VUndefined
| VNull
| VBool (b : bool)
| VNum (n : Z)
| VStr (s : string)
| VArray (items : list val)
| VError (message : string)
| VOption (o : Option val)
| VResult (r : Result val val)
| VPromise (p : pid)
| VOptionAsync (promise : pid)
| VResultAsync (promise : pid).

(** The factory functions of option.ts and result.ts. *)
Definition mkSome (v : val) : Option val := OptionSome v.
Definition mkNone : Option val := OptionNone.
Definition Ok (v : val) : Result val val := ResultOk v.
Definition Err (e : val) : Result val val := ResultErr e.

(** A value with a [then] method: a native promise, or one of the two
    wrappers, whose [then] forwards to [this.promise.then]. *)
Definition thenable (v : val) : option pid :=
  match v with
  | VPromise p | VOptionAsync p | VResultAsync p => Some p
  | _ => None
  end.

(** String conversion, as performed by ['...' + this.value]; of a
    number in the range above. *)
Definition join (ss : list string) : string :=
  match ss with
  | [] => ""
  | s :: rest => fold_left (fun acc t => acc +:+ "," +:+ t) rest s
  end.

Fixpoint to_string (v : val) : string :=
  match v with
  | VUndefined => "undefined"
  | VNull => "null"
  | VBool true => "true"
  | VBool false => "false"
  | VNum n => pretty n
  | VStr s => s
  | VArray items =>
      join (map (fun x => match x with
                          | VUndefined | VNull => ""
                          | _ => to_string x
                          end) items)
  | VError "" => "Error"
  | VError message => "Error: " +:+ message
  | VPromise _ => "[object Promise]"
  | VOption _ | VResult _ | VOptionAsync _ | VResultAsync _ => "[object Object]"
  end.

(** ** Programs *)

(** How a promise settles. *)
Inductive settled : Type :=
| Fulfilled (v : val)
| Rejected (reason : val).

(** Code is a tree of the operations it performs on the host; callbacks
    are functions into such trees.

    - [Emit tag v k]: an observable side effect of a user callback
      (setting a flag, pushing to an array the test inspects);
    - [PromiseResolve v k]: [Promise.resolve(v)];
    - [PromiseThen p cb k]: [p.then(...)], [cb] deciding on both ways
      [p] can settle;
    - [AsyncCall body k]: a call of an [async] function with body
      [body]; [k] receives the promise the call returns;
    - [Await v k]: [await v] inside an [async] body. *)
Inductive prog : Type :=
| Ret (v : val)
| Throw (e : val)
| Emit (tag : string) (v : val) (k : prog)
| PromiseResolve (v : val) (k : pid -> prog)
| PromiseThen (p : pid) (cb : settled -> prog) (k : pid -> prog)
| AsyncCall (body : prog) (k : pid -> prog)
| Await (v : val) (k : settled -> prog).

Fixpoint bind (m : prog) (f : val -> prog) : prog :=
  match m with
  | Ret v => f v
  | Throw e => Throw e
  | Emit tag v k => Emit tag v (bind k f)
  | PromiseResolve v k => PromiseResolve v (fun p => bind (k p) f)
  | PromiseThen p cb k => PromiseThen p cb (fun q => bind (k q) f)
  | AsyncCall body k => AsyncCall body (fun q => bind (k q) f)
  | Await v k => Await v (fun st => bind (k st) f)
  end.

Notation "'let*' x ':=' m 'in' k" := (bind m (fun x => k))
  (at level 10, x name, m at level 100, k at level 200).
Notation "'do' m 'in' k" := (bind m (fun _ => k))
  (at level 10, m at level 100, k at level 200).

(** [try { body } catch (error) { handler }]. An exception inside a
    callback handed to [then], or inside the body of an [async] call,
    rejects the promise of that callback or call and is not caught
    here. *)
Fixpoint try_catch (body : prog) (handler : val -> prog) : prog :=
  match body with
  | Ret v => Ret v
  | Throw e => handler e
  | Emit tag v k => Emit tag v (try_catch k handler)
  | PromiseResolve v k => PromiseResolve v (fun p => try_catch (k p) handler)
  | PromiseThen p cb k => PromiseThen p cb (fun q => try_catch (k q) handler)
  | AsyncCall body' k => AsyncCall body' (fun q => try_catch (k q) handler)
  | Await v k => Await v (fun st => try_catch (k st) handler)
  end.

(** What [await] hands back once the awaited value has settled. *)
Definition resume (st : settled) : prog :=
  match st with
  | Fulfilled v => Ret v
  | Rejected e => Throw e
  end.

Definition await (v : val) : prog := Await v resume.

(** [new Error(msg)] thrown by a member access the value does not have. *)
Definition type_error (what : string) : val :=
  VError ("TypeError: " +:+ what).

(** ** The promise store and the microtask queue *)

Inductive event : Type :=
| EvEmit (tag : string) (v : val)
| EvAwait (v : val).

(** A reaction is a continuation waiting for a promise, with the promise
    that the continuation's own completion settles. *)
Abbreviation reaction := (pid * (settled -> prog))%type.
Abbreviation job := (pid * prog)%type.

Inductive cell : Type :=
| Pending (reactions : list reaction)
| Settled (st : settled).

Record state : Type := mkState {
  cells : list cell;
  queue : list job;
  log : list event
}.

Definition fresh (s : state) : pid := length (cells s).

Definition alloc (s : state) : state :=
  mkState (cells s ++ [Pending []]) (queue s) (log s).

Definition record (ev : event) (s : state) : state :=
  mkState (cells s) (queue s) (log s ++ [ev]).

Definition enqueue (j : job) (s : state) : state :=
  mkState (cells s) (queue s ++ [j]) (log s).

(** Attach a reaction: parked while the promise is pending, scheduled at
    once when it has settled. *)
Definition subscribe (p : pid) (r : reaction) (s : state) : state :=
  match cells s !! p with
  | Some (Pending rs) =>
      mkState (<[p := Pending (rs ++ [r])]> (cells s)) (queue s) (log s)
  | Some (Settled st) => enqueue (r.1, r.2 st) s
  | None => s
  end.

(** Settle a promise. Only a pending promise changes; its reactions are
    scheduled in the order they were attached. *)
Definition settle (p : pid) (st : settled) (s : state) : state :=
  match cells s !! p with
  | Some (Pending rs) =>
      mkState (<[p := Settled st]> (cells s))
              (queue s ++ map (fun r : reaction => (r.1, r.2 st)) rs)
              (log s)
  | _ => s
  end.

(** Resolve a promise with a value: a thenable is followed, anything
    else fulfils. *)
Definition resolve (q : pid) (v : val) (s : state) : state :=
  match thenable v with
  | Some p => subscribe p (q, resume) s
  | None => settle q (Fulfilled v) s
  end.

Inductive completion : Type :=
| Normal (v : val)
| Thrown (e : val)
| Suspend (awaited : val) (k : settled -> prog).

(** Suspend the activation owned by [q] on [v]. Awaiting a value that is
    not a thenable still gives up control for one turn of the queue. *)
Definition park (q : pid) (v : val) (k : settled -> prog) (s : state) : state :=
  match thenable v with
  | Some p => subscribe p (q, k) (record (EvAwait v) s)
  | None => enqueue (q, k (Fulfilled v)) (record (EvAwait v) s)
  end.

(** What the completion of an activation does to the promise [q] that
    stands for it. *)
Definition complete (q : pid) (c : completion) (s : state) : state :=
  match c with
  | Normal v => resolve q v s
  | Thrown e => settle q (Rejected e) s
  | Suspend v k => park q v k s
  end.

(** Run code until it returns, throws or reaches an [await]. *)
Fixpoint exec (c : prog) (s : state) : completion * state :=
  match c with
  | Ret v => (Normal v, s)
  | Throw e => (Thrown e, s)
  | Emit tag v k => exec k (record (EvEmit tag v) s)
  | PromiseResolve v k =>
      match v with
      | VPromise p => exec (k p) s
      | _ => exec (k (fresh s)) (resolve (fresh s) v (alloc s))
      end
  | PromiseThen p cb k =>
      exec (k (fresh s)) (subscribe p (fresh s, cb) (alloc s))
  | AsyncCall body k =>
      let '(r, s') := exec body (alloc s) in
      exec (k (fresh s)) (complete (fresh s) r s')
  | Await v k => (Suspend v k, s)
  end.

(** One microtask. *)
Definition run_job (j : job) (s : state) : state :=
  let '(r, s') := exec j.2 s in complete j.1 r s'.

(** Run microtasks until the queue is empty. *)
Fixpoint drain (fuel : nat) (s : state) : state :=
  match fuel with
  | O => s
  | S fuel' =>
      match queue s with
      | [] => s
      | j :: rest =>
          drain fuel' (run_job j (mkState (cells s) rest (log s)))
      end
  end.

(** The state a promise is in. *)
Definition outcome (s : state) (p : pid) : option settled :=
  match cells s !! p with
  | Some (Settled st) => Some st
  | _ => None
  end.

(** Whether a promise exists, and if so whether and how it has settled;
    the reactions parked on it do not count. *)
Definition status (s : state) (p : pid) : option (option settled) :=
  match cells s !! p with
  | Some (Pending _) => Some None
  | Some (Settled st) => Some (Some st)
  | None => None
  end.


(** Property reads on a value of any kind, as in [result._tag] and
    [result.value]: [undefined] when the value has no such property.
    Reading a property of [undefined] or [null] throws. *)
Definition nullish (v : val) : bool :=
  match v with
  | VUndefined | VNull => true
  | _ => false
  end.

Definition get_tag (v : val) : val :=
  match v with
  | VOption (OptionSome _) => VStr "Some"
  | VOption OptionNone => VStr "None"
  | VResult (ResultOk _) => VStr "Ok"
  | VResult (ResultErr _) => VStr "Err"
  | _ => VUndefined
  end.

Definition get_value (v : val) : val :=
  match v with
  | VOption (OptionSome value) => value
  | VResult (ResultOk value) => value
  | VResult (ResultErr value) => value
  | _ => VUndefined
  end.

(** [v._tag === tag]. *)
Definition has_tag (v : val) (tag : string) : bool :=
  match get_tag v with
  | VStr s => String.eqb s tag
  | _ => false
  end.

(** [v.is_ok && v.is_ok()] and [v.is_some && v.is_some()]: the method
    is there on the instances of the two classes of a result, of an
    option, and on nothing else. *)
Definition call_is_ok (v : val) : bool :=
  match v with
  | VResult (ResultOk _) => true
  | _ => false
  end.

Definition call_is_some (v : val) : bool :=
  match v with
  | VOption (OptionSome _) => true
  | _ => false
  end.

(** The error of reading the property [name] of [undefined] or
    [null]. *)
Definition no_property (v : val) (name : string) : val :=
  type_error ("Cannot read properties of " +:+ to_string v
              +:+ " (reading '" +:+ name +:+ "')").

(** The object literals [{ _tag: ..., value: ... }] that [ok_or] and
    [transpose] of an option return: records, not instances of a
    class. *)
Module Plain.
Record obj : Type := mk { _tag : string; value : val }.

(** What a method that builds such a record does: it returns one, or
    throws. *)
Inductive returned : Type :=
| Returns (o : obj)
| Throws (e : val).
End Plain.
(** ** option.ts *)

(** Methods of class [OptionSome]; [value] is [this.value]. *)
Module OptionSome.
Definition is_some (value : val) : bool := true.
Definition is_none (value : val) : bool := false.
Definition expect (value : val) (_msg : string) : prog := Ret value.
Definition unwrap (value : val) : prog := Ret value.
Definition unwrap_or (value : val) (_optb : val) : val := value.

Definition map (value : val) (fn : val -> prog) : prog :=
  let* u := fn value in Ret (VOption (OptionSome u)).

Definition inspect (value : val) (f : val -> prog) : prog :=
  do f value in Ret (VOption (OptionSome value)).

Definition and_then (value : val) (fn : val -> prog) : prog := fn value.

Definition is_some_and (value : val) (f : val -> prog) : prog := f value.
Definition is_none_or (value : val) (f : val -> prog) : prog := f value.

(** [_fn] is the call [_fn()]. *)
Definition unwrap_or_else (value : val) (_fn : prog) : prog := Ret value.
Definition unwrap_or_default (value : val) : val := value.

Definition map_or (value : val) (_defaultVal : val) (fn : val -> prog)
  : prog := fn value.

Definition and (value : val) (opt : Option val) : Option val := opt.
Definition or (value : val) (_opt : Option val) : Option val :=
  OptionSome value.
Definition or_else (value : val) (_fn : prog) : prog :=
  Ret (VOption (OptionSome value)).

Definition xor (value : val) (optb : Option val) : Option val :=
  match optb with
  | OptionSome _ => OptionNone
  | OptionNone => OptionSome value
  end.

Definition zip (value : val) (other : Option val) : Option val :=
  match other with
  | OptionSome value' => OptionSome (VArray [value; value'])
  | OptionNone => OptionNone
  end.

Definition zip_with (value : val) (other : Option val)
    (f : val -> val -> prog) : prog :=
  match other with
  | OptionSome value' =>
      let* r := f value value' in Ret (VOption (OptionSome r))
  | OptionNone => Ret (VOption OptionNone)
  end.

(** [val instanceof OptionSome], [val instanceof OptionNone], or
    neither. *)
Definition flatten (value : val) : val :=
  match value with
  | VOption o => VOption o
  | _ => VOption (OptionSome value)
  end.

Definition ok_or (value : val) (_err : val) : Plain.obj :=
  Plain.mk "Ok" value.

(** [result] is [this.value]; the condition is
    [result._tag === 'Ok' || (result.is_ok && result.is_ok())]. *)
Definition transpose (value : val) : Plain.returned :=
  let result := value in
  if nullish result then Plain.Throws (no_property result "_tag")
  else if has_tag result "Ok" || call_is_ok result then
    Plain.Returns (Plain.mk "Ok" (VOption (OptionSome (get_value result))))
  else Plain.Returns (Plain.mk "Err" (get_value result)).
End OptionSome.

(** Methods of class [OptionNone]. *)
Module OptionNone.
Definition is_some : bool := false.
Definition is_none : bool := true.
Definition expect (msg : string) : prog := Throw (VError msg).
Definition unwrap : prog :=
  Throw (VError "Called Option.unwrap() on a None value").
Definition unwrap_or (optb : val) : val := optb.

Definition map (_fn : val -> prog) : prog := Ret (VOption OptionNone).
Definition inspect (_f : val -> prog) : prog := Ret (VOption OptionNone).
Definition and_then (_fn : val -> prog) : prog := Ret (VOption OptionNone).

Definition is_some_and (_f : val -> prog) : prog := Ret (VBool false).
Definition is_none_or (_f : val -> prog) : prog := Ret (VBool true).
Definition unwrap_or_else (fn : prog) : prog := fn.
Definition unwrap_or_default : val := VNull.
Definition map_or (defaultVal : val) (_fn : val -> prog) : prog :=
  Ret defaultVal.
Definition and (_opt : Option val) : Option val := OptionNone.
Definition or (opt : Option val) : Option val := opt.
Definition or_else (fn : prog) : prog := fn.
Definition xor (optb : Option val) : Option val := optb.
Definition zip (_other : Option val) : Option val := OptionNone.
Definition zip_with (_other : Option val) (_f : val -> val -> prog) : prog :=
  Ret (VOption OptionNone).
Definition flatten : val := VOption OptionNone.
Definition ok_or (err : val) : Plain.obj := Plain.mk "Err" err.
Definition transpose : Plain.returned :=
  Plain.Returns (Plain.mk "Ok" (VOption OptionNone)).
End OptionNone.

(** A method call on a value of the union type [Option<T>] goes to the
    class of the receiver. *)
Module Option.
Definition is_some (o : Option val) : bool :=
  match o with
  | OptionSome value => OptionSome.is_some value
  | OptionNone => OptionNone.is_some
  end.

Definition is_none (o : Option val) : bool :=
  match o with
  | OptionSome value => OptionSome.is_none value
  | OptionNone => OptionNone.is_none
  end.

Definition expect (o : Option val) (msg : string) : prog :=
  match o with
  | OptionSome value => OptionSome.expect value msg
  | OptionNone => OptionNone.expect msg
  end.

Definition unwrap (o : Option val) : prog :=
  match o with
  | OptionSome value => OptionSome.unwrap value
  | OptionNone => OptionNone.unwrap
  end.

Definition unwrap_or (o : Option val) (optb : val) : val :=
  match o with
  | OptionSome value => OptionSome.unwrap_or value optb
  | OptionNone => OptionNone.unwrap_or optb
  end.

Definition map (o : Option val) (fn : val -> prog) : prog :=
  match o with
  | OptionSome value => OptionSome.map value fn
  | OptionNone => OptionNone.map fn
  end.

Definition inspect (o : Option val) (f : val -> prog) : prog :=
  match o with
  | OptionSome value => OptionSome.inspect value f
  | OptionNone => OptionNone.inspect f
  end.

Definition and_then (o : Option val) (fn : val -> prog) : prog :=
  match o with
  | OptionSome value => OptionSome.and_then value fn
  | OptionNone => OptionNone.and_then fn
  end.

Definition is_some_and (o : Option val) (f : val -> prog) : prog :=
  match o with
  | OptionSome value => OptionSome.is_some_and value f
  | OptionNone => OptionNone.is_some_and f
  end.

Definition is_none_or (o : Option val) (f : val -> prog) : prog :=
  match o with
  | OptionSome value => OptionSome.is_none_or value f
  | OptionNone => OptionNone.is_none_or f
  end.

Definition unwrap_or_else (o : Option val) (fn : prog) : prog :=
  match o with
  | OptionSome value => OptionSome.unwrap_or_else value fn
  | OptionNone => OptionNone.unwrap_or_else fn
  end.

Definition unwrap_or_default (o : Option val) : val :=
  match o with
  | OptionSome value => OptionSome.unwrap_or_default value
  | OptionNone => OptionNone.unwrap_or_default
  end.

Definition map_or (o : Option val) (defaultVal : val) (fn : val -> prog) : prog :=
  match o with
  | OptionSome value => OptionSome.map_or value defaultVal fn
  | OptionNone => OptionNone.map_or defaultVal fn
  end.

Definition and (o : Option val) (opt : Option val) : Option val :=
  match o with
  | OptionSome value => OptionSome.and value opt
  | OptionNone => OptionNone.and opt
  end.

Definition or (o : Option val) (opt : Option val) : Option val :=
  match o with
  | OptionSome value => OptionSome.or value opt
  | OptionNone => OptionNone.or opt
  end.

Definition or_else (o : Option val) (fn : prog) : prog :=
  match o with
  | OptionSome value => OptionSome.or_else value fn
  | OptionNone => OptionNone.or_else fn
  end.

Definition xor (o : Option val) (optb : Option val) : Option val :=
  match o with
  | OptionSome value => OptionSome.xor value optb
  | OptionNone => OptionNone.xor optb
  end.

Definition zip (o : Option val) (other : Option val) : Option val :=
  match o with
  | OptionSome value => OptionSome.zip value other
  | OptionNone => OptionNone.zip other
  end.

Definition zip_with (o : Option val) (other : Option val) (f : val -> val -> prog) : prog :=
  match o with
  | OptionSome value => OptionSome.zip_with value other f
  | OptionNone => OptionNone.zip_with other f
  end.

Definition flatten (o : Option val) : val :=
  match o with
  | OptionSome value => OptionSome.flatten value
  | OptionNone => OptionNone.flatten
  end.

Definition ok_or (o : Option val) (err : val) : Plain.obj :=
  match o with
  | OptionSome value => OptionSome.ok_or value err
  | OptionNone => OptionNone.ok_or err
  end.

Definition transpose (o : Option val) : Plain.returned :=
  match o with
  | OptionSome value => OptionSome.transpose value
  | OptionNone => OptionNone.transpose
  end.
End Option.

(** The receiver of [o.m(...)] when [o] is an arbitrary value. *)
Definition on_option (v : val) (k : Option val -> prog) : prog :=
  match v with
  | VOption o => k o
  | _ => Throw (type_error "not an Option")
  end.


(** The free functions of option.ts. *)
Definition option_from_nullable (v : val) : Option val :=
  match v with
  | VNull | VUndefined => mkNone
  | _ => mkSome v
  end.

(** [handlers.Some] and [handlers.None], the latter as the call
    [handlers.None()]. *)
Definition matchOption (option : Option val) (handlers_Some : val -> prog)
    (handlers_None : prog) : prog :=
  match option with
  | OptionSome value => handlers_Some value
  | OptionNone => handlers_None
  end.
(** *** The mutating methods

    [take] and [replace] assign to [this.value], so for them an
    [Option] instance is an object of a store: its class, which no
    assignment changes, and the current content of its [value] field.
    A reference is the index of the object. *)
Module OptionRef.
Abbreviation ref := nat (only parsing).
Abbreviation store := (list (Option val)).

(** [new OptionSome(value)] and [new OptionNone()]. *)
Definition new (o : Option val) (h : store) : ref * store :=
  (length h, (h ++ [o])%list).

Definition is_some (this : ref) (h : store) : option bool :=
  Option.is_some <$> h !! this.

Definition is_none (this : ref) (h : store) : option bool :=
  Option.is_none <$> h !! this.

(** Reading [this.value] of an [OptionSome]. *)
Definition value (this : ref) (h : store) : option val :=
  match h !! this with
  | Some (OptionSome v) => Some v
  | _ => None
  end.

(** [OptionSome.take]. *)
Definition take_some (this : ref) (value : val) (h : store) : ref * store :=
  new (OptionSome value) (<[this := OptionSome VUndefined]> h).

(** [OptionNone.take]. *)
Definition take_none (this : ref) (h : store) : ref * store := (this, h).

(** [OptionSome.replace]. *)
Definition replace_some (this : ref) (oldValue value : val) (h : store)
  : ref * store :=
  new (OptionSome oldValue) (<[this := OptionSome value]> h).

(** [OptionNone.replace]. *)
Definition replace_none (this : ref) (value : val) (h : store) : ref * store :=
  new (OptionSome value) h.

(** [this.take()] and [this.replace(value)] on a reference of the union
    type; [None] when the reference is dangling. *)
Definition take (this : ref) (h : store) : option (ref * store) :=
  match h !! this with
  | Some (OptionSome value) => Some (take_some this value h)
  | Some OptionNone => Some (take_none this h)
  | None => None
  end.

Definition replace (this : ref) (value : val) (h : store)
  : option (ref * store) :=
  match h !! this with
  | Some (OptionSome oldValue) => Some (replace_some this oldValue value h)
  | Some OptionNone => Some (replace_none this value h)
  | None => None
  end.
End OptionRef.

(** ** result.ts *)

Module ResultOk.
Definition is_ok (value : val) : bool := true.
Definition is_err (value : val) : bool := false.
Definition expect (value : val) (_msg : string) : prog := Ret value.
Definition unwrap (value : val) : prog := Ret value.
Definition expect_err (value : val) (msg : string) : prog :=
  Throw (VError msg).
Definition unwrap_err (value : val) : prog :=
  Throw (VError ("Called Result.unwrap_err() on an Ok value: "
                 +:+ to_string value)).
Definition unwrap_or (value : val) (_optb : val) : val := value.

Definition ok (value : val) : Option val := mkSome value.
Definition err (value : val) : Option val := mkNone.

Definition map (value : val) (fn : val -> prog) : prog :=
  let* u := fn value in Ret (VResult (ResultOk u)).

Definition map_err (value : val) (_fn : val -> prog) : prog :=
  Ret (VResult (ResultOk value)).

Definition and_then (value : val) (fn : val -> prog) : prog := fn value.

Definition is_ok_and (value : val) (f : val -> prog) : prog := f value.
Definition is_err_and (value : val) (_f : val -> prog) : prog :=
  Ret (VBool false).

Definition map_or (value : val) (_d : val) (f : val -> prog) : prog :=
  f value.
Definition map_or_else (value : val) (_d f : val -> prog) : prog := f value.

Definition inspect (value : val) (f : val -> prog) : prog :=
  do f value in Ret (VResult (ResultOk value)).
Definition inspect_err (value : val) (_f : val -> prog) : prog :=
  Ret (VResult (ResultOk value)).

Definition and (value : val) (res : Result val val) : Result val val := res.
Definition or (value : val) (_res : Result val val) : Result val val :=
  ResultOk value.
Definition or_else (value : val) (_fn : val -> prog) : prog :=
  Ret (VResult (ResultOk value)).
Definition unwrap_or_else (value : val) (_fn : val -> prog) : prog :=
  Ret value.

(** [val instanceof ResultOk || val instanceof ResultErr], or not. *)
Definition flatten (value : val) : val :=
  match value with
  | VResult r => VResult r
  | _ => VResult (ResultOk value)
  end.

Definition into_ok (value : val) : prog := Ret value.
Definition into_err (value : val) : prog :=
  Throw (VError ("Called Result.into_err() on an Ok value: "
                 +:+ to_string value)).
Definition transmute (value : val) : Result val val := ResultOk value.

(** [option] is [this.value]; the condition is
    [option._tag === 'Some' || (option.is_some && option.is_some())]. *)
Definition transpose (value : val) : prog :=
  let option := value in
  if nullish option then Throw (no_property option "_tag")
  else if has_tag option "Some" || call_is_some option then
    Ret (VOption (mkSome (VResult (ResultOk (get_value option)))))
  else Ret (VOption mkNone).
End ResultOk.

Module ResultErr.
Definition is_ok (value : val) : bool := false.
Definition is_err (value : val) : bool := true.
Definition expect (value : val) (msg : string) : prog := Throw (VError msg).
Definition unwrap (value : val) : prog :=
  Throw (VError ("Called Result.unwrap() on an Err value: "
                 +:+ to_string value)).
Definition expect_err (value : val) (_msg : string) : prog := Ret value.
Definition unwrap_err (value : val) : prog := Ret value.
Definition unwrap_or (value : val) (optb : val) : val := optb.

Definition ok (value : val) : Option val := mkNone.
Definition err (value : val) : Option val := mkSome value.

Definition map (value : val) (_fn : val -> prog) : prog :=
  Ret (VResult (ResultErr value)).

Definition map_err (value : val) (fn : val -> prog) : prog :=
  let* u := fn value in Ret (VResult (ResultErr u)).

Definition and_then (value : val) (_fn : val -> prog) : prog :=
  Ret (VResult (ResultErr value)).

Definition is_ok_and (value : val) (_f : val -> prog) : prog :=
  Ret (VBool false).
Definition is_err_and (value : val) (f : val -> prog) : prog := f value.

Definition map_or (value : val) (d : val) (_f : val -> prog) : prog := Ret d.
Definition map_or_else (value : val) (d _f : val -> prog) : prog := d value.

Definition inspect (value : val) (_f : val -> prog) : prog :=
  Ret (VResult (ResultErr value)).
Definition inspect_err (value : val) (f : val -> prog) : prog :=
  do f value in Ret (VResult (ResultErr value)).

Definition and (value : val) (_res : Result val val) : Result val val :=
  ResultErr value.
Definition or (value : val) (res : Result val val) : Result val val := res.
Definition or_else (value : val) (fn : val -> prog) : prog := fn value.
Definition unwrap_or_else (value : val) (fn : val -> prog) : prog := fn value.

Definition flatten (value : val) : val := VResult (ResultErr value).

Definition into_ok (value : val) : prog :=
  Throw (VError ("Called Result.into_ok() on an Err value: "
                 +:+ to_string value)).
Definition into_err (value : val) : prog := Ret value.
Definition transmute (value : val) : Result val val := ResultErr value.

Definition transpose (value : val) : prog :=
  Ret (VOption (mkSome (VResult (ResultErr value)))).
End ResultErr.

Module Result.
(** The [value] field, which both classes have. *)
Definition value (r : Result val val) : val :=
  match r with
  | ResultOk value => value
  | ResultErr value => value
  end.

Definition is_ok (r : Result val val) : bool :=
  match r with
  | ResultOk value => ResultOk.is_ok value
  | ResultErr value => ResultErr.is_ok value
  end.

Definition is_err (r : Result val val) : bool :=
  match r with
  | ResultOk value => ResultOk.is_err value
  | ResultErr value => ResultErr.is_err value
  end.

Definition expect (r : Result val val) (msg : string) : prog :=
  match r with
  | ResultOk value => ResultOk.expect value msg
  | ResultErr value => ResultErr.expect value msg
  end.

Definition unwrap (r : Result val val) : prog :=
  match r with
  | ResultOk value => ResultOk.unwrap value
  | ResultErr value => ResultErr.unwrap value
  end.

Definition expect_err (r : Result val val) (msg : string) : prog :=
  match r with
  | ResultOk value => ResultOk.expect_err value msg
  | ResultErr value => ResultErr.expect_err value msg
  end.

Definition unwrap_err (r : Result val val) : prog :=
  match r with
  | ResultOk value => ResultOk.unwrap_err value
  | ResultErr value => ResultErr.unwrap_err value
  end.

Definition unwrap_or (r : Result val val) (optb : val) : val :=
  match r with
  | ResultOk value => ResultOk.unwrap_or value optb
  | ResultErr value => ResultErr.unwrap_or value optb
  end.

Definition map (r : Result val val) (fn : val -> prog) : prog :=
  match r with
  | ResultOk value => ResultOk.map value fn
  | ResultErr value => ResultErr.map value fn
  end.

Definition and_then (r : Result val val) (fn : val -> prog) : prog :=
  match r with
  | ResultOk value => ResultOk.and_then value fn
  | ResultErr value => ResultErr.and_then value fn
  end.

Definition ok (r : Result val val) : Option val :=
  match r with
  | ResultOk value => ResultOk.ok value
  | ResultErr value => ResultErr.ok value
  end.

Definition err (r : Result val val) : Option val :=
  match r with
  | ResultOk value => ResultOk.err value
  | ResultErr value => ResultErr.err value
  end.

Definition map_err (r : Result val val) (fn : val -> prog) : prog :=
  match r with
  | ResultOk value => ResultOk.map_err value fn
  | ResultErr value => ResultErr.map_err value fn
  end.

Definition is_ok_and (r : Result val val) (f : val -> prog) : prog :=
  match r with
  | ResultOk value => ResultOk.is_ok_and value f
  | ResultErr value => ResultErr.is_ok_and value f
  end.

Definition is_err_and (r : Result val val) (f : val -> prog) : prog :=
  match r with
  | ResultOk value => ResultOk.is_err_and value f
  | ResultErr value => ResultErr.is_err_and value f
  end.

Definition map_or (r : Result val val) (d : val) (f : val -> prog) : prog :=
  match r with
  | ResultOk value => ResultOk.map_or value d f
  | ResultErr value => ResultErr.map_or value d f
  end.

Definition map_or_else (r : Result val val) (d : val -> prog) (f : val -> prog) : prog :=
  match r with
  | ResultOk value => ResultOk.map_or_else value d f
  | ResultErr value => ResultErr.map_or_else value d f
  end.

Definition inspect (r : Result val val) (f : val -> prog) : prog :=
  match r with
  | ResultOk value => ResultOk.inspect value f
  | ResultErr value => ResultErr.inspect value f
  end.

Definition inspect_err (r : Result val val) (f : val -> prog) : prog :=
  match r with
  | ResultOk value => ResultOk.inspect_err value f
  | ResultErr value => ResultErr.inspect_err value f
  end.

Definition and (r : Result val val) (res : Result val val) : Result val val :=
  match r with
  | ResultOk value => ResultOk.and value res
  | ResultErr value => ResultErr.and value res
  end.

Definition or (r : Result val val) (res : Result val val) : Result val val :=
  match r with
  | ResultOk value => ResultOk.or value res
  | ResultErr value => ResultErr.or value res
  end.

Definition or_else (r : Result val val) (fn : val -> prog) : prog :=
  match r with
  | ResultOk value => ResultOk.or_else value fn
  | ResultErr value => ResultErr.or_else value fn
  end.

Definition unwrap_or_else (r : Result val val) (fn : val -> prog) : prog :=
  match r with
  | ResultOk value => ResultOk.unwrap_or_else value fn
  | ResultErr value => ResultErr.unwrap_or_else value fn
  end.

Definition flatten (r : Result val val) : val :=
  match r with
  | ResultOk value => ResultOk.flatten value
  | ResultErr value => ResultErr.flatten value
  end.

Definition into_ok (r : Result val val) : prog :=
  match r with
  | ResultOk value => ResultOk.into_ok value
  | ResultErr value => ResultErr.into_ok value
  end.

Definition into_err (r : Result val val) : prog :=
  match r with
  | ResultOk value => ResultOk.into_err value
  | ResultErr value => ResultErr.into_err value
  end.

Definition transmute (r : Result val val) : Result val val :=
  match r with
  | ResultOk value => ResultOk.transmute value
  | ResultErr value => ResultErr.transmute value
  end.

Definition transpose (r : Result val val) : prog :=
  match r with
  | ResultOk value => ResultOk.transpose value
  | ResultErr value => ResultErr.transpose value
  end.
End Result.

Definition on_result (v : val) (k : Result val val -> prog) : prog :=
  match v with
  | VResult r => k r
  | _ => Throw (type_error "not a Result")
  end.


(** The free functions of result.ts. [try_catch_] is [try_catch], [fn]
    being the call [fn()]. *)
Definition try_catch_ (fn : prog) : prog :=
  try_catch (let* v := fn in Ret (VResult (Ok v)))
            (fun error => Ret (VResult (Err error))).

(** The loop of [collect]; [values] is the array built so far. *)
Fixpoint collect_loop (results : list (Result val val)) (values : list val)
  : Result val val :=
  match results with
  | [] => Ok (VArray values)
  | result :: rest =>
      if Result.is_err result then result
      else collect_loop rest (values ++ [Result.value result])
  end.

Definition collect (results : list (Result val val)) : Result val val :=
  collect_loop results [].

Definition matchResult (result : Result val val)
    (handlers_Ok handlers_Err : val -> prog) : prog :=
  if Result.is_ok result then handlers_Ok (Result.value result)
  else handlers_Err (Result.value result).
(** ** Promise idioms used by the wrappers *)

(** The truth value of a value in a condition. *)
Definition truthy (v : val) : bool :=
  match v with
  | VUndefined | VNull => false
  | VBool b => b
  | VNum n => negb (n =? 0)%Z
  | VStr s => negb (String.eqb s "")
  | _ => true
  end.

(** [async (...) => { body }], called: the promise of the call is the
    value the call returns. *)
Definition async (body : prog) : prog :=
  AsyncCall body (fun q => Ret (VPromise q)).

(** The reaction of [p.then(f)]: a rejection passes through. *)
Definition fulfilled (f : val -> prog) (st : settled) : prog :=
  match st with
  | Fulfilled v => f v
  | Rejected e => Throw e
  end.

(** The reaction of [p.catch(h)]: a fulfilment passes through. *)
Definition rejected (h : val -> prog) (st : settled) : prog :=
  match st with
  | Fulfilled v => Ret v
  | Rejected e => h e
  end.

(** The reaction of [p.then(onfulfilled, onrejected)], either callback
    possibly missing. *)
Definition reaction_of (onfulfilled onrejected : option (val -> prog))
    (st : settled) : prog :=
  match st with
  | Fulfilled v =>
      match onfulfilled with Some f => f v | None => Ret v end
  | Rejected e =>
      match onrejected with Some h => h e | None => Throw e end
  end.

(** [errorFn ? errorFn(error) : error]. *)
Definition map_error (errorFn : option (val -> prog)) (error : val) : prog :=
  match errorFn with
  | Some f => f error
  | None => Ret error
  end.


(** The promise helpers of option.ts and result.ts. *)
Definition option_from_promise (promise : pid) : prog :=
  PromiseThen promise (fulfilled (fun value => Ret (VOption (mkSome value))))
    (fun p1 =>
       PromiseThen p1 (rejected (fun _ => Ret (VOption mkNone)))
         (fun p2 => Ret (VPromise p2))).

Definition result_from_promise (val_ : pid) : prog :=
  async (try_catch
           (let* v := await (VPromise val_) in Ret (VResult (Ok v)))
           (fun error => Ret (VResult (Err error)))).
(** ** result-async.ts *)

Module ResultAsync.
(** The private constructor; the argument is the [promise] field. *)
Definition new (promise : pid) : val := VResultAsync promise.

Definition fromResult (result : val) : prog :=
  PromiseResolve result (fun p => Ret (new p)).

Definition ok (value : val) : prog :=
  PromiseResolve (VResult (Ok value)) (fun p => Ret (new p)).

Definition err (error : val) : prog :=
  PromiseResolve (VResult (Err error)) (fun p => Ret (new p)).

Definition fromPromise (promise : pid) (errorFn : option (val -> prog))
  : prog :=
  PromiseThen promise (fulfilled (fun value => Ret (VResult (Ok value))))
    (fun p1 =>
       PromiseThen p1
         (rejected (fun error =>
            let* mappedError := map_error errorFn error in
            Ret (VResult (Err mappedError))))
         (fun p2 => Ret (new p2))).

(** [fn] is the call [fn()]. *)
Definition try (fn : prog) (errorFn : option (val -> prog)) : prog :=
  AsyncCall
    (try_catch
       (let* x := fn in
        let* value := await x in
        Ret (VResult (Ok value)))
       (fun error =>
          let* mappedError := map_error errorFn error in
          Ret (VResult (Err mappedError))))
    (fun p => Ret (new p)).

(** The [for ... of] loop of [all]; [values] is the array built so
    far. *)
Fixpoint all_loop (results : list val) (values : list val) : prog :=
  match results with
  | [] => Ret (VResult (Ok (VArray values)))
  | resultAsync :: rest =>
      let* result := await resultAsync in
      on_result result (fun r =>
        if Result.is_err r then Ret result
        else all_loop rest (values ++ [Result.value r]))
  end.

Definition all (results : list val) : prog :=
  AsyncCall (all_loop results []) (fun p => Ret (new p)).

(** The loop of [allSettled] and what follows it. *)
Fixpoint allSettled_loop (results : list val) (values errors : list val)
  : prog :=
  match results with
  | [] =>
      if bool_decide (0 < length errors) then
        Ret (VResult (Err (VArray errors)))
      else Ret (VResult (Ok (VArray values)))
  | resultAsync :: rest =>
      let* result := await resultAsync in
      on_result result (fun r =>
        if Result.is_err r then
          allSettled_loop rest values (errors ++ [Result.value r])
        else allSettled_loop rest (values ++ [Result.value r]) errors)
  end.

Definition allSettled (results : list val) : prog :=
  AsyncCall (allSettled_loop results [] []) (fun p => Ret (new p)).

(** [this] is [this.promise] in all that follows. *)
Definition then_ (this : pid) (onfulfilled onrejected : option (val -> prog))
  : prog :=
  PromiseThen this (reaction_of onfulfilled onrejected)
    (fun q => Ret (VPromise q)).

Definition toPromise (this : pid) : val := VPromise this.



Definition map (this : pid) (fn : val -> prog) : prog :=
  PromiseThen this
    (fulfilled (fun result => async (
       on_result result (fun r =>
         if Result.is_ok r then
           let* x := fn (Result.value r) in
           let* newValue := await x in
           Ret (VResult (Ok newValue))
         else Ret (VResult (Err (Result.value r)))))))
    (fun p => Ret (new p)).

Definition mapErr (this : pid) (fn : val -> prog) : prog :=
  PromiseThen this
    (fulfilled (fun result => async (
       on_result result (fun r =>
         if Result.is_err r then
           let* x := fn (Result.value r) in
           let* newError := await x in
           Ret (VResult (Err newError))
         else Ret (VResult (Ok (Result.value r)))))))
    (fun p => Ret (new p)).

Definition andThen (this : pid) (fn : val -> prog) : prog :=
  PromiseThen this
    (fulfilled (fun result => async (
       on_result result (fun r =>
         if Result.is_ok r then
           let* next := fn (Result.value r) in
           match next with
           | VResultAsync promise => Ret (VPromise promise)
           | _ => Ret next
           end
         else Ret (VResult (Err (Result.value r)))))))
    (fun p => Ret (new p)).

Definition orElse (this : pid) (fn : val -> prog) : prog :=
  PromiseThen this
    (fulfilled (fun result => async (
       on_result result (fun r =>
         if Result.is_err r then
           let* next := fn (Result.value r) in
           match next with
           | VResultAsync promise => Ret (VPromise promise)
           | _ => Ret next
           end
         else Ret (VResult (Ok (Result.value r)))))))
    (fun p => Ret (new p)).

(** [other] is the [promise] field of the other wrapper. *)
Definition and (this : pid) (other : pid) : prog :=
  PromiseThen this
    (fulfilled (fun result => async (
       on_result result (fun r =>
         if Result.is_ok r then Ret (VPromise other)
         else Ret (VResult (Err (Result.value r)))))))
    (fun p => Ret (new p)).

Definition or (this : pid) (other : pid) : prog :=
  PromiseThen this
    (fulfilled (fun result => async (
       on_result result (fun r =>
         if Result.is_err r then Ret (VPromise other)
         else Ret (VResult (Ok (Result.value r)))))))
    (fun p => Ret (new p)).

Definition expect (this : pid) (msg : string) : prog :=
  async (let* result := await (VPromise this) in
         on_result result (fun r => Result.expect r msg)).

Definition unwrap (this : pid) : prog :=
  async (let* result := await (VPromise this) in
         on_result result (fun r => Result.unwrap r)).



Definition unwrapOr (this : pid) (defaultValue : val) : prog :=
  async (let* result := await (VPromise this) in
         on_result result (fun r => Ret (Result.unwrap_or r defaultValue))).

Definition inspect (this : pid) (fn : val -> prog) : prog :=
  PromiseThen this
    (fulfilled (fun result =>
       on_result result (fun r =>
         if Result.is_ok r then do fn (Result.value r) in Ret result
         else Ret result)))
    (fun p => Ret (new p)).

Definition inspectErr (this : pid) (fn : val -> prog) : prog :=
  PromiseThen this
    (fulfilled (fun result =>
       on_result result (fun r =>
         if Result.is_err r then do fn (Result.value r) in Ret result
         else Ret result)))
    (fun p => Ret (new p)).

Definition flatten (this : pid) : prog :=
  PromiseThen this
    (fulfilled (fun result =>
       on_result result (fun r =>
         if Result.is_ok r then Ret (Result.value r)
         else Ret (VResult (Err (Result.value r))))))
    (fun p => Ret (new p)).

(** [ResultOk.prototype.toAsync] and [ResultErr.prototype.toAsync];
    [this] is the result the method is called on. *)
Definition toAsync (this : Result val val) : prog :=
  fromResult (VResult this).

Definition mapOr (this : pid) (defaultValue : val) (fn : val -> prog)
  : prog :=
  async (let* result := await (VPromise this) in
         on_result result (fun r =>
           if Result.is_ok r then fn (Result.value r)
           else Ret defaultValue)).

Definition mapOrElse (this : pid) (defaultFn fn : val -> prog) : prog :=
  async (let* result := await (VPromise this) in
         on_result result (fun r =>
           if Result.is_ok r then fn (Result.value r)
           else defaultFn (Result.value r))).

Definition unwrapOrElse (this : pid) (fn : val -> prog) : prog :=
  async (let* result := await (VPromise this) in
         on_result result (fun r =>
           if Result.is_ok r then Ret (Result.value r)
           else fn (Result.value r))).



(** [handlers.Ok] and [handlers.Err]. *)
Definition match_ (this : pid) (handlers_Ok handlers_Err : val -> prog)
  : prog :=
  async (let* result := await (VPromise this) in
         on_result result (fun r =>
           if Result.is_ok r then handlers_Ok (Result.value r)
           else handlers_Err (Result.value r))).
End ResultAsync.


(** The free functions of result-async.ts; [fn args] is the call
    [fn(...args)]. *)
Definition tryAsync (fn : list val -> prog) (errorFn : option (val -> prog))
  : list val -> prog :=
  fun args => ResultAsync.try (fn args) errorFn.

Definition liftAsync (fn : list val -> prog) : list val -> prog :=
  fun args => let* result := fn args in ResultAsync.fromResult result.

Definition allAsync : list val -> prog := ResultAsync.all.
Definition fromPromise : pid -> option (val -> prog) -> prog :=
  ResultAsync.fromPromise.
(** ** option-async.ts *)

Module OptionAsync.
Definition new (promise : pid) : val := VOptionAsync promise.

Definition fromOption (option : val) : prog :=
  PromiseResolve option (fun p => Ret (new p)).

Definition some (value : val) : prog :=
  PromiseResolve (VOption (mkSome value)) (fun p => Ret (new p)).

Definition none : prog :=
  PromiseResolve (VOption mkNone) (fun p => Ret (new p)).

Definition fromPromise (promise : pid) : prog :=
  PromiseThen promise (fulfilled (fun value => Ret (VOption (mkSome value))))
    (fun p1 =>
       PromiseThen p1 (rejected (fun _ => Ret (VOption mkNone)))
         (fun p2 => Ret (new p2))).

Definition try (fn : prog) : prog :=
  AsyncCall
    (try_catch
       (let* x := fn in
        let* value := await x in
        Ret (VOption (mkSome value)))
       (fun _ => Ret (VOption mkNone)))
    (fun p => Ret (new p)).

Fixpoint all_loop (options : list val) (values : list val) : prog :=
  match options with
  | [] => Ret (VOption (mkSome (VArray values)))
  | optionAsync :: rest =>
      let* option := await optionAsync in
      on_option option (fun o =>
        match o with
        | OptionNone => Ret (VOption mkNone)
        | OptionSome value => all_loop rest (values ++ [value])
        end)
  end.

Definition all (options : list val) : prog :=
  AsyncCall (all_loop options []) (fun p => Ret (new p)).

Definition then_ (this : pid) (onfulfilled onrejected : option (val -> prog))
  : prog :=
  PromiseThen this (reaction_of onfulfilled onrejected)
    (fun q => Ret (VPromise q)).

Definition toPromise (this : pid) : val := VPromise this.

Definition isSome (this : pid) : prog :=
  async (let* option := await (VPromise this) in
         on_option option (fun o => Ret (VBool (Option.is_some o)))).

Definition isNone (this : pid) : prog :=
  async (let* option := await (VPromise this) in
         on_option option (fun o => Ret (VBool (Option.is_none o)))).

Definition map (this : pid) (fn : val -> prog) : prog :=
  PromiseThen this
    (fulfilled (fun option => async (
       on_option option (fun o =>
         match o with
         | OptionSome value =>
             let* x := fn value in
             let* newValue := await x in
             Ret (VOption (mkSome newValue))
         | OptionNone => Ret (VOption mkNone)
         end))))
    (fun p => Ret (new p)).

Definition andThen (this : pid) (fn : val -> prog) : prog :=
  PromiseThen this
    (fulfilled (fun option => async (
       on_option option (fun o =>
         match o with
         | OptionSome value =>
             let* next := fn value in
             match next with
             | VOptionAsync promise => Ret (VPromise promise)
             | _ => Ret next
             end
         | OptionNone => Ret (VOption mkNone)
         end))))
    (fun p => Ret (new p)).

(** [fn] is the call [fn()]. *)
Definition orElse (this : pid) (fn : prog) : prog :=
  PromiseThen this
    (fulfilled (fun option => async (
       on_option option (fun o =>
         match o with
         | OptionNone =>
             let* next := fn in
             match next with
             | VOptionAsync promise => Ret (VPromise promise)
             | _ => Ret next
             end
         | OptionSome _ => Ret option
         end))))
    (fun p => Ret (new p)).

(** [other] is the [promise] field of the other wrapper. *)
Definition and (this : pid) (other : pid) : prog :=
  PromiseThen this
    (fulfilled (fun option => async (
       on_option option (fun o =>
         match o with
         | OptionSome _ => Ret (VPromise other)
         | OptionNone => Ret (VOption mkNone)
         end))))
    (fun p => Ret (new p)).

Definition or (this : pid) (other : pid) : prog :=
  PromiseThen this
    (fulfilled (fun option => async (
       on_option option (fun o =>
         match o with
         | OptionNone => Ret (VPromise other)
         | OptionSome _ => Ret option
         end))))
    (fun p => Ret (new p)).

Definition filter (this : pid) (predicate : val -> prog) : prog :=
  PromiseThen this
    (fulfilled (fun option => async (
       on_option option (fun o =>
         match o with
         | OptionSome value =>
             let* x := predicate value in
             let* keep := await x in
             if truthy keep then Ret option else Ret (VOption mkNone)
         | OptionNone => Ret (VOption mkNone)
         end))))
    (fun p => Ret (new p)).

Definition expect (this : pid) (msg : string) : prog :=
  async (let* option := await (VPromise this) in
         on_option option (fun o => Option.expect o msg)).

Definition unwrap (this : pid) : prog :=
  async (let* option := await (VPromise this) in
         on_option option (fun o => Option.unwrap o)).

Definition unwrapOr (this : pid) (defaultValue : val) : prog :=
  async (let* option := await (VPromise this) in
         on_option option (fun o => Ret (Option.unwrap_or o defaultValue))).

Definition inspect (this : pid) (fn : val -> prog) : prog :=
  PromiseThen this
    (fulfilled (fun option =>
       on_option option (fun o =>
         match o with
         | OptionSome value => do fn value in Ret option
         | OptionNone => Ret option
         end)))
    (fun p => Ret (new p)).

Definition flatten (this : pid) : prog :=
  PromiseThen this
    (fulfilled (fun option =>
       on_option option (fun o =>
         match o with
         | OptionSome value => Ret value
         | OptionNone => Ret (VOption mkNone)
         end)))
    (fun p => Ret (new p)).

Definition zip (this : pid) (other : pid) : prog :=
  PromiseThen this
    (fulfilled (fun option => async (
       on_option option (fun o =>
         match o with
         | OptionSome value =>
             let* otherOption := await (VPromise other) in
             on_option otherOption (fun o' =>
               match o' with
               | OptionSome value' =>
                   Ret (VOption (mkSome (VArray [value; value'])))
               | OptionNone => Ret (VOption mkNone)
               end)
         | OptionNone => Ret (VOption mkNone)
         end))))
    (fun p => Ret (new p)).

Definition zipWith (this : pid) (other : pid) (fn : val -> val -> prog) : prog :=
  PromiseThen this
    (fulfilled (fun option => async (
       on_option option (fun o =>
         match o with
         | OptionSome value =>
             let* otherOption := await (VPromise other) in
             on_option otherOption (fun o' =>
               match o' with
               | OptionSome value' =>
                   let* x := fn value value' in
                   let* result := await x in
                   Ret (VOption (mkSome result))
               | OptionNone => Ret (VOption mkNone)
               end)
         | OptionNone => Ret (VOption mkNone)
         end))))
    (fun p => Ret (new p)).

(** [OptionSome.prototype.toAsync] and [OptionNone.prototype.toAsync]. *)
Definition toAsync (this : Option val) : prog :=
  fromOption (VOption this).

Definition fromNullable (value : val) : prog :=
  match value with
  | VNull | VUndefined => none
  | _ => some value
  end.

Definition mapOr (this : pid) (defaultValue : val) (fn : val -> prog)
  : prog :=
  async (let* option := await (VPromise this) in
         on_option option (fun o =>
           match o with
           | OptionSome value => fn value
           | OptionNone => Ret defaultValue
           end)).

(** [defaultFn] and [fn] of [unwrapOrElse] are the calls [defaultFn()]
    and [fn()]. *)
Definition mapOrElse (this : pid) (defaultFn : prog) (fn : val -> prog)
  : prog :=
  async (let* option := await (VPromise this) in
         on_option option (fun o =>
           match o with
           | OptionSome value => fn value
           | OptionNone => defaultFn
           end)).

Definition unwrapOrElse (this : pid) (fn : prog) : prog :=
  async (let* option := await (VPromise this) in
         on_option option (fun o =>
           match o with
           | OptionSome value => Ret value
           | OptionNone => fn
           end)).

(** [handlers.Some] and the call [handlers.None()]. *)
Definition match_ (this : pid) (handlers_Some : val -> prog)
    (handlers_None : prog) : prog :=
  async (let* option := await (VPromise this) in
         on_option option (fun o =>
           match o with
           | OptionSome value => handlers_Some value
           | OptionNone => handlers_None
           end)).
End OptionAsync.

(** ** Vocabulary of the statements *)

(** A call of an ordinary (not [async]) function comes back to its
    caller: it returns or it throws. *)
Definition returns_or_throws (r : completion) : Prop :=
  match r with
  | Suspend _ _ => False
  | _ => True
  end.

(** [Some(x).map(f).unwrap()]. *)
Definition map_then_unwrap (x : val) (f : val -> prog) : prog :=
  let* o := Option.map (mkSome x) f in
  on_option o Option.unwrap.

(** [await w] issued by an [async] function of its own:
    [(async () => await w)()]. The promise of the call settles the way
    the [await] comes back. *)
Definition probe (w : val) : prog := async (await w).

(** What [await w], issued in state [s], comes back with once the
    queue has been run for [fuel] microtasks. *)
Definition awaited (fuel : nat) (w : val) (s : state) : option settled :=
  outcome (drain fuel (exec (probe w) s).2) (fresh s).

(** How the promise of an activation settles when the activation
    completes on the spot: with the value returned, unless that is a
    thenable still to be followed, or with the exception thrown. *)
Definition settles_with (r : completion) : option settled :=
  match r with
  | Normal v =>
      match thenable v with
      | Some _ => None
      | None => Some (Fulfilled v)
      end
  | Thrown e => Some (Rejected e)
  | Suspend _ _ => None
  end.

(** A promise that nothing is waiting for: settled, or pending with no
    reaction attached. *)
Definition unobserved (s : state) (p : pid) : Prop :=
  is_Some (outcome s p) \/ cells s !! p = Some (Pending []).

(** The promise made by the call [c], read after the promise [this]
    has settled with [st] (if it had not already) and the queue has
    been run for [fuel] microtasks. *)
Definition eventually (fuel : nat) (c : prog) (this : pid) (st : settled)
    (s : state) : option settled :=
  outcome (drain fuel (settle this st (exec c s).2)) (fresh s).

(** Code that comes back with [r] and leaves the store as it is; code
    that comes back with [r], having left the trace [evs] in the log
    and done nothing else. *)
Definition computes (c : prog) (r : completion) : Prop :=
  forall s, exec c s = (r, s).

Definition emits (c : prog) (evs : list event) (r : completion) : Prop :=
  forall s, exec c s = (r, mkState (cells s) (queue s) (log s ++ evs)).

(** The course of an activation made of such code, the promises it
    meets having settled as [known] tells: [settles_to known c o n l]
    when the promise of the activation that runs [c] settles with [o]
    after [n] more microtasks, [l] being what is logged on the way,
    the [await]s issued among it. The activation completes on the spot;
    or it returns a promise, which is followed; or it awaits a value,
    or a promise, and goes on. *)
Inductive settles_to (known : pid -> option settled)
  : prog -> settled -> nat -> list event -> Prop :=
| settles_now c evs r o :
    emits c evs r -> settles_with r = Some o -> settles_to known c o 0 evs
| settles_follow c evs x p o :
    emits c evs (Normal x) -> thenable x = Some p -> known p = Some o ->
    (forall v, o = Fulfilled v -> thenable v = None) ->
    settles_to known c o 1 evs
| settles_await_value c evs x k o n l :
    emits c evs (Suspend x k) -> thenable x = None ->
    settles_to known (k (Fulfilled x)) o n l ->
    settles_to known c o (S n) (evs ++ EvAwait x :: l)
| settles_await_promise c evs x p st k o n l :
    emits c evs (Suspend x k) -> thenable x = Some p -> known p = Some st ->
    settles_to known (k st) o n l ->
    settles_to known c o (S n) (evs ++ EvAwait x :: l).

(** The state reached after the call [c], made in [s]: the promise
    [this] has settled with [st] (if it had not already) and the queue
    has been run for [fuel] microtasks. *)
Definition finally (fuel : nat) (c : prog) (this : pid) (st : settled)
    (s : state) : state :=
  drain fuel (settle this st (exec c s).2).

(** The facts [known] are true of the state [s]. *)
Definition holds (known : pid -> option settled) (s : state) : Prop :=
  forall p st, known p = Some st -> outcome s p = Some st.

(** What a callback handed to a [try] constructor can do when it is
    called: throw; return a value that is not a thenable; return a
    promise, which settles with [st] (a rejection is an exception
    thrown asynchronously); or, an [async] function itself, run its
    body [body], which awaits values and promises that have settled
    and then returns or throws, leaving traces on the way, so that
    the promise of the call settles with [st] after [n] microtasks;
    or, an [async] function again, await first a promise [p] that is
    pending, and go on in that way once [p] has settled with [st0]. *)
Inductive callback_outcome : Type :=
| ThrowsSync (e : val)
| ReturnsValue (x : val)
| ReturnsPromise (p : pid) (st : settled)
| RunsAsync (body : prog) (st : settled) (n : nat)
| AwaitsThenRuns (p : pid) (st0 : settled) (body : prog) (st : settled)
    (n : nat).

(** [fn], called by a [try] constructor in state [s], does [b]. The
    callback runs once the promise [fresh s] of the constructor's
    [async] function has been made, and leaves no microtask behind
    other than its own. A promise it returns has settled already or is
    pending and unobserved. *)
Definition behaves (fn : prog) (s : state) (b : callback_outcome) : Prop :=
  match b with
  | ThrowsSync e => exists s1, exec fn (alloc s) = (Thrown e, s1)
  | ReturnsValue x =>
      thenable x = None
      /\ exists s1, exec fn (alloc s) = (Normal x, s1) /\ queue s1 = []
  | ReturnsPromise p st =>
      exists x s1,
        exec fn (alloc s) = (Normal x, s1)
        /\ thenable x = Some p /\ p <> fresh s /\ queue s1 = []
        /\ (outcome s1 p = Some st \/ cells s1 !! p = Some (Pending []))
  | RunsAsync body st n =>
      fn = async body /\ queue s = []
      /\ exists l, settles_to (outcome s) body st n l
  | AwaitsThenRuns p st0 body st n =>
      fn = async body /\ queue s = []
      /\ cells s !! p = Some (Pending [])
      /\ exists evs w k l,
           emits body evs (Suspend w k) /\ thenable w = Some p
           /\ settles_to (outcome (settle p st0 s)) (k st0) st n l
  end.

(** What happens afterwards: the promise the callback returned, or the
    one it waits for, settles. *)
Definition afterwards (b : callback_outcome) (s : state) : state :=
  match b with
  | ReturnsPromise p st => settle p st s
  | AwaitsThenRuns p st0 _ _ _ => settle p st0 s
  | _ => s
  end.

(** The microtasks the callback needs before its promise settles. *)
Definition turns (b : callback_outcome) : nat :=
  match b with
  | RunsAsync _ _ n => n
  | AwaitsThenRuns _ _ _ _ n => S n
  | _ => 0
  end.

(** The result [ResultAsync.try] is to resolve to, [ef] being what the
    mapping function makes of a caught value (the identity when there
    is none). *)
Definition try_result (ef : val -> val) (b : callback_outcome) : Result val val :=
  match b with
  | ThrowsSync e => ResultErr (ef e)
  | ReturnsValue x => ResultOk x
  | ReturnsPromise _ (Fulfilled v) | RunsAsync _ (Fulfilled v) _
  | AwaitsThenRuns _ _ _ (Fulfilled v) _ => ResultOk v
  | ReturnsPromise _ (Rejected e) | RunsAsync _ (Rejected e) _
  | AwaitsThenRuns _ _ _ (Rejected e) _ => ResultErr (ef e)
  end.

(** The option [OptionAsync.try] is to resolve to. *)
Definition try_option (b : callback_outcome) : Option val :=
  match b with
  | ThrowsSync _ => OptionNone
  | ReturnsValue x => OptionSome x
  | ReturnsPromise _ (Fulfilled v) | RunsAsync _ (Fulfilled v) _
  | AwaitsThenRuns _ _ _ (Fulfilled v) _ => OptionSome v
  | ReturnsPromise _ (Rejected _) | RunsAsync _ (Rejected _) _
  | AwaitsThenRuns _ _ _ (Rejected _) _ => OptionNone
  end.

(** The mapping function the caller hands to [ResultAsync.try], when
    there is one, computes [ef] and does nothing else; when there is
    none, [ef] is the identity. *)
Definition maps_errors (errorFn : option (val -> prog)) (ef : val -> val) : Prop :=
  match errorFn with
  | Some f => forall e s, exec (f e) s = (Normal (ef e), s)
  | None => forall e, ef e = e
  end.

(** ** Loops that await a list of handles in turn *)

(** Promises settle from outside (a timer fires, a request completes);
    after each such event the queue is run. *)
Definition settle_all (fuel : nat) (events : list (pid * settled))
    (s : state) : state :=
  foldl (fun s ev => drain fuel (settle ev.1 ev.2 s)) s events.

(** Where such a loop stands: suspended at the handle of index [i] with
    loop state [acc], or over, the promise of the loop having settled
    with [o] after [n] handles were awaited. *)
Inductive position (A : Type) : Type :=
| Parked (i : nat) (acc : A)
| Done (o : settled) (n : nat).

Arguments Parked {A} i acc.
Arguments Done {A} o n.

(** The position of a loop that is at index [i] with state [acc],
    given for each handle from [i] on whether and how it has settled.
    [step] is one turn of the loop body: go on with a new state, or
    leave the function. [finish] is what follows the loop. *)
Fixpoint locate {A : Type} (step : A -> settled -> A + settled)
    (finish : A -> settled) (os : list (option settled)) (i : nat) (acc : A)
    : position A :=
  match os with
  | [] => Done (finish acc) i
  | None :: _ => Parked i acc
  | Some st :: rest =>
      match step acc st with
      | inl acc' => locate step finish rest (S i) acc'
      | inr o => Done o (S i)
      end
  end.

(** One turn of the loop of [ResultAsync.all]. *)
Definition all_step (values : list val) (st : settled) : list val + settled :=
  match st with
  | Fulfilled (VResult (ResultOk value)) => inl (values ++ [value])
  | Fulfilled (VResult (ResultErr error)) =>
      inr (Fulfilled (VResult (ResultErr error)))
  | Fulfilled _ => inr (Rejected (type_error "not a Result"))
  | Rejected e => inr (Rejected e)
  end.

Definition all_finish (values : list val) : settled :=
  Fulfilled (VResult (ResultOk (VArray values))).

(** One turn of the loop of [OptionAsync.all]. *)
Definition option_all_step (values : list val) (st : settled)
    : list val + settled :=
  match st with
  | Fulfilled (VOption (OptionSome value)) => inl (values ++ [value])
  | Fulfilled (VOption OptionNone) => inr (Fulfilled (VOption OptionNone))
  | Fulfilled _ => inr (Rejected (type_error "not an Option"))
  | Rejected e => inr (Rejected e)
  end.

Definition option_all_finish (values : list val) : settled :=
  Fulfilled (VOption (OptionSome (VArray values))).

(** One turn of the loop of [ResultAsync.allSettled]; the state is the
    pair of the arrays [values] and [errors]. *)
Definition allSettled_step (acc : list val * list val) (st : settled)
    : list val * list val + settled :=
  match st with
  | Fulfilled (VResult (ResultOk value)) => inl (acc.1 ++ [value], acc.2)
  | Fulfilled (VResult (ResultErr error)) => inl (acc.1, acc.2 ++ [error])
  | Fulfilled _ => inr (Rejected (type_error "not a Result"))
  | Rejected e => inr (Rejected e)
  end.

Definition allSettled_finish (acc : list val * list val) : settled :=
  if bool_decide (0 < length acc.2) then
    Fulfilled (VResult (ResultErr (VArray acc.2)))
  else Fulfilled (VResult (ResultOk (VArray acc.1))).

(** The [await]s a loop has issued on the first [n] of its handles. *)
Definition awaits (wrap : pid -> val) (hs : list pid) (n : nat) : list event :=
  map (fun h => EvAwait (wrap h)) (take n hs).

(** What holds of a loop between two events, the loop having been
    started in state [s0] by an [async] call, whose promise is
    [fresh s0], over the handles [hs] with initial loop state [acc0]:
    the queue is empty and the loop is where [locate] says. When it is
    suspended, its continuation is the one reaction on the handle it
    waits for and the handles up to that one have been awaited; when it
    is over, its promise has settled. *)
Definition loop_inv {A : Type} (wrap : pid -> val)
    (K : list val -> A -> settled -> prog)
    (step : A -> settled -> A + settled) (finish : A -> settled)
    (s0 : state) (hs : list pid) (acc0 : A) (s : state) : Prop :=
  queue s = []
  /\ match locate step finish (map (outcome s) hs) 0 acc0 with
     | Parked i acc =>
         cells s !! fresh s0 = Some (Pending [])
         /\ (exists h,
               hs !! i = Some h
               /\ cells s !! h
                  = Some (Pending [(fresh s0, K (map wrap (drop (S i) hs)) acc)])
               /\ Forall (fun h' => h' = h \/ unobserved s h') hs)
         /\ log s = log s0 ++ awaits wrap hs (S i)
     | Done o n =>
         outcome s (fresh s0) = Some o
         /\ Forall (unobserved s) hs
         /\ log s = log s0 ++ awaits wrap hs n
     end.

(** What is left of the three loops when an [await] comes back: the
    rest of the turn, then the turns for the handles [rest]. *)
Definition all_resume (rest : list val) (values : list val) (st : settled)
    : prog :=
  let* result := resume st in
  on_result result (fun r =>
    if Result.is_err r then Ret result
    else ResultAsync.all_loop rest (values ++ [Result.value r])).

Definition option_all_resume (rest : list val) (values : list val)
    (st : settled) : prog :=
  let* option := resume st in
  on_option option (fun o =>
    match o with
    | OptionNone => Ret (VOption mkNone)
    | OptionSome value => OptionAsync.all_loop rest (values ++ [value])
    end).

Definition allSettled_resume (rest : list val) (acc : list val * list val)
    (st : settled) : prog :=
  let* result := resume st in
  on_result result (fun r =>
    if Result.is_err r then
      ResultAsync.allSettled_loop rest acc.1 (acc.2 ++ [Result.value r])
    else ResultAsync.allSettled_loop rest (acc.1 ++ [Result.value r]) acc.2).

(** The payloads of the [Ok]s and of the [Err]s of a list of results,
    in the order of the list. *)
Definition successes (rs : list (Result val val)) : list val :=
  omap (fun r => match r with ResultOk v => Some v | ResultErr _ => None end) rs.

Definition failures (rs : list (Result val val)) : list val :=
  omap (fun r => match r with ResultErr e => Some e | ResultOk _ => None end) rs.

(** The state some time after the call [c] made in [s0]: the queue has
    been run, and the events have happened one by one, the queue being
    run after each. *)
Definition later (fuel : nat) (events : list (pid * settled)) (c : prog)
    (s0 : state) : state :=
  settle_all fuel events (drain fuel (exec c s0).2).

(** ** Observing a wrapper *)

(** A callback that leaves a trace of each call: the side-effect flag
    of a test. *)
Definition flag (tag : string) (v : val) : prog :=
  Emit tag v (Ret VUndefined).

(** The arguments of the calls of [flag tag], in order. *)
Definition emitted (tag : string) (l : list event) : list val :=
  omap (fun ev =>
          match ev with
          | EvEmit tag' v => if String.eqb tag' tag then Some v else None
          | EvAwait _ => None
          end) l.

(** [n] times in a row: [await w] is issued and the queue is run. The
    promises of the [n] awaiting functions come with the state
    reached. *)
Definition await_many (fuel n : nat) (w : val) (s : state)
    : list pid * state :=
  Nat.iter n
    (fun qs_s : list pid * state =>
       (qs_s.1 ++ [fresh qs_s.2], drain fuel (exec (probe w) qs_s.2).2))
    ([], s).

(** The call [c] does nothing but make a promise, attach one reaction
    for it to the promise [this], and return the wrapper [mk] of the
    new promise. *)
Definition attaches (c : prog) (this : pid) (mk : pid -> val) : Prop :=
  forall s, exists cb,
    exec c s = (Normal (mk (fresh s)), subscribe this (fresh s, cb) (alloc s)).

(** ** Running a script *)

(** The state a test starts in, and what a script that evaluates to a
    wrapper (or a promise) resolves to once the queue has been run. *)
Definition initial : state := mkState [] [] [].

Definition resolved (fuel : nat) (script : prog) : option settled :=
  match exec script initial with
  | (Normal w, s) =>
      match thenable w with
      | Some p => outcome (drain fuel s) p
      | None => None
      end
  | _ => None
  end.

(** A method call [w.m(...)] on a wrapper: [k] receives its [promise]
    field. *)
Definition on_wrapper (w : val) (k : pid -> prog) : prog :=
  match w with
  | VOptionAsync promise | VResultAsync promise => k promise
  | _ => Throw (type_error "not a wrapper")
  end.

(** What a callback attached with [inspect], with [inspectErr], is
    called with when the wrapper resolves to [r], to [o]. *)
Definition ok_payload (r : Result val val) : list val :=
  match r with
  | ResultOk x => [x]
  | ResultErr _ => []
  end.

Definition err_payload (r : Result val val) : list val :=
  match r with
  | ResultOk _ => []
  | ResultErr e => [e]
  end.

Definition some_payload (o : Option val) : list val :=
  match o with
  | OptionSome x => [x]
  | OptionNone => []
  end.

(** The wrapper [w] is awaited [n1] times, the promise [this] settles
    with [st] (if it had not already), and [w] is awaited [n2] more
    times, the queue being run after each of these steps. The promises
    of the awaiting functions come with the state reached. *)
Definition awaited_around (fuel n1 n2 : nat) (w : val) (this : pid)
    (st : settled) (s : state) : list pid * state :=
  let a1 := await_many fuel n1 w s in
  let a2 := await_many fuel n2 w (drain fuel (settle this st a1.2)) in
  (a1.1 ++ a2.1, a2.2).

(** The call [call] is made [n] times in a row. The promises it makes
    come with the state reached. *)
Definition called_many (n : nat) (call : prog) (s : state)
    : list pid * state :=
  Nat.iter n
    (fun qs_s : list pid * state =>
       (qs_s.1 ++ [fresh qs_s.2], (exec call qs_s.2).2))
    ([], s).

(** The call is made [n1] times, the promise [this] settles with [st]
    (if it had not already) and the queue is run, then the call is made
    [n2] more times and the queue is run. *)
Definition called_around (fuel n1 n2 : nat) (call : prog) (this : pid)
    (st : settled) (s : state) : list pid * state :=
  let a1 := called_many n1 call s in
  let a2 := called_many n2 call (drain fuel (settle this st a1.2)) in
  (a1.1 ++ a2.1, drain fuel a2.2).

(** * Properties *)

(** ** The store *)

Lemma fresh_alloc s : fresh (alloc s) = S (fresh s).
Proof. unfold fresh, alloc; simpl. rewrite length_app; simpl; lia. Qed.

Lemma lookup_alloc_fresh s : cells (alloc s) !! fresh s = Some (Pending []).
Proof.
  unfold alloc, fresh; simpl.
  rewrite lookup_app_r by lia. by rewrite Nat.sub_diag.
Qed.

Lemma lookup_alloc_lt s p : p < fresh s -> cells (alloc s) !! p = cells s !! p.
Proof. intros Hp. unfold alloc; simpl. by rewrite lookup_app_l. Qed.

Lemma lookup_lt_fresh s p c : cells s !! p = Some c -> p < fresh s.
Proof. intros H. by apply lookup_lt_Some in H. Qed.

Lemma outcome_Some s p st :
  outcome s p = Some st <-> cells s !! p = Some (Settled st).
Proof.
  unfold outcome. destruct (cells s !! p) as [[rs|st']|]; split; congruence.
Qed.

Lemma settle_pending s p st rs :
  cells s !! p = Some (Pending rs) ->
  settle p st s =
    mkState (<[p := Settled st]> (cells s))
            (queue s ++ map (fun r : reaction => (r.1, r.2 st)) rs) (log s).
Proof. intros H. unfold settle. by rewrite H. Qed.

Lemma settle_settled s p st st' :
  outcome s p = Some st' -> settle p st s = s.
Proof. intros H%outcome_Some. unfold settle. by rewrite H. Qed.

Lemma subscribe_pending s p r rs :
  cells s !! p = Some (Pending rs) ->
  subscribe p r s =
    mkState (<[p := Pending (rs ++ [r])]> (cells s)) (queue s) (log s).
Proof. intros H. unfold subscribe. by rewrite H. Qed.

Lemma subscribe_settled s p r st :
  outcome s p = Some st -> subscribe p r s = enqueue (r.1, r.2 st) s.
Proof. intros H%outcome_Some. unfold subscribe. by rewrite H. Qed.

Lemma status_outcome s p st : status s p = Some (Some st) <-> outcome s p = Some st.
Proof.
  unfold status, outcome.
  destruct (cells s !! p) as [[rs|st']|]; split; congruence.
Qed.

Lemma fresh_record ev s : fresh (record ev s) = fresh s.
Proof. done. Qed.

Lemma fresh_subscribe p r s : fresh (subscribe p r s) = fresh s.
Proof.
  unfold subscribe, fresh.
  destruct (cells s !! p) as [[rs|st]|]; simpl; by rewrite ?length_insert.
Qed.

Lemma fresh_settle p st s : fresh (settle p st s) = fresh s.
Proof.
  unfold settle, fresh.
  destruct (cells s !! p) as [[rs|st']|]; simpl; by rewrite ?length_insert.
Qed.

Lemma fresh_resolve q v s : fresh (resolve q v s) = fresh s.
Proof.
  unfold resolve. destruct (thenable v); auto using fresh_subscribe, fresh_settle.
Qed.

Lemma fresh_park q v k s : fresh (park q v k s) = fresh s.
Proof.
  unfold park. destruct (thenable v); by rewrite ?fresh_subscribe.
Qed.

Lemma fresh_complete q r s : fresh (complete q r s) = fresh s.
Proof.
  destruct r; simpl; auto using fresh_resolve, fresh_settle, fresh_park.
Qed.

Lemma status_alloc s p : p < fresh s -> status (alloc s) p = status s p.
Proof. intros Hp. unfold status. by rewrite lookup_alloc_lt. Qed.

Lemma status_subscribe q r s p : status (subscribe q r s) p = status s p.
Proof.
  unfold subscribe, status.
  destruct (cells s !! q) as [[rs|st]|] eqn:Hq; simpl; try done.
  destruct (decide (p = q)) as [->|Hne].
  - rewrite list_lookup_insert_eq by (by eapply lookup_lt_Some). by rewrite Hq.
  - by rewrite list_lookup_insert_ne.
Qed.

Lemma status_settle_ne q st s p : p ≠ q -> status (settle q st s) p = status s p.
Proof.
  intros Hne. unfold settle, status.
  destruct (cells s !! q) as [[rs|st']|] eqn:Hq; simpl; try done.
  by rewrite list_lookup_insert_ne.
Qed.

Lemma status_settle_settled q st s p st' :
  status s p = Some (Some st') -> status (settle q st s) p = Some (Some st').
Proof.
  intros H. destruct (decide (p = q)) as [->|Hne].
  - apply status_outcome in H. by rewrite (settle_settled _ _ _ _ H), status_outcome.
  - by rewrite status_settle_ne.
Qed.

Lemma status_resolve_ne q v s p : p ≠ q -> status (resolve q v s) p = status s p.
Proof.
  intros Hne. unfold resolve.
  destruct (thenable v); auto using status_subscribe, status_settle_ne.
Qed.

Lemma status_park q v k s p : status (park q v k s) p = status s p.
Proof. unfold park. destruct (thenable v); by rewrite ?status_subscribe. Qed.

Lemma status_complete_ne q r s p : p ≠ q -> status (complete q r s) p = status s p.
Proof.
  intros Hne.
  destruct r; simpl; auto using status_resolve_ne, status_settle_ne, status_park.
Qed.

(** Running code settles none of the promises that exist when it
    starts: only the promise of an [async] call made on the way, or one
    made by [Promise.resolve], can be settled before control returns. *)
Lemma exec_status c : forall s r s',
  exec c s = (r, s') ->
  fresh s <= fresh s' /\ forall p, p < fresh s -> status s' p = status s p.
Proof.
  induction c as [v|e|tag v k IH|v k IH|p0 cb _ k IH|body IHb k IH|v k _];
    intros s r s' Hex; simpl in Hex.
  - by inversion Hex.
  - by inversion Hex.
  - apply IH in Hex as [Hf Hs]. by rewrite fresh_record in *.
  - assert (Hgen : forall t, exec (k (fresh s)) (resolve (fresh s) v (alloc s)) = t ->
       t = (r, s') ->
       fresh s <= fresh s' /\ forall p, p < fresh s -> status s' p = status s p).
    { intros t Ht ->. apply IH in Ht as [Hf Hs].
      rewrite fresh_resolve, fresh_alloc in *. split; [lia|].
      intros p Hp. rewrite Hs by lia.
      rewrite status_resolve_ne by lia. by apply status_alloc. }
    destruct v; eauto.
  - apply IH in Hex as [Hf Hs].
    rewrite fresh_subscribe, fresh_alloc in *. split; [lia|].
    intros p Hp. rewrite Hs by lia. rewrite status_subscribe. by apply status_alloc.
  - destruct (exec body (alloc s)) as [rb sb] eqn:Hb.
    apply IHb in Hb as [Hfb Hsb]. apply IH in Hex as [Hf Hs].
    rewrite fresh_complete, ?fresh_alloc in *. split; [lia|].
    intros p Hp. rewrite Hs by lia. rewrite status_complete_ne by lia.
    rewrite Hsb by lia. by apply status_alloc.
  - by inversion Hex.
Qed.

(** ** A settled promise stays as it is *)

Lemma exec_outcome c s r s' p st :
  exec c s = (r, s') -> outcome s p = Some st -> outcome s' p = Some st.
Proof.
  intros Hex Hp. apply status_outcome.
  destruct (exec_status _ _ _ _ Hex) as [_ ->]; [by apply status_outcome|].
  apply outcome_Some in Hp. by eapply lookup_lt_fresh.
Qed.

Lemma complete_outcome q r s p st :
  outcome s p = Some st -> outcome (complete q r s) p = Some st.
Proof.
  rewrite <- !status_outcome. intros Hp.
  destruct r as [v|e|v k]; simpl.
  - unfold resolve. destruct (thenable v).
    + by rewrite status_subscribe.
    + by apply status_settle_settled.
  - by apply status_settle_settled.
  - by rewrite status_park.
Qed.

Lemma run_job_outcome j s p st :
  outcome s p = Some st -> outcome (run_job j s) p = Some st.
Proof.
  intros Hp. unfold run_job. destruct (exec j.2 s) as [r s'] eqn:Hex.
  apply complete_outcome. eauto using exec_outcome.
Qed.

Lemma drain_outcome fuel : forall s p st,
  outcome s p = Some st -> outcome (drain fuel s) p = Some st.
Proof.
  induction fuel as [|fuel IH]; intros s p st Hp; simpl; [done|].
  destruct (queue s) as [|j rest]; [done|].
  apply IH, run_job_outcome. by destruct s.
Qed.

Lemma settle_outcome q st' s p st :
  outcome s p = Some st -> outcome (settle q st' s) p = Some st.
Proof. rewrite <- !status_outcome. apply status_settle_settled. Qed.

(** ** Sequencing *)

Lemma exec_bind m f : forall s,
  exec (bind m f) s =
    match exec m s with
    | (Normal v, s') => exec (f v) s'
    | (Thrown e, s') => (Thrown e, s')
    | (Suspend v k, s') => (Suspend v (fun st => bind (k st) f), s')
    end.
Proof.
  induction m as [v|e|tag v k IH|v k IH|p0 cb _ k IH|body _ k IH|v k _];
    intros s; simpl; try done.
  - destruct v; apply IH.
  - destruct (exec body (alloc s)) as [rb sb]. apply IH.
Qed.

Lemma exec_try_catch m h : forall s,
  exec (try_catch m h) s =
    match exec m s with
    | (Normal v, s') => (Normal v, s')
    | (Thrown e, s') => exec (h e) s'
    | (Suspend v k, s') => (Suspend v (fun st => try_catch (k st) h), s')
    end.
Proof.
  induction m as [v|e|tag v k IH|v k IH|p0 cb _ k IH|body _ k IH|v k _];
    intros s; simpl; try done.
  - destruct v; apply IH.
  - destruct (exec body (alloc s)) as [rb sb]. apply IH.
Qed.

(** ** The synchronous sum types *)

(** C3: [Some(x).map(f).unwrap()] does what [f(x)] does, with the same
    result and the same effects; [map] and [and_then] on [None] and on
    [Err(e)] return the receiver's variant, [Err] with [e] unchanged,
    and leave the state as it is whatever [f] would do: [f] is not
    called. *)
Theorem map_unwrap_and_short_circuit (x e : val) (f : val -> prog)
    (s s' : state) (r : completion) :
  exec (f x) s = (r, s') ->
  returns_or_throws r ->
  exec (map_then_unwrap x f) s = (r, s')
  /\ exec (Option.map mkNone f) s = (Normal (VOption OptionNone), s)
  /\ exec (Option.and_then mkNone f) s = (Normal (VOption OptionNone), s)
  /\ exec (Result.map (Err e) f) s = (Normal (VResult (ResultErr e)), s)
  /\ exec (Result.and_then (Err e) f) s = (Normal (VResult (ResultErr e)), s).
Proof.
  intros Hf Hr. repeat split.
  unfold map_then_unwrap. rewrite exec_bind. simpl.
  unfold OptionSome.map. rewrite exec_bind, Hf.
  destruct r as [v|err|v k]; simpl in *; [done|done|contradiction].
Qed.

Lemma map_unwrap_and_short_circuit_witness :
  let f := fun v => Emit "called" v (Ret (VNum 2)) in
  let s := mkState [] [] [] in
  let s' := mkState [] [] [EvEmit "called" (VNum 1)] in
  exec (map_then_unwrap (VNum 1) f) s = (Normal (VNum 2), s')
  /\ exec (Option.map mkNone f) s = (Normal (VOption OptionNone), s)
  /\ exec (Option.and_then mkNone f) s = (Normal (VOption OptionNone), s)
  /\ exec (Result.map (Err (VStr "e")) f) s
     = (Normal (VResult (ResultErr (VStr "e"))), s)
  /\ exec (Result.and_then (Err (VStr "e")) f) s
     = (Normal (VResult (ResultErr (VStr "e"))), s).
Proof.
  intros f s s'.
  apply (map_unwrap_and_short_circuit (VNum 1) (VStr "e") f s s' (Normal (VNum 2)));
    [reflexivity | exact I].
Defined.

(** C6 (what the code does): after [take()] on a [Some(x)] the value
    returned is a new [Some(x)], but the receiver is still an instance
    of [OptionSome], now holding [undefined]: [is_some()] answers
    [true] and [is_none()] answers [false]. *)
Theorem take_leaves_receiver_some (h : list (Option val)) (this : nat) (x : val) :
  h !! this = Some (OptionSome x) ->
  exists taken h',
    OptionRef.take this h = Some (taken, h')
    /\ taken <> this
    /\ h' !! taken = Some (OptionSome x)
    /\ h' !! this = Some (OptionSome VUndefined)
    /\ OptionRef.is_some this h' = Some true
    /\ OptionRef.is_none this h' = Some false.
Proof.
  intros Hthis. pose proof (lookup_lt_Some _ _ _ Hthis) as Hlt.
  exists (length h), (<[this := OptionSome VUndefined]> h ++ [OptionSome x]).
  assert (Hrecv : (<[this := OptionSome VUndefined]> h ++ [OptionSome x]) !! this
                  = Some (OptionSome VUndefined)).
  { rewrite lookup_app_l by (by rewrite length_insert).
    by apply list_lookup_insert_eq. }
  unfold OptionRef.take, OptionRef.is_some, OptionRef.is_none.
  rewrite Hthis, Hrecv. unfold OptionRef.take_some, OptionRef.new.
  rewrite length_insert. repeat split; try done; [lia|].
  rewrite lookup_app_r by (by rewrite length_insert).
  by rewrite length_insert, Nat.sub_diag.
Qed.

Lemma take_leaves_receiver_some_witness :
  [OptionSome (VNum 5)] !! 0 = Some (OptionSome (VNum 5))
  /\ exists taken h',
    OptionRef.take 0 [OptionSome (VNum 5)] = Some (taken, h')
    /\ taken <> 0
    /\ h' !! taken = Some (OptionSome (VNum 5))
    /\ h' !! 0 = Some (OptionSome VUndefined)
    /\ OptionRef.is_some 0 h' = Some true
    /\ OptionRef.is_none 0 h' = Some false.
Proof.
  split; [reflexivity|].
  apply (take_leaves_receiver_some [OptionSome (VNum 5)] 0 (VNum 5)).
  reflexivity.
Defined.

(** C6 (the part that holds): [take()] on a [None] returns the receiver
    itself and changes nothing. *)
Lemma take_none_noop (h : list (Option val)) (this : nat) :
  h !! this = Some OptionNone -> OptionRef.take this h = Some (this, h).
Proof. intros H. unfold OptionRef.take. by rewrite H. Qed.

(** C7: [replace(v)] on a [Some(x)] stores [v] in the receiver and
    returns a new [Some(x)]; on a [None] it returns a new [Some(v)] and
    the receiver stays [None]. No other object changes. *)
Theorem replace_swaps (h : list (Option val)) (this : nat) (o : Option val)
    (v : val) :
  h !! this = Some o ->
  exists ret h',
    OptionRef.replace this v h = Some (ret, h')
    /\ ret <> this
    /\ match o with
       | OptionSome x =>
           h' !! this = Some (OptionSome v) /\ h' !! ret = Some (OptionSome x)
       | OptionNone =>
           h' !! this = Some OptionNone /\ h' !! ret = Some (OptionSome v)
       end
    /\ forall l, l <> this -> l < length h -> h' !! l = h !! l.
Proof.
  intros Hthis. pose proof (lookup_lt_Some _ _ _ Hthis) as Hlt.
  unfold OptionRef.replace. rewrite Hthis. destruct o as [x|].
  - exists (length h), (<[this := OptionSome v]> h ++ [OptionSome x]).
    unfold OptionRef.replace_some, OptionRef.new. rewrite length_insert.
    split; [done|]. split; [lia|]. split; [split|].
    + rewrite lookup_app_l by (by rewrite length_insert).
      by apply list_lookup_insert_eq.
    + rewrite lookup_app_r by (by rewrite length_insert).
      by rewrite length_insert, Nat.sub_diag.
    + intros l Hne Hl. rewrite lookup_app_l by (by rewrite length_insert).
      by apply list_lookup_insert_ne.
  - exists (length h), (h ++ [OptionSome v]).
    unfold OptionRef.replace_none, OptionRef.new.
    split; [done|]. split; [lia|]. split; [split|].
    + by rewrite lookup_app_l.
    + rewrite lookup_app_r by lia. by rewrite Nat.sub_diag.
    + intros l Hne Hl. by rewrite lookup_app_l.
Qed.

Lemma replace_swaps_witness :
  [OptionSome (VNum 1)] !! 0 = Some (OptionSome (VNum 1))
  /\ exists ret h',
    OptionRef.replace 0 (VNum 2) [OptionSome (VNum 1)] = Some (ret, h')
    /\ ret <> 0
    /\ (h' !! 0 = Some (OptionSome (VNum 2))
        /\ h' !! ret = Some (OptionSome (VNum 1)))
    /\ forall l, l <> 0 -> l < 1 -> h' !! l = [OptionSome (VNum 1)] !! l.
Proof.
  split; [reflexivity|].
  apply (replace_swaps [OptionSome (VNum 1)] 0 (OptionSome (VNum 1)) (VNum 2)).
  reflexivity.
Defined.

(** ** Promises made and settled on the spot *)

Lemma settle_fresh_alloc s st :
  settle (fresh s) st (alloc s)
  = mkState (cells s ++ [Settled st]) (queue s) (log s).
Proof.
  rewrite (settle_pending _ _ _ []) by apply lookup_alloc_fresh.
  unfold alloc, fresh; simpl. f_equal.
  - rewrite (insert_app_r_alt _ _ (length (cells s))) by lia.
    by rewrite Nat.sub_diag.
  - by rewrite app_nil_r.
Qed.

Lemma resolve_fresh_alloc s v :
  thenable v = None ->
  resolve (fresh s) v (alloc s)
  = mkState (cells s ++ [Settled (Fulfilled v)]) (queue s) (log s).
Proof. intros Hv. unfold resolve. rewrite Hv. apply settle_fresh_alloc. Qed.

Lemma outcome_app_fresh cs q l st :
  outcome (mkState (cs ++ [Settled st]) q l) (length cs) = Some st.
Proof. unfold outcome; simpl. by rewrite list_lookup_middle. Qed.

(** [Promise.resolve(v)] of a value that is not a thenable. *)
Lemma exec_PromiseResolve_value v k s :
  thenable v = None ->
  exec (PromiseResolve v k) s
  = exec (k (fresh s))
         (mkState (cells s ++ [Settled (Fulfilled v)]) (queue s) (log s)).
Proof.
  intros Hv. simpl. rewrite resolve_fresh_alloc by done. by destruct v.
Qed.

(** ** The aggregation combinators on the empty list *)

(** C10: on the empty list [ResultAsync.all] and
    [ResultAsync.allSettled] return a wrapper whose promise is
    fulfilled with [Ok([])], and [OptionAsync.all] one whose promise is
    fulfilled with [Some([])]. *)
Theorem all_of_empty_list (s : state) :
  (exec (ResultAsync.all []) s).1 = Normal (VResultAsync (fresh s))
  /\ outcome (exec (ResultAsync.all []) s).2 (fresh s)
     = Some (Fulfilled (VResult (ResultOk (VArray []))))
  /\ (exec (ResultAsync.allSettled []) s).1 = Normal (VResultAsync (fresh s))
  /\ outcome (exec (ResultAsync.allSettled []) s).2 (fresh s)
     = Some (Fulfilled (VResult (ResultOk (VArray []))))
  /\ (exec (OptionAsync.all []) s).1 = Normal (VOptionAsync (fresh s))
  /\ outcome (exec (OptionAsync.all []) s).2 (fresh s)
     = Some (Fulfilled (VOption (OptionSome (VArray [])))).
Proof.
  unfold ResultAsync.all, ResultAsync.allSettled, OptionAsync.all; simpl.
  rewrite !resolve_fresh_alloc by done.
  repeat split; apply outcome_app_fresh.
Qed.

(** ** Awaiting *)

Lemma drain_idle fuel s : queue s = [] -> drain fuel s = s.
Proof. intros H. destruct fuel; simpl; [done|]. by rewrite H. Qed.

Lemma drain_step fuel cs j rest l :
  drain (S fuel) (mkState cs (j :: rest) l)
  = drain fuel (run_job j (mkState cs rest l)).
Proof. done. Qed.

Lemma outcome_alloc s p st : outcome s p = Some st -> outcome (alloc s) p = Some st.
Proof.
  intros H. apply status_outcome. rewrite status_alloc; [by apply status_outcome|].
  apply outcome_Some in H. by eapply lookup_lt_fresh.
Qed.

(** The state right after [probe w] when the promise behind [w] has
    settled: one microtask is waiting to hand the outcome over. *)
Lemma exec_probe_settled s w p st :
  thenable w = Some p ->
  outcome s p = Some st ->
  exec (probe w) s
  = (Normal (VPromise (fresh s)),
     mkState (cells s ++ [Pending []]) (queue s ++ [(fresh s, resume st)])
             (log s ++ [EvAwait w])).
Proof.
  intros Hw Hp. unfold probe, async, await. simpl. f_equal.
  unfold park. rewrite Hw.
  rewrite (subscribe_settled _ _ _ st); [done|].
  by apply (outcome_alloc s).
Qed.

Lemma run_resume_fresh cs l q st :
  (forall v, st = Fulfilled v -> thenable v = None) ->
  q = length cs ->
  run_job (q, resume st) (mkState (cs ++ [Pending []]) [] l)
  = mkState (cs ++ [Settled st]) [] l.
Proof.
  intros Hst ->. unfold run_job. destruct st as [v|e]; simpl.
  - apply (resolve_fresh_alloc (mkState cs [] l)). by apply Hst.
  - apply (settle_fresh_alloc (mkState cs [] l)).
Qed.

(** Awaiting something already settled hands its outcome over after one
    microtask. *)
Lemma awaited_settled fuel s w p st :
  queue s = [] ->
  thenable w = Some p ->
  outcome s p = Some st ->
  (forall v, st = Fulfilled v -> thenable v = None) ->
  awaited (S fuel) w s = Some st.
Proof.
  intros Hq Hw Hp Hst. unfold awaited.
  rewrite (exec_probe_settled s w p st) by done. rewrite Hq. simpl snd.
  rewrite drain_step, run_resume_fresh by done.
  rewrite drain_idle by done. apply outcome_app_fresh.
Qed.

(** ** The lift from the synchronous types *)

(** C8: lifting a [Result] or an [Option] with [toAsync()] and awaiting
    the wrapper gives back exactly that value. *)
Theorem toAsync_then_await (s : state) (fuel : nat) :
  queue s = [] ->
  0 < fuel ->
  (forall r : Result val val,
      exists w, (exec (ResultAsync.toAsync r) s).1 = Normal w
        /\ awaited fuel w (exec (ResultAsync.toAsync r) s).2
           = Some (Fulfilled (VResult r)))
  /\ (forall o : Option val,
      exists w, (exec (OptionAsync.toAsync o) s).1 = Normal w
        /\ awaited fuel w (exec (OptionAsync.toAsync o) s).2
           = Some (Fulfilled (VOption o))).
Proof.
  intros Hq Hfuel. destruct fuel as [|fuel]; [lia|].
  split; [intros r; exists (VResultAsync (fresh s))
         | intros o; exists (VOptionAsync (fresh s))].
  - unfold ResultAsync.toAsync, ResultAsync.fromResult.
    rewrite exec_PromiseResolve_value by done. simpl. split; [done|].
    apply (awaited_settled _ _ _ (fresh s)); try done.
    + apply outcome_app_fresh.
    + by intros v [= <-].
  - unfold OptionAsync.toAsync, OptionAsync.fromOption.
    rewrite exec_PromiseResolve_value by done. simpl. split; [done|].
    apply (awaited_settled _ _ _ (fresh s)); try done.
    + apply outcome_app_fresh.
    + by intros v [= <-].
Qed.

Lemma toAsync_then_await_witness :
  let s := mkState [] [] [] in
  queue s = [] /\ 0 < 1
  /\ exists w, (exec (ResultAsync.toAsync (Ok (VNum 5))) s).1 = Normal w
      /\ awaited 1 w (exec (ResultAsync.toAsync (Ok (VNum 5))) s).2
         = Some (Fulfilled (VResult (ResultOk (VNum 5)))).
Proof.
  intros s. split; [reflexivity|]. split; [lia|].
  apply (toAsync_then_await s 1); [reflexivity | lia].
Defined.

Lemma outcome_settle_pending s q st rs :
  cells s !! q = Some (Pending rs) -> outcome (settle q st s) q = Some st.
Proof.
  intros Hq. rewrite (settle_pending _ _ _ rs) by done.
  unfold outcome; simpl.
  rewrite list_lookup_insert_eq; [done|]. by eapply lookup_lt_Some.
Qed.

Lemma outcome_complete s q r rs o :
  cells s !! q = Some (Pending rs) ->
  settles_with r = Some o ->
  outcome (complete q r s) q = Some o.
Proof.
  intros Hq Hr. destruct r as [v|e|v k]; simpl in *.
  - unfold resolve. destruct (thenable v); [done|].
    injection Hr as <-. by eapply outcome_settle_pending.
  - injection Hr as <-. by eapply outcome_settle_pending.
  - done.
Qed.

Lemma queue_complete s q r rs o :
  cells s !! q = Some (Pending rs) ->
  settles_with r = Some o ->
  queue (complete q r s)
  = queue s ++ map (fun x : nat * (settled -> prog) => (x.1, x.2 o)) rs.
Proof.
  intros Hq Hr.
  assert (Hs : complete q r s = settle q o s).
  { destruct r as [v|e|v k]; simpl in *; [|congruence|done].
    unfold resolve. destruct (thenable v); congruence. }
  rewrite Hs, (settle_pending _ _ _ rs) by done. done.
Qed.

Arguments drain : simpl never.

Lemma exec_async_await w k kont s :
  exec (AsyncCall (Await w k) (fun q => Ret (kont q))) s
  = (Normal (kont (fresh s)), park (fresh s) w k (alloc s)).
Proof. done. Qed.

(** An [async] function that awaits [w] and then, having received how
    [w] settled, finishes without awaiting again. The promise behind
    [w] may have settled before the call or settle after it; in both
    cases the promise of the call settles the way the rest of the body
    completes. *)
Lemma async_await_once fuel s w this st k kont r o :
  queue s = [] ->
  thenable w = Some this ->
  outcome s this = Some st \/ cells s !! this = Some (Pending []) ->
  (forall s', exec (k st) s' = (r, s')) ->
  settles_with r = Some o ->
  let s1 := (exec (AsyncCall (Await w k) (fun q => Ret (kont q))) s).2 in
  let s2 := drain (S fuel) (settle this st s1) in
  outcome s2 (fresh s) = Some o /\ queue s2 = [].
Proof.
  intros Hq Hw Hthis Hk Hr. rewrite exec_async_await. cbn [snd].
  unfold park. rewrite Hw.
  destruct Hthis as [Hset|Hpend].
  - rewrite (subscribe_settled _ _ _ st) by by apply (outcome_alloc s).
    rewrite (settle_settled _ _ _ st) by by apply (outcome_alloc s).
    unfold enqueue, record, alloc; cbn [cells queue log fst snd].
    rewrite Hq, app_nil_l, drain_step.
    unfold run_job; cbn [fst snd]. rewrite Hk.
    assert (Hq' : cells
      {| cells := cells s ++ [Pending []];
         queue := []; log := log s ++ [EvAwait w] |} !! fresh s
      = Some (Pending [])) by apply lookup_alloc_fresh.
    pose proof (queue_complete _ _ _ _ _ Hq' Hr) as Hqc.
    rewrite drain_idle by exact Hqc.
    split; [by eapply outcome_complete | exact Hqc].
  - assert (Hlt : this < fresh s) by by eapply lookup_lt_fresh.
    rewrite (subscribe_pending _ _ _ []);
      [|by cbn; rewrite lookup_app_l].
    rewrite (settle_pending _ _ _ [(fresh s, k)]);
      [|by cbn; apply list_lookup_insert_eq; rewrite length_app; cbn;
           unfold fresh in *; lia].
    cbn [cells queue log alloc record map app fst snd].
    rewrite Hq, app_nil_l, drain_step.
    unfold run_job; cbn [fst snd]. rewrite Hk.
    assert (Hq' : cells
      {| cells := <[this:=Settled st]>
             (<[this:=Pending [(fresh s, k)]]> (cells s ++ [Pending []]));
         queue := []; log := log s ++ [EvAwait w] |} !! fresh s
      = Some (Pending [])).
    { cbn. rewrite !list_lookup_insert_ne by lia. apply lookup_alloc_fresh. }
    pose proof (queue_complete _ _ _ _ _ Hq' Hr) as Hqc.
    rewrite drain_idle by exact Hqc.
    split; [by eapply outcome_complete | exact Hqc].
Qed.

(** ** Terminal extraction *)

Lemma eventually_await_once fuel s this st f r o :
  queue s = [] ->
  outcome s this = Some st \/ cells s !! this = Some (Pending []) ->
  (forall s', exec (let* x := resume st in f x) s' = (r, s')) ->
  settles_with r = Some o ->
  eventually (S fuel) (async (let* x := await (VPromise this) in f x)) this st s
  = Some o.
Proof.
  intros Hq Hthis Hk Hr. unfold eventually.
  by apply (async_await_once fuel s (VPromise this) this st
              (fun st => let* x := resume st in f x) VPromise r o).
Qed.

(** C4: [expect] and [unwrap] on a [None] or an [Err] throw, [expect]
    an [Error] whose message is the caller's; on a [Some] or an [Ok]
    they return the payload. The promise returned by the wrappers'
    [expect] and [unwrap] is rejected with that same error when the
    wrapper resolves to [None] or [Err], and fulfilled with the payload
    when it resolves to [Some] or [Ok]. *)
Theorem unwrap_expect_wrong_variant (s : state) (fuel : nat) (this : nat)
    (v x e : val) (msg : string) :
  queue s = [] ->
  outcome s this = Some (Fulfilled v) \/ cells s !! this = Some (Pending []) ->
  thenable x = None ->
  (forall s0,
      exec (Option.expect OptionNone msg) s0 = (Thrown (VError msg), s0)
      /\ exec (Option.unwrap OptionNone) s0
         = (Thrown (VError "Called Option.unwrap() on a None value"), s0)
      /\ exec (Result.expect (ResultErr e) msg) s0 = (Thrown (VError msg), s0)
      /\ exec (Result.unwrap (ResultErr e)) s0
         = (Thrown (VError ("Called Result.unwrap() on an Err value: "
                            +:+ to_string e)), s0)
      /\ exec (Option.expect (OptionSome x) msg) s0 = (Normal x, s0)
      /\ exec (Option.unwrap (OptionSome x)) s0 = (Normal x, s0)
      /\ exec (Result.expect (ResultOk x) msg) s0 = (Normal x, s0)
      /\ exec (Result.unwrap (ResultOk x)) s0 = (Normal x, s0))
  /\ (v = VOption OptionNone ->
      eventually (S fuel) (OptionAsync.expect this msg) this (Fulfilled v) s
      = Some (Rejected (VError msg))
      /\ eventually (S fuel) (OptionAsync.unwrap this) this (Fulfilled v) s
         = Some (Rejected (VError "Called Option.unwrap() on a None value")))
  /\ (v = VResult (ResultErr e) ->
      eventually (S fuel) (ResultAsync.expect this msg) this (Fulfilled v) s
      = Some (Rejected (VError msg))
      /\ eventually (S fuel) (ResultAsync.unwrap this) this (Fulfilled v) s
         = Some (Rejected (VError ("Called Result.unwrap() on an Err value: "
                                   +:+ to_string e))))
  /\ (v = VOption (OptionSome x) ->
      eventually (S fuel) (OptionAsync.expect this msg) this (Fulfilled v) s
      = Some (Fulfilled x)
      /\ eventually (S fuel) (OptionAsync.unwrap this) this (Fulfilled v) s
         = Some (Fulfilled x))
  /\ (v = VResult (ResultOk x) ->
      eventually (S fuel) (ResultAsync.expect this msg) this (Fulfilled v) s
      = Some (Fulfilled x)
      /\ eventually (S fuel) (ResultAsync.unwrap this) this (Fulfilled v) s
         = Some (Fulfilled x)).
Proof.
  intros Hq Hthis Hx. split; [done|].
  repeat split; subst v;
    (eapply eventually_await_once; [done | done | intros s'; reflexivity |]);
    cbn; by rewrite ?Hx.
Qed.

Lemma unwrap_expect_wrong_variant_witness :
  let s := mkState [Settled (Fulfilled (VOption OptionNone))] [] [] in
  queue s = []
  /\ eventually 1 (OptionAsync.expect 0 "custom message") 0
       (Fulfilled (VOption OptionNone)) s
     = Some (Rejected (VError "custom message"))
  /\ eventually 1 (OptionAsync.unwrap 0) 0 (Fulfilled (VOption OptionNone)) s
     = Some (Rejected (VError "Called Option.unwrap() on a None value")).
Proof.
  intros s. split; [reflexivity|].
  apply (unwrap_expect_wrong_variant s 0 0 (VOption OptionNone) VUndefined
           VUndefined "custom message");
    [reflexivity | left; reflexivity | reflexivity | reflexivity].
Defined.

(** ** The [try] constructors *)

Lemma status_pending s q : status s q = Some None -> exists rs, cells s !! q = Some (Pending rs).
Proof.
  unfold status. destruct (cells s !! q) as [[rs|st]|]; eauto; congruence.
Qed.

Lemma status_alloc_fresh s : status (alloc s) (fresh s) = Some None.
Proof. unfold status. by rewrite lookup_alloc_fresh. Qed.

(** The promise of an [async] call is still pending when the code
    before the first [await] has run. *)
Lemma exec_alloc_pending c s r s1 :
  exec c (alloc s) = (r, s1) -> status s1 (fresh s) = Some None.
Proof.
  intros Hex. destruct (exec_status _ _ _ _ Hex) as [_ ->].
  - apply status_alloc_fresh.
  - rewrite fresh_alloc. lia.
Qed.

(** A parked activation is resumed by the first microtask after the
    awaited promise has settled. *)
Lemma park_promise_resume fuel s1 q x p st kk r o :
  queue s1 = [] ->
  status s1 q = Some None ->
  thenable x = Some p ->
  p <> q ->
  outcome s1 p = Some st \/ cells s1 !! p = Some (Pending []) ->
  (forall s', exec (kk st) s' = (r, s')) ->
  settles_with r = Some o ->
  outcome (drain (S fuel) (settle p st (park q x kk s1))) q = Some o.
Proof.
  intros Hq Hpend Hx Hne Hp Hk Hr. unfold park. rewrite Hx.
  set (s2 := record (EvAwait x) s1).
  assert (Hpend2 : status s2 q = Some None) by done.
  assert (Hq2 : queue s2 = []) by done.
  destruct Hp as [Hset|Hp].
  - rewrite (subscribe_settled _ _ _ st) by done.
    rewrite (settle_settled _ _ _ st) by done.
    unfold enqueue. rewrite Hq2, app_nil_l, drain_step.
    apply drain_outcome. unfold run_job; cbn [fst snd]. rewrite Hk.
    destruct (status_pending _ _ Hpend2) as [rs Hrs].
    by apply (outcome_complete _ _ _ rs o).
  - rewrite (subscribe_pending _ _ _ []) by done.
    rewrite (settle_pending _ _ _ [(q, kk)]);
      [|by cbn; apply list_lookup_insert_eq; eapply lookup_lt_Some].
    cbn [cells queue log map app fst snd]. rewrite Hq2, app_nil_l, drain_step.
    apply drain_outcome. unfold run_job; cbn [fst snd]. rewrite Hk.
    destruct (status_pending _ _ Hpend2) as [rs Hrs].
    eapply outcome_complete; [|done]. cbn.
    rewrite !list_lookup_insert_ne by done. exact Hrs.
Qed.

Lemma park_value_resume fuel s1 q x kk r o :
  queue s1 = [] ->
  status s1 q = Some None ->
  thenable x = None ->
  (forall s', exec (kk (Fulfilled x)) s' = (r, s')) ->
  settles_with r = Some o ->
  outcome (drain (S fuel) (park q x kk s1)) q = Some o.
Proof.
  intros Hq Hpend Hx Hk Hr. unfold park. rewrite Hx.
  unfold enqueue, record; cbn [cells queue log]. rewrite Hq, app_nil_l, drain_step.
  apply drain_outcome. unfold run_job; cbn [fst snd]. rewrite Hk.
  destruct (status_pending _ _ Hpend) as [rs Hrs].
  by eapply outcome_complete.
Qed.

(** A callback that throws at once, with a mapping function. *)
Example try_sync_throw_mapped :
  let s := mkState [] [] [] in
  let errorFn := Some (fun e => Ret (VArray [VStr "mapped"; e])) in
  outcome (exec (ResultAsync.try (Throw (VError "sync error")) errorFn) s).2 0
  = Some (Fulfilled (VResult (ResultErr
            (VArray [VStr "mapped"; VError "sync error"])))).
Proof. reflexivity. Qed.

(** A callback that returns a value, and one whose promise is fulfilled
    after the constructor has returned. *)
Example try_returns :
  let s := mkState [Pending []] [] [] in
  outcome (drain 1 (exec (ResultAsync.try (Ret (VNum 42)) None) s).2) 1
  = Some (Fulfilled (VResult (ResultOk (VNum 42))))
  /\ outcome (drain 1 (settle 0 (Fulfilled (VNum 7))
                (exec (OptionAsync.try (Ret (VPromise 0))) s).2)) 1
     = Some (Fulfilled (VOption (OptionSome (VNum 7)))).
Proof. split; reflexivity. Qed.

Section Locate.
Context {A : Type}.
Variable step : A -> settled -> A + settled.
Variable finish : A -> settled.

Lemma locate_parked_ge os : forall i acc j acc',
  locate step finish os i acc = Parked j acc' -> i <= j.
Proof.
  induction os as [|[st|] os IH]; intros i acc j acc' H; simpl in H.
  - done.
  - destruct (step acc st) as [acc1|o]; [|done]. apply IH in H. lia.
  - injection H as <- _. lia.
Qed.

(** Handles settling later do not move a loop that is over, nor one
    suspended on a handle that is still pending. *)
Lemma locate_stable os os' :
  Forall2 (fun o o' => forall st, o = Some st -> o' = Some st) os os' ->
  forall i acc,
    match locate step finish os i acc with
    | Done o n => locate step finish os' i acc = Done o n
    | Parked j acc' =>
        os' !! (j - i) = Some None -> locate step finish os' i acc = Parked j acc'
    end.
Proof.
  induction 1 as [|o o' os os' Ho _ IH]; intros i acc; simpl; [done|].
  destruct o as [st|].
  - rewrite (Ho st eq_refl).
    destruct (step acc st) as [acc1|o1]; [|done].
    specialize (IH (S i) acc1).
    destruct (locate step finish os (S i) acc1) as [j acc'|o1 n] eqn:Hloc;
      [|done].
    apply locate_parked_ge in Hloc.
    replace (j - i) with (S (j - S i)) by lia. done.
  - rewrite Nat.sub_diag. simpl. by intros [= ->].
Qed.

(** A suspended loop has got through the handles before the one it
    waits for. *)
Lemma locate_parked_prefix os : forall j a i acc,
  locate step finish os j a = Parked i acc ->
  exists pre,
    take (i - j) os = map Some pre
    /\ os !! (i - j) = Some None
    /\ forall os', locate step finish (map Some pre ++ os') j a
                   = locate step finish os' i acc.
Proof.
  induction os as [|[st|] os IH]; intros j a i acc H; simpl in H.
  - done.
  - destruct (step a st) as [a1|o] eqn:Hstep; [|done].
    pose proof (locate_parked_ge _ _ _ _ _ H) as Hge.
    destruct (IH _ _ _ _ H) as (pre & Htake & Hnone & Hloc).
    exists (st :: pre). replace (i - j) with (S (i - S j)) by lia.
    split_and!.
    + simpl. by rewrite Htake.
    + done.
    + intros os'. simpl. by rewrite Hstep.
  - injection H as <- <-. rewrite Nat.sub_diag. by exists [].
Qed.
End Locate.

Lemma map_fmap {X Y} (f : X -> Y) (l : list X) : map f l = f <$> l.
Proof. reflexivity. Qed.

Lemma complete_settles q r s o :
  settles_with r = Some o -> complete q r s = settle q o s.
Proof.
  destruct r as [v|e|v k]; simpl; [|congruence|done].
  unfold resolve. destruct (thenable v); congruence.
Qed.

Lemma unobserved_cells s s' p :
  cells s !! p = cells s' !! p -> unobserved s p -> unobserved s' p.
Proof. unfold unobserved, outcome. by intros ->. Qed.

Lemma unobserved_lt s p : unobserved s p -> p < fresh s.
Proof.
  intros [[st H%outcome_Some]|H]; by eapply lookup_lt_fresh.
Qed.

Lemma unobserved_cases s p :
  unobserved s p ->
  (exists st, outcome s p = Some st) \/ cells s !! p = Some (Pending []).
Proof. intros [[st H]|H]; eauto. Qed.

Lemma map_outcome_settled s (hs : list nat) pre :
  Forall2 (fun h st => outcome s h = Some st) hs pre ->
  map (outcome s) hs = map Some pre.
Proof. induction 1 as [|h st hs pre Hh _ IH]; simpl; congruence. Qed.

Lemma run_job_exec_eq q c c' s :
  exec c s = exec c' s -> run_job (q, c) s = run_job (q, c') s.
Proof. unfold run_job; simpl. by intros ->. Qed.

Lemma run_job_settles q c s r o :
  exec c s = (r, s) -> settles_with r = Some o ->
  run_job (q, c) s = settle q o s.
Proof.
  intros Hex Hr. unfold run_job; simpl. rewrite Hex. by apply complete_settles.
Qed.

Lemma run_job_await q v k s : run_job (q, Await v k) s = park q v k s.
Proof. done. Qed.

Lemma awaits_S wrap (hs : list nat) i h :
  hs !! i = Some h ->
  awaits wrap hs (S i) = awaits wrap hs i ++ [EvAwait (wrap h)].
Proof.
  intros Hi. unfold awaits. by rewrite (take_S_r _ _ _ Hi), map_app.
Qed.

Lemma drop_cons_lookup {X} (l : list X) i x rest :
  drop i l = x :: rest -> l !! i = Some x /\ drop (S i) l = rest.
Proof.
  intros Hd.
  assert (Hi : l !! i = Some x).
  { rewrite <- (Nat.add_0_r i), <- lookup_drop. by rewrite Hd. }
  split; [done|]. rewrite (drop_S _ _ _ Hi) in Hd. congruence.
Qed.

Section AwaitLoop.
Context {A : Type}.
Variable wrap : nat -> val.
Variable L : list val -> A -> prog.
Variable K : list val -> A -> settled -> prog.
Variable step : A -> settled -> A + settled.
Variable finish : A -> settled.

Hypothesis wrap_thenable : forall p, thenable (wrap p) = Some p.
Hypothesis L_nil : forall acc s,
  exists r, exec (L [] acc) s = (r, s) /\ settles_with r = Some (finish acc).
Hypothesis L_cons : forall h rest acc, L (h :: rest) acc = Await h (K rest acc).
Hypothesis K_step : forall rest acc st s,
  match step acc st with
  | inl acc' => exec (K rest acc st) s = exec (L rest acc') s
  | inr o =>
      exists r, exec (K rest acc st) s = (r, s) /\ settles_with r = Some o
  end.

Variable s0 : state.
Variable hs : list nat.
Variable acc0 : A.
Hypothesis handles0 : Forall (unobserved s0) hs.

Local Abbreviation t := (fresh s0).
Local Abbreviation inv := (loop_inv wrap K step finish s0 hs acc0).
Local Abbreviation loc := (locate step finish).

Lemma handle_lt h : h ∈ hs -> h < t.
Proof.
  intros Hh. rewrite Forall_forall in handles0.
  by apply unobserved_lt, handles0.
Qed.

Lemma handle_ne h : h ∈ hs -> h <> t.
Proof. intros Hh%handle_lt. lia. Qed.

(** The loop leaves its function: the promise of the call settles. *)
Lemma loop_leaves s o n :
  queue s = [] ->
  cells s !! t = Some (Pending []) ->
  Forall (unobserved s) hs ->
  loc (map (outcome s) hs) 0 acc0 = Done o n ->
  log s = log s0 ++ awaits wrap hs n ->
  inv (settle t o s).
Proof.
  intros Hq Ht Hhs Hloc Hlog.
  rewrite (settle_pending _ _ _ []) by done.
  assert (Hsame : forall h, h ∈ hs ->
    cells s !! h
    = cells (mkState (<[t:=Settled o]> (cells s)) (queue s ++ []) (log s)) !! h).
  { intros h Hh%handle_ne. cbn. by rewrite list_lookup_insert_ne. }
  unfold loop_inv. split; [by cbn; rewrite Hq|].
  replace (map (outcome _) hs) with (map (outcome s) hs).
  2:{ apply map_ext_in. intros h Hh%list_elem_of_In. unfold outcome.
      by rewrite Hsame. }
  rewrite Hloc. split_and!.
  - unfold outcome; cbn. rewrite list_lookup_insert_eq; [done|].
    by eapply lookup_lt_Some.
  - rewrite Forall_forall in Hhs |- *. intros h Hh.
    eapply unobserved_cells; [by apply Hsame | by apply Hhs].
  - done.
Qed.

(** The handles up to index [i] have settled and have brought the loop
    to state [acc]. *)
Lemma locate_prefix s i acc pre :
  Forall2 (fun h st => outcome s h = Some st) (take i hs) pre ->
  (forall os', loc (map Some pre ++ os') 0 acc0 = loc os' i acc) ->
  loc (map (outcome s) hs) 0 acc0 = loc (map (outcome s) (drop i hs)) i acc.
Proof.
  intros Hpre Hacc.
  rewrite <- (take_drop i hs) at 1. rewrite map_app.
  by rewrite (map_outcome_settled _ _ _ Hpre).
Qed.

Lemma advance_resume (rest : list nat) :
  (forall i acc pre s fuel,
      drop i hs = rest ->
      queue s = [] ->
      cells s !! t = Some (Pending []) ->
      Forall (unobserved s) hs ->
      Forall2 (fun h st => outcome s h = Some st) (take i hs) pre ->
      (forall os', loc (map Some pre ++ os') 0 acc0 = loc os' i acc) ->
      log s = log s0 ++ awaits wrap hs i ->
      length rest < fuel ->
      inv (drain fuel (run_job (t, L (map wrap rest) acc) s)))
  /\ (forall i acc pre s fuel h st,
      hs !! i = Some h ->
      drop (S i) hs = rest ->
      queue s = [] ->
      cells s !! t = Some (Pending []) ->
      Forall (unobserved s) hs ->
      outcome s h = Some st ->
      Forall2 (fun h st => outcome s h = Some st) (take i hs) pre ->
      (forall os', loc (map Some pre ++ os') 0 acc0 = loc os' i acc) ->
      log s = log s0 ++ awaits wrap hs (S i) ->
      length rest < fuel ->
      inv (drain fuel (run_job (t, K (map wrap rest) acc st) s))).
Proof.
  assert (Hres : forall rest',
    (forall i acc pre s fuel,
      drop i hs = rest' ->
      queue s = [] ->
      cells s !! t = Some (Pending []) ->
      Forall (unobserved s) hs ->
      Forall2 (fun h st => outcome s h = Some st) (take i hs) pre ->
      (forall os', loc (map Some pre ++ os') 0 acc0 = loc os' i acc) ->
      log s = log s0 ++ awaits wrap hs i ->
      length rest' < fuel ->
      inv (drain fuel (run_job (t, L (map wrap rest') acc) s))) ->
    forall i acc pre s fuel h st,
      hs !! i = Some h ->
      drop (S i) hs = rest' ->
      queue s = [] ->
      cells s !! t = Some (Pending []) ->
      Forall (unobserved s) hs ->
      outcome s h = Some st ->
      Forall2 (fun h st => outcome s h = Some st) (take i hs) pre ->
      (forall os', loc (map Some pre ++ os') 0 acc0 = loc os' i acc) ->
      log s = log s0 ++ awaits wrap hs (S i) ->
      length rest' < fuel ->
      inv (drain fuel (run_job (t, K (map wrap rest') acc st) s))).
  { intros rest' Hadv i acc pre s fuel h st Hi Hdrop Hq Ht Hhs Hh Hpre Hacc Hlog Hfuel.
    pose proof (K_step (map wrap rest') acc st s) as HK.
    destruct (step acc st) as [acc'|o] eqn:Hstep.
    - rewrite (run_job_exec_eq _ _ _ _ HK).
      apply (Hadv (S i) acc' (pre ++ [st])); try done.
      + rewrite (take_S_r _ _ _ Hi). apply Forall2_app; [done|]. by constructor.
      + intros os'. rewrite map_app, <- app_assoc, Hacc. simpl. by rewrite Hstep.
    - destruct HK as (r & Hex & Hr).
      rewrite (run_job_settles _ _ _ _ _ Hex Hr).
      assert (Hinv : inv (settle t o s)).
      { apply (loop_leaves _ _ (S i)); try done.
        rewrite (locate_prefix s i acc pre) by done.
        rewrite (drop_S _ _ _ Hi). simpl. by rewrite Hh, Hstep. }
      rewrite drain_idle; [done | apply Hinv]. }
  induction rest as [|h' rest' IH].
  - assert (Hadv : forall i acc pre s fuel,
      drop i hs = [] ->
      queue s = [] ->
      cells s !! t = Some (Pending []) ->
      Forall (unobserved s) hs ->
      Forall2 (fun h st => outcome s h = Some st) (take i hs) pre ->
      (forall os', loc (map Some pre ++ os') 0 acc0 = loc os' i acc) ->
      log s = log s0 ++ awaits wrap hs i ->
      length (@nil nat) < fuel ->
      inv (drain fuel (run_job (t, L (map wrap []) acc) s))).
    { intros i acc pre s fuel Hdrop Hq Ht Hhs Hpre Hacc Hlog _.
      destruct (L_nil acc s) as (r & Hex & Hr). simpl.
      rewrite (run_job_settles _ _ _ _ _ Hex Hr).
      assert (Hinv : inv (settle t (finish acc) s)).
      { apply (loop_leaves _ _ i); try done.
        rewrite (locate_prefix s i acc pre) by done. by rewrite Hdrop. }
      rewrite drain_idle; [done | apply Hinv]. }
    split; [exact Hadv | by apply Hres].
  - destruct IH as [_ IHres].
    assert (Hadv : forall i acc pre s fuel,
      drop i hs = h' :: rest' ->
      queue s = [] ->
      cells s !! t = Some (Pending []) ->
      Forall (unobserved s) hs ->
      Forall2 (fun h st => outcome s h = Some st) (take i hs) pre ->
      (forall os', loc (map Some pre ++ os') 0 acc0 = loc os' i acc) ->
      log s = log s0 ++ awaits wrap hs i ->
      length (h' :: rest') < fuel ->
      inv (drain fuel (run_job (t, L (map wrap (h' :: rest')) acc) s))).
    { intros i acc pre s fuel Hdrop Hq Ht Hhs Hpre Hacc Hlog Hfuel.
      destruct (drop_cons_lookup _ _ _ _ Hdrop) as [Hi Hdrop'].
      assert (Hin : h' ∈ hs) by (by eapply list_elem_of_lookup_2).
      cbn [map]. rewrite L_cons, run_job_await. unfold park.
      rewrite wrap_thenable.
      set (s1 := record (EvAwait (wrap h')) s).
      assert (Hlog1 : log s1 = log s0 ++ awaits wrap hs (S i)).
      { cbn. by rewrite Hlog, (awaits_S _ _ _ _ Hi), app_assoc. }
      rewrite Forall_forall in Hhs.
      destruct (unobserved_cases _ _ (Hhs _ Hin)) as [[st Hst]|Hpend].
      - rewrite (subscribe_settled _ _ _ st) by done.
        unfold enqueue; cbn [fst snd cells queue log s1 record].
        rewrite Hq, app_nil_l.
        destruct fuel as [|fuel]; [cbn in Hfuel; lia|]. rewrite drain_step.
        apply (IHres i acc pre _ fuel h' st); try done.
        + by apply Forall_forall.
        + cbn in Hfuel. lia.
      - rewrite (subscribe_pending _ _ _ []) by done.
        cbn [fst snd cells queue log s1 record app].
        set (s2 := mkState _ _ _).
        assert (Hcells : forall p, p <> h' -> cells s2 !! p = cells s !! p).
        { intros p Hp. cbn. by rewrite list_lookup_insert_ne. }
        assert (Hout : forall p, outcome s2 p = outcome s p).
        { intros p. unfold outcome. destruct (decide (p = h')) as [->|Hp].
          - cbn. rewrite list_lookup_insert_eq by (by eapply lookup_lt_Some).
            by rewrite Hpend.
          - by rewrite Hcells. }
        rewrite drain_idle by done.
        unfold loop_inv. split; [done|].
        rewrite (map_ext _ _ Hout), (locate_prefix s i acc pre) by done.
        rewrite Hdrop. cbn [map locate].
        replace (outcome s h') with (@None settled)
          by (unfold outcome; by rewrite Hpend).
        split_and!.
        + rewrite Hcells; [done|]. apply not_eq_sym. by apply handle_ne.
        + exists h'. split_and!; [done| |].
          * cbn. rewrite list_lookup_insert_eq by (by eapply lookup_lt_Some).
            by rewrite Hdrop'.
          * apply Forall_forall. intros p Hp.
            destruct (decide (p = h')) as [->|Hne]; [by left|right].
            eapply unobserved_cells; [symmetry; by apply Hcells | by apply Hhs].
        + done. }
    split; [exact Hadv | by apply Hres].
Qed.

Lemma exec_AsyncCall_ret body kont s :
  exec (AsyncCall body (fun q => Ret (kont q))) s
  = (Normal (kont (fresh s)), run_job (fresh s, body) (alloc s)).
Proof.
  unfold run_job; cbn. by destruct (exec body (alloc s)).
Qed.

(** The invariant holds once the loop has been started and the queue
    has been run. *)
Lemma loop_started kont fuel :
  queue s0 = [] ->
  length hs < fuel ->
  inv (drain fuel
         (exec (AsyncCall (L (map wrap hs) acc0) (fun q => Ret (kont q))) s0).2).
Proof.
  intros Hq Hfuel. rewrite exec_AsyncCall_ret. cbn [snd].
  destruct (advance_resume hs) as [Hadv _].
  apply (Hadv 0 acc0 []); try done.
  - apply lookup_alloc_fresh.
  - eapply Forall_impl; [exact handles0|]. intros h Hh.
    eapply unobserved_cells; [|exact Hh].
    symmetry. apply lookup_alloc_lt. by apply unobserved_lt.
  - unfold awaits. cbn. by rewrite app_nil_r.
Qed.

(** The invariant survives a handle settling. *)
Lemma loop_event s p st fuel :
  inv s ->
  p ∈ hs ->
  length hs < fuel ->
  inv (drain fuel (settle p st s)).
Proof.
  intros [Hq Hinv] Hp Hfuel.
  destruct (cells s !! p) as [[rs|st']|] eqn:Hcell.
  2:{ rewrite (settle_settled _ _ _ st') by by apply outcome_Some.
      rewrite drain_idle by done. by split. }
  2:{ unfold settle. rewrite Hcell. rewrite drain_idle by done. by split. }
  assert (Hmono : forall q st0, outcome s q = Some st0 ->
                    outcome (settle p st s) q = Some st0)
    by (intros; by apply settle_outcome).
  assert (Hrel : Forall2 (fun o o' => forall st0, o = Some st0 -> o' = Some st0)
                   (map (outcome s) hs) (map (outcome (settle p st s)) hs)).
  { rewrite !map_fmap. apply Forall2_fmap, Forall2_same_length_lookup.
    split; [done|].
    intros j x y Hx Hy st0; simplify_eq. apply Hmono. }
  pose proof (locate_stable step finish _ _ Hrel 0 acc0) as Hstable.
  assert (Hne : forall q, q <> p -> cells (settle p st s) !! q = cells s !! q).
  { intros q Hqp. rewrite (settle_pending _ _ _ rs) by done. cbn.
    by rewrite list_lookup_insert_ne. }
  assert (Hsettled : outcome (settle p st s) p = Some st)
    by (by eapply outcome_settle_pending).
  assert (Hunobs : forall q, unobserved s q -> unobserved (settle p st s) q).
  { intros q Hq0. destruct (decide (q = p)) as [->|Hqp].
    - left. by rewrite Hsettled.
    - eapply unobserved_cells; [symmetry; by apply Hne | done]. }
  destruct (locate step finish (map (outcome s) hs) 0 acc0)
    as [i acc|o n] eqn:Hloc.
  - destruct Hinv as (Ht & (h & Hi & Hh & Hothers) & Hlog).
    destruct (decide (p = h)) as [->|Hph].
    + rewrite Hh in Hcell. injection Hcell as <-.
      destruct (locate_parked_prefix _ _ _ _ _ _ _ Hloc)
        as (pre & Htake & _ & Hacc).
      rewrite Nat.sub_0_r in Htake.
      rewrite (settle_pending _ _ _ _ Hh). cbn [map fst snd].
      rewrite Hq, app_nil_l.
      destruct fuel as [|fuel]; [lia|]. rewrite drain_step.
      destruct (advance_resume (drop (S i) hs)) as [_ Hres].
      assert (Hlt : h < length (cells s)) by by eapply lookup_lt_Some.
      apply (Hres i acc pre _ fuel h st); try done.
      * cbn. rewrite list_lookup_insert_ne; [done|]. by apply handle_ne.
      * apply Forall_forall. intros q Hq0. rewrite Forall_forall in Hothers.
        destruct (Hothers q Hq0) as [->|Hun].
        -- left. unfold outcome; cbn. by rewrite list_lookup_insert_eq.
        -- destruct (decide (q = h)) as [->|Hqh].
           ++ left. unfold outcome; cbn. by rewrite list_lookup_insert_eq.
           ++ eapply unobserved_cells; [|exact Hun]. cbn.
              by rewrite list_lookup_insert_ne.
      * unfold outcome; cbn. by rewrite list_lookup_insert_eq.
      * rewrite firstn_map, !map_fmap in Htake.
        assert (H2 : Forall2 (fun h0 st0 => outcome s h0 = Some st0)
                       (take i hs) pre).
        { apply Forall2_same_length_lookup. split.
          - by rewrite <- (length_fmap (outcome s)), Htake, length_fmap.
          - intros j x y Hx Hy.
            assert (Hj : (outcome s <$> take i hs) !! j = Some (outcome s x))
              by (by rewrite list_lookup_fmap, Hx).
            rewrite Htake, list_lookup_fmap, Hy in Hj. by injection Hj. }
        eapply Forall2_impl; [exact H2|]. intros x y Hxy.
        unfold outcome in *; cbn.
        destruct (decide (x = h)) as [->|Hxh].
        -- by rewrite Hh in Hxy.
        -- by rewrite list_lookup_insert_ne.
      * rewrite length_drop. pose proof (lookup_lt_Some _ _ _ Hi). lia.
    + assert (Hrs : rs = []).
      { rewrite Forall_forall in Hothers.
        destruct (Hothers p Hp) as [->|[[st0 Hst0]|Hpend]]; [done| |congruence].
        apply outcome_Some in Hst0. congruence. }
      subst rs.
      assert (Hq' : queue (settle p st s) = []).
      { rewrite (settle_pending _ _ _ []) by done. cbn. by rewrite Hq. }
      rewrite drain_idle by done. split; [done|].
      rewrite Hstable.
      2:{ rewrite Nat.sub_0_r, map_fmap, list_lookup_fmap, Hi. cbn.
          unfold outcome. rewrite Hne by done. by rewrite Hh. }
      split_and!.
      * rewrite Hne; [done|]. apply not_eq_sym. by apply handle_ne.
      * exists h. split_and!; [done|by rewrite Hne|].
        eapply Forall_impl; [exact Hothers|].
        intros q [->|Hun]; [by left | right; by apply Hunobs].
      * by rewrite (settle_pending _ _ _ []).
  - destruct Hinv as (Hout & Hhs & Hlog).
    assert (Hrs : rs = []).
    { rewrite Forall_forall in Hhs.
      destruct (Hhs p Hp) as [[st0 Hst0]|Hpend]; [|congruence].
      apply outcome_Some in Hst0. congruence. }
    subst rs.
    assert (Hq' : queue (settle p st s) = []).
    { rewrite (settle_pending _ _ _ []) by done. cbn. by rewrite Hq. }
    rewrite drain_idle by done. split; [done|].
    rewrite Hstable. split_and!.
    + by apply Hmono.
    + eapply Forall_impl; [exact Hhs|]. apply Hunobs.
    + by rewrite (settle_pending _ _ _ []).
Qed.

(** So it holds after any sequence of handles settling, in whatever
    order and whether or not the loop has got to them. *)
Lemma loop_settle_all kont fuel events :
  queue s0 = [] ->
  length hs < fuel ->
  Forall (fun ev : nat * settled => ev.1 ∈ hs) events ->
  inv (settle_all fuel events
         (drain fuel
            (exec (AsyncCall (L (map wrap hs) acc0) (fun q => Ret (kont q)))
               s0).2)).
Proof.
  intros Hq Hfuel Hev.
  pose proof (loop_started kont fuel Hq Hfuel) as Hinv.
  revert Hinv. generalize (drain fuel
    (exec (AsyncCall (L (map wrap hs) acc0) (fun q => Ret (kont q))) s0).2).
  induction Hev as [|[p st] events Hp _ IH]; intros s Hinv; [done|].
  cbn. apply IH. by apply loop_event.
Qed.

End AwaitLoop.

(** ** Activations that only compute *)

Lemma drain_add n : forall m s, drain (n + m) s = drain m (drain n s).
Proof.
  induction n as [|n IH]; intros m s; [done|].
  destruct s as [cs [|j rest] l].
  - cbn [Nat.add]. rewrite !drain_idle; done.
  - cbn [Nat.add]. rewrite !drain_step. apply IH.
Qed.

Lemma drain_enough n fuel s :
  queue (drain n s) = [] -> n <= fuel -> drain fuel s = drain n s.
Proof.
  intros Hq Hle. replace fuel with (n + (fuel - n)) by lia.
  rewrite drain_add. by apply drain_idle.
Qed.

Lemma computes_emits c r : computes c r -> emits c [] r.
Proof. intros Hc [cs jobs l]. rewrite Hc. cbn. by rewrite app_nil_r. Qed.

Lemma computes_resume st :
  computes (resume st)
    match st with Fulfilled v => Normal v | Rejected e => Thrown e end.
Proof. by destruct st. Qed.

Lemma insert_fresh {X} (cs : list X) x y :
  <[length cs := x]> (cs ++ [y]) = cs ++ [x].
Proof.
  rewrite insert_app_r_alt by lia. by rewrite Nat.sub_diag.
Qed.

(** A promise does not settle with a thenable. *)
Lemma settles_to_plain known c o n l :
  settles_to known c o n l -> forall v, o = Fulfilled v -> thenable v = None.
Proof.
  induction 1 as [c evs r o Hc Ho|c evs x p o Hc Hx Hp Hv| |]; try done.
  intros v ->. destruct r as [v'|e|]; try done. cbn in Ho.
  destruct (thenable v') eqn:E; congruence.
Qed.

(** How [resume] hands a settled outcome on. *)
Lemma resume_settles_with o :
  (forall v, o = Fulfilled v -> thenable v = None) ->
  settles_with
    match o with Fulfilled v => Normal v | Rejected e => Thrown e end
  = Some o.
Proof. intros Hv. destruct o as [v|e]; cbn; [|done]. by rewrite (Hv v). Qed.

(** The job of an activation that only computes, and the jobs that
    follow from it until the promise of the activation settles. *)
Lemma job_settles known c o n l :
  settles_to known c o n l ->
  forall s q rs,
    queue s = [] ->
    holds known s ->
    cells s !! q = Some (Pending rs) ->
    drain n (run_job (q, c) s)
    = mkState (<[q := Settled o]> (cells s))
              (map (fun r : reaction => (r.1, r.2 o)) rs) (log s ++ l).
Proof.
  induction 1 as [c evs r o Hc Ho|c evs x p o Hc Hx Hp Hv
                 |c evs x k o n l Hc Hx _ IH
                 |c evs x p st k o n l Hc Hx Hp _ IH];
    intros s q rs Hq Hk Hcell.
  - cbn [drain]. unfold run_job. cbn [fst snd]. rewrite Hc.
    rewrite (complete_settles _ _ _ _ Ho), (settle_pending _ _ _ rs) by done.
    cbn [cells queue log]. by rewrite Hq.
  - unfold run_job. cbn [fst snd]. rewrite Hc. cbn [complete].
    unfold resolve. rewrite Hx.
    rewrite (subscribe_settled _ _ _ o) by (by apply Hk in Hp).
    unfold enqueue. cbn [cells queue log fst snd]. rewrite Hq. cbn [app].
    rewrite drain_step. cbn [drain].
    rewrite (run_job_settles q (resume o) _ _ o (computes_resume o _)
               (resume_settles_with o Hv)).
    by rewrite (settle_pending _ _ _ rs).
  - unfold run_job. cbn [fst snd]. rewrite Hc. cbn [complete].
    unfold park. rewrite Hx. unfold enqueue, record. cbn [cells queue log].
    rewrite Hq. cbn [app]. rewrite drain_step.
    rewrite (IH _ q rs); try done. cbn [cells log].
    by rewrite <- !app_assoc.
  - unfold run_job. cbn [fst snd]. rewrite Hc. cbn [complete].
    unfold park. rewrite Hx.
    rewrite (subscribe_settled _ _ _ st) by (by apply Hk in Hp).
    unfold enqueue, record. cbn [cells queue log fst snd].
    rewrite Hq. cbn [app]. rewrite drain_step.
    rewrite (IH _ q rs); try done. cbn [cells log].
    by rewrite <- !app_assoc.
Qed.

(** The activation of [q] is in the queue and one reaction waits for
    its promise. *)
Lemma reaction_job known c o n l cs t q kk r o' lg :
  settles_to known c o n l ->
  holds known (mkState cs [] lg) ->
  cs !! q = Some (Pending [(t, kk)]) ->
  cs !! t = Some (Pending []) ->
  computes (kk o) r ->
  settles_with r = Some o' ->
  drain (S (S n)) (mkState cs [(q, c)] lg)
  = mkState (<[t := Settled o']> (<[q := Settled o]> cs)) [] (lg ++ l).
Proof.
  intros Hc Hk Hq Ht Hkk Hr.
  assert (t <> q) as Hne by (intros ->; congruence).
  rewrite drain_step. replace (S n) with (n + 1) by lia.
  rewrite drain_add, (job_settles known c o n l Hc _ q [(t, kk)]); try done.
  cbn [map fst snd cells log]. rewrite drain_step. cbn [drain].
  rewrite (run_job_settles t (kk o) _ r o'); try done.
  rewrite (settle_pending _ _ _ []); [done|]. cbn [cells].
  by rewrite list_lookup_insert_ne.
Qed.

(** A call of an [async] function whose body only computes, and one
    reaction attached to the promise of the call once the call has
    returned; [evs] is what has been logged in between. *)
Lemma async_call_observed known body o n l s t kk r o' evs :
  settles_to known body o n l ->
  queue s = [] ->
  holds known s ->
  cells s !! t = Some (Pending []) ->
  computes (kk o) r ->
  settles_with r = Some o' ->
  let s1 := (exec (async body) s).2 in
  (exec (async body) s).1 = Normal (VPromise (fresh s))
  /\ exists lg,
       drain (S n)
         (subscribe (fresh s) (t, kk)
            (mkState (cells s1) (queue s1) (log s1 ++ evs)))
       = mkState (<[t := Settled o']> (cells s ++ [Settled o])) [] lg
       /\ (evs = [] -> lg = log s ++ l).
Proof.
  intros Hc Hq Hk Ht Hkk Hr.
  pose proof (lookup_lt_Some _ _ _ Ht) as Hlt.
  set (cs1 := <[fresh s := Pending [(t, kk)]]> (cells s ++ [Pending []])).
  assert (Hka : forall lg, holds known (mkState cs1 [] lg)).
  { intros lg p st Hp. apply Hk in Hp. apply outcome_Some in Hp.
    apply outcome_Some. cbn [cells]. subst cs1.
    pose proof (lookup_lt_Some _ _ _ Hp).
    rewrite list_lookup_insert_ne by (unfold fresh; lia).
    by rewrite lookup_app_l. }
  assert (Hfin : <[t := Settled o']> (<[fresh s := Settled o]> cs1)
          = <[t := Settled o']> (cells s ++ [Settled o])).
  { subst cs1. rewrite list_insert_insert_eq. unfold fresh.
    by rewrite insert_fresh. }
  assert (Hqc : cs1 !! fresh s = Some (Pending [(t, kk)])).
  { apply list_lookup_insert_eq. rewrite length_app. cbn. unfold fresh. lia. }
  assert (Htc : cs1 !! t = Some (Pending [])).
  { subst cs1. rewrite list_lookup_insert_ne by (unfold fresh; lia).
    by rewrite lookup_app_l. }
  cbn zeta. unfold async. cbn [exec].
  inversion Hc as [c evs0 r0 o0 Hcomp Ho|c evs0 x p o0 Hcomp Hx Hp Hv
                  |c evs0 x k o0 n' l' Hcomp Hx Hrest
                  |c evs0 x p st k o0 n' l' Hcomp Hx Hp Hrest]; subst.
  - split; [by rewrite Hcomp|]. exists ((log s ++ l) ++ evs).
    split; [|intros ->; by rewrite app_nil_r].
    rewrite Hcomp. cbn [exec fst snd].
    rewrite (complete_settles _ _ _ _ Ho).
    rewrite (settle_pending _ _ _ []) by apply (lookup_alloc_fresh s).
    unfold alloc. cbn [cells queue log].
    change (fresh s) with (length (cells s)). rewrite insert_fresh.
    change (length (cells s)) with (fresh s).
    rewrite (subscribe_settled _ _ _ o); [|apply outcome_app_fresh].
    unfold enqueue. cbn [cells queue log fst snd]. rewrite Hq.
    cbn [app map]. rewrite drain_step. cbn [drain].
    rewrite (run_job_settles t (kk o) _ r o'); try done.
    rewrite (settle_pending _ _ _ []); [done|].
    cbn [cells]. by rewrite lookup_app_l.
  - split; [by rewrite Hcomp|]. exists (((log s ++ l) ++ evs) ++ []).
    split; [|intros ->; by rewrite !app_nil_r].
    rewrite Hcomp. cbn [exec complete fst snd].
    unfold resolve. rewrite Hx.
    rewrite (subscribe_settled _ p (fresh s, resume) o);
      [|by apply outcome_alloc, Hk].
    unfold enqueue, alloc. cbn [cells queue log fst snd].
    rewrite (subscribe_pending _ _ _ []).
    2:{ cbn [cells]. apply (lookup_alloc_fresh s). }
    cbn [cells queue log app]. rewrite Hq. cbn [app]. fold cs1.
    rewrite (reaction_job known (resume o) o 0 [] cs1 t (fresh s) kk r o');
      try done.
    + by rewrite Hfin.
    + apply (settles_now _ _ []
        match o with Fulfilled v => Normal v | Rejected e => Thrown e end).
      * apply computes_emits, computes_resume.
      * by apply resume_settles_with.
  - split; [by rewrite Hcomp|].
    exists ((((log s ++ evs0) ++ [EvAwait x]) ++ evs) ++ l').
    split; [|intros ->; by rewrite app_nil_r, <- !app_assoc].
    rewrite Hcomp. cbn [exec complete fst snd].
    unfold park. rewrite Hx.
    unfold enqueue, record, alloc. cbn [cells queue log fst snd].
    rewrite (subscribe_pending _ _ _ []).
    2:{ cbn [cells]. apply (lookup_alloc_fresh s). }
    cbn [cells queue log app]. rewrite Hq. cbn [app]. fold cs1.
    rewrite (reaction_job known _ o n' l' cs1 t (fresh s) kk r o'); try done.
    by rewrite Hfin.
  - split; [by rewrite Hcomp|].
    exists ((((log s ++ evs0) ++ [EvAwait x]) ++ evs) ++ l').
    split; [|intros ->; by rewrite app_nil_r, <- !app_assoc].
    rewrite Hcomp. cbn [exec complete fst snd].
    unfold park. rewrite Hx.
    rewrite (subscribe_settled _ p (fresh s, k) st);
      [|by apply outcome_alloc, Hk].
    unfold enqueue, record, alloc. cbn [cells queue log fst snd].
    rewrite (subscribe_pending _ _ _ []).
    2:{ cbn [cells]. apply (lookup_alloc_fresh s). }
    cbn [cells queue log app]. rewrite Hq. cbn [app]. fold cs1.
    rewrite (reaction_job known _ o n' l' cs1 t (fresh s) kk r o'); try done.
    by rewrite Hfin.
Qed.

(** Such a call when the body awaits first a promise [p0] that is
    pending; [p0] settles once the reaction has been attached. *)
Lemma async_call_parked known body evs0 w k p0 st0 o n l s t kk r o' evs
    fuel :
  emits body evs0 (Suspend w k) ->
  thenable w = Some p0 ->
  queue s = [] ->
  cells s !! p0 = Some (Pending []) ->
  cells s !! t = Some (Pending []) ->
  t <> p0 ->
  settles_to known (k st0) o n l ->
  (forall p st, known p = Some st -> outcome (settle p0 st0 s) p = Some st) ->
  computes (kk o) r ->
  settles_with r = Some o' ->
  S n < fuel ->
  let s1 := (exec (async body) s).2 in
  (exec (async body) s).1 = Normal (VPromise (fresh s))
  /\ outcome
       (drain fuel
          (settle p0 st0
             (subscribe (fresh s) (t, kk)
                (mkState (cells s1) (queue s1) (log s1 ++ evs)))))
       t = Some o'.
Proof.
  intros Hcomp Hw Hq Hp0 Ht Hne Hrest Hknown Hkk Hr Hfuel.
  pose proof (lookup_lt_Some _ _ _ Ht) as Hlt.
  pose proof (lookup_lt_Some _ _ _ Hp0) as Hlt0.
  cbn zeta. unfold async. cbn [exec]. rewrite Hcomp.
  cbn [exec complete fst snd]. split; [done|].
  unfold park. rewrite Hw.
  rewrite (subscribe_pending _ p0 _ []).
  2:{ cbn [cells record alloc]. by rewrite lookup_app_l. }
  cbn [cells queue log record alloc].
  set (cs0 := <[p0 := Pending [(fresh s, k)]]> (cells s ++ [Pending []])).
  rewrite (subscribe_pending _ (fresh s) _ []).
  2:{ cbn [cells]. subst cs0.
      rewrite list_lookup_insert_ne by (unfold fresh; lia).
      apply (lookup_alloc_fresh s). }
  cbn [cells queue log app].
  set (cs1 := <[fresh s := Pending [(t, kk)]]> cs0).
  assert (Hlen : length cs1 = S (length (cells s))).
  { subst cs1 cs0. rewrite !length_insert, length_app. cbn. lia. }
  rewrite (settle_pending _ p0 st0 [(fresh s, k)]).
  2:{ cbn [cells]. subst cs1 cs0.
      rewrite list_lookup_insert_ne by (unfold fresh; lia).
      apply list_lookup_insert_eq. rewrite length_app. cbn. lia. }
  cbn [cells queue log map fst snd]. rewrite Hq. cbn [app].
  set (cs := <[p0 := Settled st0]> cs1).
  set (lg := ((log s ++ evs0) ++ [EvAwait w]) ++ evs).
  assert (Hhold : holds known (mkState cs [] lg)).
  { intros p st Hp. apply Hknown in Hp. unfold outcome in *.
    rewrite (settle_pending _ _ _ _ Hp0) in Hp. cbn [cells] in *.
    subst cs cs1 cs0.
    destruct (decide (p = p0)) as [->|Hpne].
    - rewrite list_lookup_insert_eq in Hp by done.
      rewrite list_lookup_insert_eq by lia. done.
    - rewrite list_lookup_insert_ne in Hp by done.
      assert (p < length (cells s)).
      { destruct (cells s !! p) eqn:E; [by eapply lookup_lt_Some|done]. }
      rewrite !list_lookup_insert_ne by (unfold fresh; lia).
      by rewrite lookup_app_l. }
  assert (Hcq : cs !! fresh s = Some (Pending [(t, kk)])).
  { subst cs. rewrite list_lookup_insert_ne by (unfold fresh; lia).
    subst cs1. apply list_lookup_insert_eq. subst cs0.
    rewrite length_insert, length_app. cbn. unfold fresh. lia. }
  assert (Hct : cs !! t = Some (Pending [])).
  { subst cs cs1 cs0. rewrite !list_lookup_insert_ne by (unfold fresh; lia).
    by rewrite lookup_app_l. }
  pose proof (reaction_job known (k st0) o n l cs t (fresh s) kk r o' lg
                Hrest Hhold Hcq Hct Hkk Hr) as Hrun.
  change (outcome (drain fuel (mkState cs [(fresh s, k st0)] lg)) t = Some o').
  rewrite (drain_enough (S (S n))); [|by rewrite Hrun|lia].
  rewrite Hrun. unfold outcome. cbn [cells].
  rewrite list_lookup_insert_eq; [done|].
  subst cs. rewrite !length_insert. lia.
Qed.

(** ** What the [try] constructors catch *)

(** What the handler of [ResultAsync.try] makes of a caught value. *)
Lemma map_error_computes errorFn ef e :
  maps_errors errorFn ef ->
  computes (map_error errorFn e) (Normal (ef e)).
Proof.
  intros Hef s. destruct errorFn as [f|]; cbn in *; [apply Hef|].
  by rewrite Hef.
Qed.

(** C5: whatever the callback does -- throw at once; return a value;
    return a promise that is fulfilled or one that is rejected, then or
    later; or, an [async] function, throw or return after it has
    awaited -- [ResultAsync.try] returns a wrapper, which resolves to
    [Ok] of the value or to [Err] of the caught value, as the caller's
    mapping function maps it when there is one; and [OptionAsync.try]
    returns a wrapper, which resolves to [Some] of the value or to
    [None]. *)
Theorem try_catches (s : state) (fuel : nat) (fn : prog)
    (errorFn : option (val -> prog)) (ef : val -> val) (b : callback_outcome) :
  behaves fn s b ->
  maps_errors errorFn ef ->
  turns b < fuel ->
  (exec (ResultAsync.try fn errorFn) s).1 = Normal (VResultAsync (fresh s))
  /\ outcome (drain fuel (afterwards b (exec (ResultAsync.try fn errorFn) s).2))
       (fresh s)
     = Some (Fulfilled (VResult (try_result ef b)))
  /\ (exec (OptionAsync.try fn) s).1 = Normal (VOptionAsync (fresh s))
  /\ outcome (drain fuel (afterwards b (exec (OptionAsync.try fn) s).2))
       (fresh s)
     = Some (Fulfilled (VOption (try_option b))).
Proof.
  intros Hb Hef Hfuel. destruct fuel as [|fuel]; [lia|].
  unfold ResultAsync.try, OptionAsync.try. cbn [exec].
  rewrite !exec_try_catch, !exec_bind.
  destruct b as [e|x|p st|body st n|p0 st0 body st n];
    cbn [behaves afterwards turns] in *.
  - destruct Hb as [s1 Hfn]. rewrite Hfn.
    rewrite exec_bind, (map_error_computes _ _ _ Hef). cbn.
    pose proof (exec_alloc_pending _ _ _ _ Hfn) as Hpend.
    destruct (status_pending _ _ Hpend) as [rs Hrs].
    split_and!; try done; apply drain_outcome;
      apply (outcome_settle_pending _ _ _ rs Hrs).
  - destruct Hb as (Hx & s1 & Hfn & Hq). rewrite Hfn. cbn.
    pose proof (exec_alloc_pending _ _ _ _ Hfn) as Hpend.
    split_and!; try done; by eapply park_value_resume.
  - destruct Hb as (x & s1 & Hfn & Hx & Hne & Hq & Hp). rewrite Hfn. cbn.
    pose proof (exec_alloc_pending _ _ _ _ Hfn) as Hpend.
    destruct st as [v|e]; split_and!; try done;
      (eapply park_promise_resume; try eassumption;
       [intros s'; rewrite exec_try_catch; cbn;
        rewrite ?exec_bind, ?(map_error_computes _ _ _ Hef); reflexivity
       | reflexivity]).
  - destruct Hb as (-> & Hq & l & Hbody).
    assert (Hk : holds (outcome s) (alloc s)).
    { intros p st' Hp. by apply outcome_alloc. }
    assert (Hfin : forall (kk : settled -> prog) r o' evs,
      computes (kk st) r -> settles_with r = Some o' ->
      (exec (async body) (alloc s)).1 = Normal (VPromise (fresh (alloc s)))
      /\ outcome
           (drain (S fuel)
              (subscribe (fresh (alloc s)) (fresh s, kk)
                 (mkState (cells (exec (async body) (alloc s)).2)
                    (queue (exec (async body) (alloc s)).2)
                    (log (exec (async body) (alloc s)).2 ++ evs))))
           (fresh s) = Some o').
    { intros kk r o' evs Hkk Hr.
      destruct (async_call_observed (outcome s) body st n l (alloc s)
                  (fresh s) kk r o' evs) as [Hret [lg [Hrun _]]]; try done.
      { apply lookup_alloc_fresh. }
      split; [done|].
      rewrite (drain_enough (S n)); [|by rewrite Hrun|lia].
      rewrite Hrun. unfold outcome. cbn [cells].
      rewrite list_lookup_insert_eq; [done|].
      rewrite length_app. cbn. unfold fresh. rewrite length_app. cbn. lia. }
    destruct (exec (async body) (alloc s)) as [r1 s1] eqn:Hcall.
    cbn [fst snd] in Hfin.
    assert (Hr1 : r1 = Normal (VPromise (fresh (alloc s)))).
    { by destruct (Hfin resume
                     match st with Fulfilled v => Normal v | Rejected e => Thrown e end st [])
        as [Hret _];
        [apply computes_resume
        |apply resume_settles_with, (settles_to_plain _ _ _ _ _ Hbody)|]. }
    subst r1. cbn [exec complete fst snd park thenable].
    unfold park, record. cbn [thenable cells queue log].
    destruct st as [v|e]; cbn [try_result try_option].
    + split_and!; try done.
      * apply (fun H => proj2 (Hfin _ (Normal (VResult (ResultOk v))) _ _
                                 H eq_refl)).
        intros s'. by rewrite exec_try_catch.
      * apply (fun H => proj2 (Hfin _ (Normal (VOption (OptionSome v))) _ _
                                 H eq_refl)).
        intros s'. by rewrite exec_try_catch.
    + split_and!; try done.
      * apply (fun H => proj2 (Hfin _ (Normal (VResult (ResultErr (ef e)))) _ _
                                 H eq_refl)).
        intros s'. rewrite exec_try_catch. cbn.
        by rewrite exec_bind, (map_error_computes _ _ _ Hef).
      * apply (fun H => proj2 (Hfin _ (Normal (VOption OptionNone)) _ _
                                 H eq_refl)).
        intros s'. by rewrite exec_try_catch.
  - destruct Hb as (-> & Hq & Hp0 & evs0 & w & k & l & Hcomp & Hw & Hrest).
    pose proof (lookup_lt_Some _ _ _ Hp0) as Hlt0.
    assert (Hfin : forall (kk : settled -> prog) r o' evs,
      computes (kk st) r -> settles_with r = Some o' ->
      (exec (async body) (alloc s)).1 = Normal (VPromise (fresh (alloc s)))
      /\ outcome
           (drain (S fuel)
              (settle p0 st0
                 (subscribe (fresh (alloc s)) (fresh s, kk)
                    (mkState (cells (exec (async body) (alloc s)).2)
                       (queue (exec (async body) (alloc s)).2)
                       (log (exec (async body) (alloc s)).2 ++ evs)))))
           (fresh s) = Some o').
    { intros kk r o' evs Hkk Hr.
      apply (async_call_parked (outcome (settle p0 st0 s)) body evs0 w k p0
               st0 st
               n l (alloc s) (fresh s) kk r o' evs (S fuel)); try done.
      - cbn [alloc cells]. by rewrite lookup_app_l.
      - apply lookup_alloc_fresh.
      - unfold fresh. lia.
      - intros p st' Hp. unfold outcome in *.
        rewrite (settle_pending _ _ _ _ Hp0) in Hp.
        rewrite (settle_pending _ _ _ []).
        2:{ cbn [alloc cells]. by rewrite lookup_app_l. }
        cbn [cells alloc] in *.
        assert (p < length (cells s)).
        { destruct (<[p0:=Settled st0]> (cells s) !! p) eqn:E; [|done].
          apply lookup_lt_Some in E. by rewrite length_insert in E. }
        rewrite insert_app_l by done. by rewrite lookup_app_l
          by (by rewrite length_insert). }
    destruct (exec (async body) (alloc s)) as [r1 s1] eqn:Hcall.
    cbn [fst snd] in Hfin.
    assert (Hr1 : r1 = Normal (VPromise (fresh (alloc s)))).
    { by destruct (Hfin resume
                     match st with Fulfilled v => Normal v | Rejected e => Thrown e end st [])
        as [Hret _];
        [apply computes_resume
        |apply resume_settles_with, (settles_to_plain _ _ _ _ _ Hrest)|]. }
    subst r1. cbn [exec complete fst snd park thenable].
    unfold park, record. cbn [thenable cells queue log].
    destruct st as [v|e]; cbn [try_result try_option].
    + split_and!; try done.
      * apply (fun H => proj2 (Hfin _ (Normal (VResult (ResultOk v))) _ _
                                 H eq_refl)).
        intros s'. by rewrite exec_try_catch.
      * apply (fun H => proj2 (Hfin _ (Normal (VOption (OptionSome v))) _ _
                                 H eq_refl)).
        intros s'. by rewrite exec_try_catch.
    + split_and!; try done.
      * apply (fun H => proj2 (Hfin _ (Normal (VResult (ResultErr (ef e)))) _ _
                                 H eq_refl)).
        intros s'. rewrite exec_try_catch. cbn.
        by rewrite exec_bind, (map_error_computes _ _ _ Hef).
      * apply (fun H => proj2 (Hfin _ (Normal (VOption OptionNone)) _ _
                                 H eq_refl)).
        intros s'. by rewrite exec_try_catch.
Qed.

Lemma try_catches_witness :
  let s := mkState [] [] [] in
  let body := do flag "called" VNull in
              let* _ := await (VNum 1) in Throw (VError "async error") in
  let fn := async body in
  let errorFn := Some (fun e => Ret (VArray [VStr "mapped"; e])) in
  let ef := fun e => VArray [VStr "mapped"; e] in
  let b := RunsAsync body (Rejected (VError "async error")) 1 in
  behaves fn s b /\ maps_errors errorFn ef /\ turns b < 2
  /\ (exec (ResultAsync.try fn errorFn) s).1 = Normal (VResultAsync 0)
  /\ outcome (drain 2 (afterwards b (exec (ResultAsync.try fn errorFn) s).2)) 0
     = Some (Fulfilled (VResult (ResultErr
               (VArray [VStr "mapped"; VError "async error"]))))
  /\ (exec (OptionAsync.try fn) s).1 = Normal (VOptionAsync 0)
  /\ outcome (drain 2 (afterwards b (exec (OptionAsync.try fn) s).2)) 0
     = Some (Fulfilled (VOption OptionNone)).
Proof.
  intros s body fn errorFn ef b.
  assert (Hb : behaves fn s b).
  { split; [reflexivity|]. split; [reflexivity|].
    exists ([EvEmit "called" VNull] ++ EvAwait (VNum 1) :: []).
    apply (settles_await_value _ body [EvEmit "called" VNull] (VNum 1)
             (fun st => let* _ := resume st in Throw (VError "async error")));
      [intros s0; reflexivity | reflexivity |].
    apply (settles_now _ _ [] (Thrown (VError "async error")));
      [apply computes_emits; intros s0; reflexivity | reflexivity]. }
  assert (Hef : maps_errors errorFn ef) by (intros e s0; reflexivity).
  assert (Hfuel : turns b < 2) by (cbn; lia).
  split; [exact Hb|]. split; [exact Hef|]. split; [exact Hfuel|].
  exact (try_catches s 2 fn errorFn ef b Hb Hef Hfuel).
Defined.

(** ** The three aggregation loops *)

Lemma all_loop_inv s0 hs fuel events :
  queue s0 = [] ->
  Forall (unobserved s0) hs ->
  Forall (fun ev : nat * settled => ev.1 ∈ hs) events ->
  length hs < fuel ->
  loop_inv VResultAsync all_resume all_step all_finish s0 hs []
    (later fuel events (ResultAsync.all (map VResultAsync hs)) s0).
Proof.
  intros Hq Hhs Hev Hfuel.
  apply (loop_settle_all VResultAsync ResultAsync.all_loop all_resume
           all_step all_finish); try done.
  - intros acc s. by eexists.
  - intros rest acc st s1. destruct st as [v|e]; [destruct v|]; cbn;
      try by eexists.
    destruct r; cbn; [done | by eexists].
Qed.

Lemma option_all_loop_inv s0 hs fuel events :
  queue s0 = [] ->
  Forall (unobserved s0) hs ->
  Forall (fun ev : nat * settled => ev.1 ∈ hs) events ->
  length hs < fuel ->
  loop_inv VOptionAsync option_all_resume option_all_step option_all_finish
    s0 hs []
    (later fuel events (OptionAsync.all (map VOptionAsync hs)) s0).
Proof.
  intros Hq Hhs Hev Hfuel.
  apply (loop_settle_all VOptionAsync OptionAsync.all_loop option_all_resume
           option_all_step option_all_finish); try done.
  - intros acc s. by eexists.
  - intros rest acc st s1. destruct st as [v|e]; [destruct v|]; cbn;
      try by eexists.
    destruct o; cbn; [done | by eexists].
Qed.

Lemma allSettled_loop_inv s0 hs fuel events :
  queue s0 = [] ->
  Forall (unobserved s0) hs ->
  Forall (fun ev : nat * settled => ev.1 ∈ hs) events ->
  length hs < fuel ->
  loop_inv VResultAsync allSettled_resume allSettled_step allSettled_finish
    s0 hs ([], [])
    (later fuel events (ResultAsync.allSettled (map VResultAsync hs)) s0).
Proof.
  intros Hq Hhs Hev Hfuel.
  apply (loop_settle_all VResultAsync
           (fun rs acc => ResultAsync.allSettled_loop rs acc.1 acc.2)
           allSettled_resume allSettled_step allSettled_finish); try done.
  - intros [values errors] s. unfold allSettled_finish; cbn.
    destruct (bool_decide (0 < length errors)); by eexists.
  - intros rest acc st s1. destruct st as [v|e]; [destruct v|]; cbn;
      try by eexists.
    destruct r; cbn; done.
Qed.

(** Getting through handles that have all succeeded. *)
Lemma locate_successes (step : list val -> settled -> list val + settled)
    (finish : list val -> settled) (okv : val -> settled) :
  (forall acc v, step acc (okv v) = inl (acc ++ [v])) ->
  forall values i acc rest,
    locate step finish (map (fun v => Some (okv v)) values ++ rest) i acc
    = locate step finish rest (i + length values) (acc ++ values).
Proof.
  intros Hok values.
  induction values as [|v values IH]; intros i acc rest; cbn.
  - by rewrite Nat.add_0_r, app_nil_r.
  - rewrite Hok, IH. f_equal; [lia|]. by rewrite <- app_assoc.
Qed.

Lemma map_outcome_successes s (okv : val -> settled) (hs : list nat) values :
  Forall2 (fun h v => outcome s h = Some (okv v)) hs values ->
  map (outcome s) hs = map (fun v => Some (okv v)) values.
Proof. induction 1 as [|h v hs values Hh _ IH]; cbn; congruence. Qed.

(** The position of a loop of [all] at its first failure, and when
    there is none. *)
Lemma locate_first_failure (step : list val -> settled -> list val + settled)
    (finish : list val -> settled) (okv : val -> settled) s (hs : list nat)
    i h values st o :
  (forall acc v, step acc (okv v) = inl (acc ++ [v])) ->
  (forall acc, step acc st = inr o) ->
  hs !! i = Some h ->
  Forall2 (fun h v => outcome s h = Some (okv v)) (take i hs) values ->
  outcome s h = Some st ->
  locate step finish (map (outcome s) hs) 0 [] = Done o (S i).
Proof.
  intros Hok Hfail Hi Hpre Hh.
  assert (Hlen : length values = i).
  { apply Forall2_length in Hpre. rewrite length_take in Hpre.
    pose proof (lookup_lt_Some _ _ _ Hi). lia. }
  rewrite <- (take_drop i hs), map_app, (drop_S _ _ _ Hi).
  rewrite (map_outcome_successes _ okv _ _ Hpre).
  rewrite (locate_successes step finish okv Hok). cbn.
  by rewrite Hh, Hfail, Hlen.
Qed.

Lemma locate_no_failure (step : list val -> settled -> list val + settled)
    (finish : list val -> settled) (okv : val -> settled) s (hs : list nat)
    values :
  (forall acc v, step acc (okv v) = inl (acc ++ [v])) ->
  Forall2 (fun h v => outcome s h = Some (okv v)) hs values ->
  locate step finish (map (outcome s) hs) 0 [] = Done (finish values) (length hs).
Proof.
  intros Hok Hall.
  rewrite (map_outcome_successes _ okv _ _ Hall).
  rewrite <- (app_nil_r (map _ values)).
  rewrite (locate_successes step finish okv Hok). cbn.
  by rewrite (Forall2_length _ _ _ Hall).
Qed.

(** C1: [all] awaits its handles one after the other in the order of
    the list. Whenever they settle and in whatever order, once the
    handles before index [i] have resolved to [Ok] (to [Some]) and the
    one at [i] to [Err(e)] (to [None]), the wrapper [all] returned is
    resolved to that [Err(e)] (to [None]) and exactly the first [i + 1]
    handles have been awaited; once all handles have resolved to [Ok]
    (to [Some]), it is resolved to [Ok] (to [Some]) of the array of their
    payloads in the order of the list. *)
Theorem all_first_failure (s0 : state) (hs : list nat)
    (events : list (nat * settled)) (fuel : nat) :
  queue s0 = [] ->
  Forall (unobserved s0) hs ->
  Forall (fun ev : nat * settled => ev.1 ∈ hs) events ->
  length hs < fuel ->
  let sR := later fuel events (ResultAsync.all (map VResultAsync hs)) s0 in
  let sO := later fuel events (OptionAsync.all (map VOptionAsync hs)) s0 in
  (exec (ResultAsync.all (map VResultAsync hs)) s0).1
    = Normal (VResultAsync (fresh s0))
  /\ (exec (OptionAsync.all (map VOptionAsync hs)) s0).1
     = Normal (VOptionAsync (fresh s0))
  /\ (forall i h values e,
        hs !! i = Some h ->
        Forall2 (fun h v =>
                   outcome sR h = Some (Fulfilled (VResult (ResultOk v))))
          (take i hs) values ->
        outcome sR h = Some (Fulfilled (VResult (ResultErr e))) ->
        outcome sR (fresh s0) = Some (Fulfilled (VResult (ResultErr e)))
        /\ log sR = log s0 ++ awaits VResultAsync hs (S i))
  /\ (forall values,
        Forall2 (fun h v =>
                   outcome sR h = Some (Fulfilled (VResult (ResultOk v))))
          hs values ->
        outcome sR (fresh s0)
          = Some (Fulfilled (VResult (ResultOk (VArray values))))
        /\ log sR = log s0 ++ awaits VResultAsync hs (length hs))
  /\ (forall i h values,
        hs !! i = Some h ->
        Forall2 (fun h v =>
                   outcome sO h = Some (Fulfilled (VOption (OptionSome v))))
          (take i hs) values ->
        outcome sO h = Some (Fulfilled (VOption OptionNone)) ->
        outcome sO (fresh s0) = Some (Fulfilled (VOption OptionNone))
        /\ log sO = log s0 ++ awaits VOptionAsync hs (S i))
  /\ (forall values,
        Forall2 (fun h v =>
                   outcome sO h = Some (Fulfilled (VOption (OptionSome v))))
          hs values ->
        outcome sO (fresh s0)
          = Some (Fulfilled (VOption (OptionSome (VArray values))))
        /\ log sO = log s0 ++ awaits VOptionAsync hs (length hs)).
Proof.
  intros Hq Hhs Hev Hfuel sR sO.
  destruct (all_loop_inv s0 hs fuel events Hq Hhs Hev Hfuel) as [_ HR].
  destruct (option_all_loop_inv s0 hs fuel events Hq Hhs Hev Hfuel) as [_ HO].
  fold sR in HR. fold sO in HO.
  split; [by unfold ResultAsync.all; rewrite exec_AsyncCall_ret|].
  split; [by unfold OptionAsync.all; rewrite exec_AsyncCall_ret|].
  split_and!.
  - intros i h values e Hi Hpre Hh.
    rewrite (locate_first_failure all_step all_finish
               (fun v => Fulfilled (VResult (ResultOk v))) sR hs i h values
               (Fulfilled (VResult (ResultErr e)))
               (Fulfilled (VResult (ResultErr e)))) in HR; try done.
    by destruct HR as (? & _ & ?).
  - intros values Hall.
    rewrite (locate_no_failure all_step all_finish
               (fun v => Fulfilled (VResult (ResultOk v))) sR hs values)
      in HR; try done.
    by destruct HR as (? & _ & ?).
  - intros i h values Hi Hpre Hh.
    rewrite (locate_first_failure option_all_step option_all_finish
               (fun v => Fulfilled (VOption (OptionSome v))) sO hs i h values
               (Fulfilled (VOption OptionNone))
               (Fulfilled (VOption OptionNone))) in HO; try done.
    by destruct HO as (? & _ & ?).
  - intros values Hall.
    rewrite (locate_no_failure option_all_step option_all_finish
               (fun v => Fulfilled (VOption (OptionSome v))) sO hs values)
      in HO; try done.
    by destruct HO as (? & _ & ?).
Qed.

Lemma all_first_failure_witness :
  let s0 := mkState [Pending []; Pending []; Pending []] [] [] in
  let hs := [0; 1; 2] in
  let events := [(2, Fulfilled (VResult (Err (VStr "fast"))));
                 (0, Fulfilled (VResult (Ok (VNum 1))));
                 (1, Fulfilled (VResult (Err (VStr "x"))))] in
  let sR := later 4 events (ResultAsync.all (map VResultAsync hs)) s0 in
  queue s0 = []
  /\ (exec (ResultAsync.all (map VResultAsync hs)) s0).1 = Normal (VResultAsync 3)
  /\ outcome sR 3 = Some (Fulfilled (VResult (ResultErr (VStr "x"))))
  /\ log sR = [EvAwait (VResultAsync 0); EvAwait (VResultAsync 1)].
Proof.
  intros s0 hs events sR.
  assert (Hhs : Forall (unobserved s0) hs)
    by (repeat constructor; right; reflexivity).
  assert (Hev : Forall (fun ev : nat * settled => ev.1 ∈ hs) events)
    by (repeat constructor).
  assert (Hfuel : length hs < 4) by (cbn; lia).
  destruct (all_first_failure s0 hs events 4 eq_refl Hhs Hev Hfuel)
    as (Hret & _ & Hfail & _).
  destruct (Hfail 1 1 [VNum 1] (VStr "x")) as [Hout Hlog].
  - reflexivity.
  - repeat constructor.
  - vm_compute. reflexivity.
  - split; [reflexivity|]. split; [exact Hret|]. split; [exact Hout|exact Hlog].
Defined.

(** ** [allSettled] *)

Lemma locate_results rs : forall i acc rest,
  locate allSettled_step allSettled_finish
    (map (fun r => Some (Fulfilled (VResult r))) rs ++ rest) i acc
  = locate allSettled_step allSettled_finish rest (i + length rs)
      (acc.1 ++ successes rs, acc.2 ++ failures rs).
Proof.
  induction rs as [|r rs IH]; intros i [values errors] rest; cbn.
  - by rewrite Nat.add_0_r, !app_nil_r.
  - destruct r as [v|e]; cbn; rewrite IH; cbn;
      (f_equal; [lia|]); by rewrite <- app_assoc.
Qed.

Lemma map_outcome_results s (hs : list nat) rs :
  Forall2 (fun h r => outcome s h = Some (Fulfilled (VResult r))) hs rs ->
  map (outcome s) hs = map (fun r => Some (Fulfilled (VResult r))) rs.
Proof. induction 1 as [|h r hs rs Hh _ IH]; cbn; congruence. Qed.

(** C2: [allSettled] awaits every handle. Once all of them have resolved
    to a result, the wrapper it returned is resolved to [Err] of the
    array of all the error payloads, in the order of the list, if there
    is at least one, and to [Ok] of the array of the payloads otherwise.
    As long as a handle is pending the wrapper is pending too, whatever
    the handles before it resolved to. *)
Theorem allSettled_collects (s0 : state) (hs : list nat)
    (events : list (nat * settled)) (fuel : nat) :
  queue s0 = [] ->
  Forall (unobserved s0) hs ->
  Forall (fun ev : nat * settled => ev.1 ∈ hs) events ->
  length hs < fuel ->
  let sS := later fuel events (ResultAsync.allSettled (map VResultAsync hs)) s0 in
  (exec (ResultAsync.allSettled (map VResultAsync hs)) s0).1
    = Normal (VResultAsync (fresh s0))
  /\ (forall rs,
        Forall2 (fun h r => outcome sS h = Some (Fulfilled (VResult r))) hs rs ->
        outcome sS (fresh s0)
          = Some (Fulfilled (VResult
              match failures rs with
              | [] => ResultOk (VArray (successes rs))
              | _ :: _ => ResultErr (VArray (failures rs))
              end))
        /\ log sS = log s0 ++ awaits VResultAsync hs (length hs))
  /\ (forall i h rs,
        hs !! i = Some h ->
        Forall2 (fun h r => outcome sS h = Some (Fulfilled (VResult r)))
          (take i hs) rs ->
        outcome sS h = None ->
        outcome sS (fresh s0) = None
        /\ log sS = log s0 ++ awaits VResultAsync hs (S i)).
Proof.
  intros Hq Hhs Hev Hfuel sS.
  destruct (allSettled_loop_inv s0 hs fuel events Hq Hhs Hev Hfuel) as [_ HS].
  fold sS in HS.
  split; [by unfold ResultAsync.allSettled; rewrite exec_AsyncCall_ret|].
  split.
  - intros rs Hall.
    rewrite (map_outcome_results _ _ _ Hall) in HS.
    rewrite <- (app_nil_r (map _ rs)), locate_results in HS. cbn in HS.
    destruct HS as (Hout & _ & Hlog).
    rewrite (Forall2_length _ _ _ Hall). split; [|done].
    rewrite Hout. unfold allSettled_finish. cbn.
    by destruct (failures rs).
  - intros i h rs Hi Hpre Hh.
    assert (Hlen : length rs = i).
    { apply Forall2_length in Hpre. rewrite length_take in Hpre.
      pose proof (lookup_lt_Some _ _ _ Hi). lia. }
    assert (Hmap : map (outcome sS) hs
                   = map (fun r => Some (Fulfilled (VResult r))) rs
                     ++ None :: map (outcome sS) (drop (S i) hs)).
    { rewrite <- (take_drop i hs) at 1.
      rewrite map_app, (drop_S _ _ _ Hi), (map_outcome_results _ _ _ Hpre).
      cbn. by rewrite Hh. }
    rewrite Hmap, locate_results in HS. cbn in HS. rewrite Hlen in HS.
    destruct HS as (Ht & _ & Hlog). split; [|done].
    unfold outcome. by rewrite Ht.
Qed.

Lemma allSettled_collects_witness :
  let s0 := mkState [Pending []; Pending []; Pending []] [] [] in
  let hs := [0; 1; 2] in
  let events := [(2, Fulfilled (VResult (Err (VStr "b"))));
                 (1, Fulfilled (VResult (Err (VStr "a"))));
                 (0, Fulfilled (VResult (Ok (VNum 1))))] in
  let sS := later 4 events (ResultAsync.allSettled (map VResultAsync hs)) s0 in
  queue s0 = []
  /\ outcome sS 3
     = Some (Fulfilled (VResult (ResultErr (VArray [VStr "a"; VStr "b"]))))
  /\ log sS = [EvAwait (VResultAsync 0); EvAwait (VResultAsync 1);
               EvAwait (VResultAsync 2)].
Proof.
  intros s0 hs events sS.
  assert (Hhs : Forall (unobserved s0) hs)
    by (repeat constructor; right; reflexivity).
  assert (Hev : Forall (fun ev : nat * settled => ev.1 ∈ hs) events)
    by (repeat constructor).
  assert (Hfuel : length hs < 4) by (cbn; lia).
  destruct (allSettled_collects s0 hs events 4 eq_refl Hhs Hev Hfuel)
    as (_ & Hall & _).
  destruct (Hall [Ok (VNum 1); Err (VStr "a"); Err (VStr "b")]) as [Hout Hlog].
  - repeat constructor.
  - split; [reflexivity|]. split; [exact Hout|exact Hlog].
Defined.

(** ** One resolution, many observers *)

Lemma settle_all_outcome fuel events : forall s p st,
  outcome s p = Some st -> outcome (settle_all fuel events s) p = Some st.
Proof.
  induction events as [|[q st'] events IH]; intros s p st Hp; [done|].
  cbn. apply IH. by apply drain_outcome, settle_outcome.
Qed.

(** Microtasks that each hand a value to a pending promise nobody
    observes. *)
Lemma drain_deliver v qs : forall s fuel,
  queue s = map (fun q => (q, Ret v)) qs ->
  thenable v = None ->
  NoDup qs ->
  (forall q, q ∈ qs -> cells s !! q = Some (Pending [])) ->
  length qs <= fuel ->
  queue (drain fuel s) = []
  /\ log (drain fuel s) = log s
  /\ fresh (drain fuel s) = fresh s
  /\ (forall q, q ∈ qs -> outcome (drain fuel s) q = Some (Fulfilled v))
  /\ (forall q st, outcome s q = Some st -> outcome (drain fuel s) q = Some st).
Proof.
  induction qs as [|q qs IH]; intros [cs jobs l] fuel Hq Hv Hnd Hcells Hfuel;
    cbn in Hq; subst jobs.
  - rewrite drain_idle by done. split_and!; try done. by intros q H%elem_of_nil.
  - destruct fuel as [|fuel]; [cbn in Hfuel; lia|]. rewrite drain_step.
    apply NoDup_cons in Hnd as [Hq Hnd].
    assert (Hcq : cs !! q = Some (Pending [])) by (apply Hcells; left).
    assert (Hrun : run_job (q, Ret v) (mkState cs (map (fun q => (q, Ret v)) qs) l)
                   = mkState (<[q := Settled (Fulfilled v)]> cs)
                       (map (fun q => (q, Ret v)) qs) l).
    { unfold run_job; cbn. unfold resolve. rewrite Hv.
      rewrite (settle_pending _ _ _ []) by done. cbn. by rewrite app_nil_r. }
    rewrite Hrun.
    destruct (IH (mkState (<[q := Settled (Fulfilled v)]> cs)
                    (map (fun q => (q, Ret v)) qs) l) fuel)
      as (H1 & H2 & H3 & H4 & H5); try done.
    { intros q' Hq'. cbn. rewrite list_lookup_insert_ne; [|by intros ->].
      apply Hcells. by right. }
    { cbn in Hfuel. lia. }
    split_and!; try done.
    + rewrite H3. unfold fresh; cbn. by rewrite length_insert.
    + intros q' [->|Hq']%elem_of_cons; [|by apply H4].
      apply H5. unfold outcome; cbn.
      rewrite list_lookup_insert_eq; [done|]. by eapply lookup_lt_Some.
    + intros q' st Hst. apply H5. unfold outcome in *; cbn in *.
      destruct (decide (q' = q)) as [->|Hne].
      * by rewrite Hcq in Hst.
      * by rewrite list_lookup_insert_ne.
Qed.

(** A promise with [resume] reactions only settles, and the queue is
    run: every waiting promise gets the value. *)
Lemma settle_fanout s p v qs fuel :
  queue s = [] ->
  cells s !! p = Some (Pending (map (fun q => (q, resume)) qs)) ->
  thenable v = None ->
  NoDup qs ->
  p ∉ qs ->
  (forall q, q ∈ qs -> cells s !! q = Some (Pending [])) ->
  length qs <= fuel ->
  let s' := drain fuel (settle p (Fulfilled v) s) in
  queue s' = []
  /\ log s' = log s
  /\ fresh s' = fresh s
  /\ outcome s' p = Some (Fulfilled v)
  /\ (forall q, q ∈ qs -> outcome s' q = Some (Fulfilled v))
  /\ (forall q st, outcome s q = Some st -> outcome s' q = Some st).
Proof.
  intros Hq Hp Hv Hnd Hnotin Hcells Hfuel s'.
  assert (Hsettle : settle p (Fulfilled v) s
    = mkState (<[p := Settled (Fulfilled v)]> (cells s))
        (map (fun q => (q, Ret v)) qs) (log s)).
  { rewrite (settle_pending _ _ _ _ Hp), Hq, app_nil_l.
    by rewrite map_map. }
  destruct (drain_deliver v qs (settle p (Fulfilled v) s) fuel)
    as (H1 & H2 & H3 & H4 & H5); try done.
  - by rewrite Hsettle.
  - intros q Hq0. rewrite Hsettle. cbn.
    rewrite list_lookup_insert_ne; [by apply Hcells|]. by intros ->.
  - subst s'. split_and!; try done.
    + by rewrite H2, Hsettle.
    + by rewrite H3, fresh_settle.
    + apply H5. by eapply outcome_settle_pending.
    + intros q st Hst. by apply H5, settle_outcome.
Qed.

Lemma emitted_app tag l1 l2 :
  emitted tag (l1 ++ l2) = emitted tag l1 ++ emitted tag l2.
Proof. apply omap_app. Qed.

Lemma await_many_S fuel n w s :
  await_many fuel (S n) w s
  = ((await_many fuel n w s).1 ++ [fresh (await_many fuel n w s).2],
     drain fuel (exec (probe w) (await_many fuel n w s).2).2).
Proof. done. Qed.

(** [await w] while the promise behind [w] is pending: the awaiting
    function is parked on it. *)
Lemma probe_pending fuel s w p rs :
  thenable w = Some p ->
  cells s !! p = Some (Pending rs) ->
  queue s = [] ->
  drain fuel (exec (probe w) s).2
  = mkState (<[p := Pending (rs ++ [(fresh s, resume)])]>
               (cells s ++ [Pending []]))
      [] (log s ++ [EvAwait w]).
Proof.
  intros Hw Hp Hq. unfold probe, async, await.
  rewrite exec_async_await. cbn [snd]. unfold park. rewrite Hw.
  rewrite (subscribe_pending _ _ _ rs).
  2:{ cbn. rewrite lookup_app_l; [done|]. by eapply lookup_lt_Some. }
  cbn. rewrite Hq. by apply drain_idle.
Qed.

(** [await w] once the promise behind [w] has settled. *)
Lemma probe_settled fuel s w p st :
  thenable w = Some p ->
  outcome s p = Some st ->
  (forall v, st = Fulfilled v -> thenable v = None) ->
  queue s = [] ->
  drain (S fuel) (exec (probe w) s).2
  = mkState (cells s ++ [Settled st]) [] (log s ++ [EvAwait w]).
Proof.
  intros Hw Hp Hst Hq.
  rewrite (exec_probe_settled s w p st) by done. rewrite Hq. cbn [snd].
  rewrite app_nil_l, drain_step, run_resume_fresh by done.
  by apply drain_idle.
Qed.

Lemma await_many_pending fuel tag w p :
  thenable w = Some p ->
  forall n s qs0,
    queue s = [] ->
    cells s !! p = Some (Pending (map (fun q => (q, resume)) qs0)) ->
    let qs := (await_many fuel n w s).1 in
    let s' := (await_many fuel n w s).2 in
    qs = seq (fresh s) n
    /\ queue s' = []
    /\ fresh s' = fresh s + n
    /\ cells s' !! p = Some (Pending (map (fun q => (q, resume)) (qs0 ++ qs)))
    /\ (forall q, q ∈ qs -> cells s' !! q = Some (Pending []))
    /\ (forall q, q < fresh s -> q <> p -> cells s' !! q = cells s !! q)
    /\ emitted tag (log s') = emitted tag (log s).
Proof.
  intros Hw n s qs0 Hq Hp.
  induction n as [|n IH]; cbn zeta.
  - cbn. rewrite app_nil_r, Nat.add_0_r. split_and!; try done.
    by intros q H%elem_of_nil.
  - rewrite await_many_S. cbn [fst snd].
    destruct IH as (Hqs & Hq' & Hfresh & Hp' & Hpend & Hframe & Hlog).
    set (qs := (await_many fuel n w s).1) in *.
    set (s' := (await_many fuel n w s).2) in *.
    rewrite (probe_pending fuel s' w p _ Hw Hp' Hq').
    assert (Hplt : p < fresh s) by (by eapply lookup_lt_fresh).
    split_and!.
    + by rewrite seq_S, Hqs, Hfresh.
    + done.
    + unfold fresh in *; cbn. rewrite length_insert, length_app; cbn. lia.
    + cbn. rewrite list_lookup_insert_eq.
      2:{ rewrite length_app. unfold fresh in *. cbn. lia. }
      by rewrite (app_assoc qs0), (map_app _ (qs0 ++ qs)).
    + intros q [Hin| ->%list_elem_of_singleton]%elem_of_app; cbn.
      * assert (q <> p).
        { rewrite Hqs in Hin. apply elem_of_seq in Hin. lia. }
        rewrite list_lookup_insert_ne by done.
        rewrite lookup_app_l; [by apply Hpend|].
        apply Hpend in Hin. by eapply lookup_lt_Some.
      * rewrite list_lookup_insert_ne by (rewrite Hfresh; lia).
        apply lookup_alloc_fresh.
    + intros q Hlt Hne. cbn. rewrite list_lookup_insert_ne by done.
      rewrite lookup_app_l by (unfold fresh in *; lia). by apply Hframe.
    + cbn [log]. rewrite emitted_app, Hlog. cbn. by rewrite app_nil_r.
Qed.

Lemma await_many_settled fuel tag w p st :
  thenable w = Some p ->
  (forall v, st = Fulfilled v -> thenable v = None) ->
  0 < fuel ->
  forall n s,
    queue s = [] ->
    outcome s p = Some st ->
    let qs := (await_many fuel n w s).1 in
    let s' := (await_many fuel n w s).2 in
    length qs = n
    /\ queue s' = []
    /\ (forall q, q ∈ qs -> outcome s' q = Some st)
    /\ (forall q st0, outcome s q = Some st0 -> outcome s' q = Some st0)
    /\ emitted tag (log s') = emitted tag (log s).
Proof.
  intros Hw Hst Hfuel n s Hq Hp. destruct fuel as [|fuel]; [lia|].
  induction n as [|n IH]; cbn zeta.
  - cbn. split_and!; try done. by intros q H%elem_of_nil.
  - rewrite await_many_S. cbn [fst snd].
    destruct IH as (Hlen & Hq' & Hqs & Hmono & Hlog).
    set (qs := (await_many (S fuel) n w s).1) in *.
    set (s' := (await_many (S fuel) n w s).2) in *.
    rewrite (probe_settled fuel s' w p st) by auto.
    assert (Hext : forall q st0, outcome s' q = Some st0 ->
      outcome (mkState (cells s' ++ [Settled st]) [] (log s' ++ [EvAwait w])) q
      = Some st0).
    { intros q st0 H0. unfold outcome in *; cbn.
      rewrite lookup_app_l; [done|].
      destruct (cells s' !! q) eqn:E; [by eapply lookup_lt_Some|done]. }
    split_and!.
    + rewrite length_app; cbn. lia.
    + done.
    + intros q [Hin| ->%list_elem_of_singleton]%elem_of_app.
      * by apply Hext, Hqs.
      * apply outcome_app_fresh.
    + intros q st0 H0. by apply Hext, Hmono.
    + cbn [log]. rewrite emitted_app, Hlog. cbn. by rewrite app_nil_r.
Qed.

Lemma emitted_emit tag seen : emitted tag (map (EvEmit tag) seen) = seen.
Proof.
  induction seen as [|x seen IH]; [done|].
  cbn. rewrite String.eqb_refl. by f_equal.
Qed.

Lemma await_many_first fuel n w s :
  await_many fuel (S n) w s
  = (fresh s :: (await_many fuel n w (drain fuel (exec (probe w) s).2)).1,
     (await_many fuel n w (drain fuel (exec (probe w) s).2)).2).
Proof.
  set (F := fun qs_s : list nat * state =>
       (qs_s.1 ++ [fresh qs_s.2], drain fuel (exec (probe w) qs_s.2).2)).
  assert (Hgen : forall m qs0 s',
    Nat.iter m F (qs0, s')
    = (qs0 ++ (Nat.iter m F ([], s')).1, (Nat.iter m F ([], s')).2)).
  { induction m as [|m IH]; intros qs0 s'.
    - cbn. by rewrite app_nil_r.
    - change (F (Nat.iter m F (qs0, s'))
              = (qs0 ++ (F (Nat.iter m F ([], s'))).1,
                 (F (Nat.iter m F ([], s'))).2)).
      rewrite IH. unfold F. cbn [fst snd]. by rewrite app_assoc. }
  unfold await_many. fold F. rewrite Nat.iter_succ_r.
  unfold F at 2. cbn [fst snd app]. by rewrite Hgen.
Qed.

Section Inspected.
Variables (tag : string) (this : nat) (cb : settled -> prog) (v : val)
  (seen : list val) (w : val) (s0 : state).
Hypothesis cb_runs : forall s,
  exec (cb (Fulfilled v)) s
  = (Normal v, mkState (cells s) (queue s) (log s ++ map (EvEmit tag) seen)).
Hypothesis v_plain : thenable v = None.
Hypothesis w_promise : thenable w = Some (fresh s0).
Hypothesis idle : queue s0 = [].

(** A wrapper whose promise [fresh s0] is made by a reaction [cb] on a
    pending promise, awaited before and after that promise settles. *)
Lemma inspected_pending n1 n2 fuel :
  cells s0 !! this = Some (Pending []) ->
  n1 < fuel ->
  let st := Fulfilled v in
  let obs := awaited_around fuel n1 n2 w this st
               (subscribe this (fresh s0, cb) (alloc s0)) in
  length obs.1 = n1 + n2
  /\ (forall q, q ∈ obs.1 -> outcome obs.2 q = Some st)
  /\ emitted tag (log obs.2) = emitted tag (log s0) ++ seen
  /\ outcome obs.2 (fresh s0) = Some st
  /\ outcome obs.2 this = Some st.
Proof.
  intros Hthis Hfuel st obs. subst obs. unfold awaited_around.
  set (s1 := subscribe this (fresh s0, cb) (alloc s0)).
  set (a1 := await_many fuel n1 w s1).
  set (s3 := drain fuel (settle this st a1.2)).
  set (a2 := await_many fuel n2 w s3). cbn [fst snd].
  assert (Hlt : this < fresh s0) by (by eapply lookup_lt_fresh).
  (* the call *)
  assert (Hs1 : s1 = mkState (<[this := Pending [(fresh s0, cb)]]>
                                (cells s0 ++ [Pending []]))
                       [] (log s0)).
  { subst s1. rewrite (subscribe_pending _ _ _ []).
    2:{ cbn. by rewrite lookup_app_l. }
    cbn. by rewrite idle. }
  assert (Hfresh1 : fresh s1 = S (fresh s0)).
  { rewrite Hs1. unfold fresh; cbn. rewrite length_insert, length_app. cbn. lia. }
  (* the awaits before *)
  destruct (await_many_pending fuel tag w (fresh s0) w_promise n1 s1 [])
    as (Hqs1 & Hq2 & Hfresh2 & Hp2 & Hpend2 & Hframe2 & Hlog2).
  { by rewrite Hs1. }
  { rewrite Hs1. cbn. rewrite list_lookup_insert_ne by lia.
    apply lookup_alloc_fresh. }
  fold a1 in Hqs1, Hq2, Hfresh2, Hp2, Hpend2, Hframe2, Hlog2.
  cbn [app] in Hp2.
  assert (Hthis2 : cells a1.2 !! this = Some (Pending [(fresh s0, cb)])).
  { rewrite Hframe2 by lia. rewrite Hs1. cbn.
    apply list_lookup_insert_eq. rewrite length_app. unfold fresh in Hlt. lia. }
  (* the promise settles: the reaction runs *)
  destruct fuel as [|fuel]; [lia|].
  set (s2 := mkState (<[this := Settled st]> (cells a1.2)) []
               (log a1.2 ++ map (EvEmit tag) seen)).
  assert (Hs3 : s3 = drain fuel (settle (fresh s0) st s2)).
  { subst s3. rewrite (settle_pending _ _ _ _ Hthis2), Hq2.
    cbn [map app fst snd]. rewrite drain_step. f_equal.
    unfold run_job; cbn [fst snd]. rewrite cb_runs. cbn [complete].
    unfold resolve. by rewrite v_plain. }
  destruct (settle_fanout s2 (fresh s0) v a1.1 fuel)
    as (Hq3 & Hlog3 & _ & Hp3 & Hqs3 & Hmono3); try done.
  { cbn. rewrite list_lookup_insert_ne by lia. exact Hp2. }
  { rewrite Hqs1. apply NoDup_seq. }
  { rewrite Hqs1, elem_of_seq. lia. }
  { intros q Hin. cbn.
    rewrite list_lookup_insert_ne; [by apply Hpend2|].
    rewrite Hqs1 in Hin. apply elem_of_seq in Hin. lia. }
  { rewrite Hqs1, length_seq. lia. }
  fold st in Hq3, Hlog3, Hp3, Hqs3, Hmono3.
  rewrite <- Hs3 in Hq3, Hlog3, Hp3, Hqs3, Hmono3.
  (* the awaits after *)
  destruct (await_many_settled (S fuel) tag w (fresh s0) st w_promise)
    with (n := n2) (s := s3) as (Hlen4 & _ & Hqs4 & Hmono4 & Hlog4);
    try done; [by intros v' [= <-] | lia |].
  fold a2 in Hlen4, Hqs4, Hmono4, Hlog4.
  split_and!.
  - by rewrite length_app, Hqs1, length_seq, Hlen4.
  - intros q [Hin|Hin]%elem_of_app; [apply Hmono4, Hqs3, Hin | by apply Hqs4].
  - rewrite Hlog4, Hlog3. cbn [s2 log].
    by rewrite emitted_app, emitted_emit, Hlog2, Hs1.
  - by apply Hmono4.
  - apply Hmono4, Hmono3. unfold outcome. cbn.
    rewrite list_lookup_insert_eq; [done|]. by eapply lookup_lt_Some.
Qed.

(** The same when the promise has settled before the reaction is
    attached. *)
Lemma inspected_settled n1 n2 fuel :
  outcome s0 this = Some (Fulfilled v) ->
  1 < fuel ->
  let st := Fulfilled v in
  let obs := awaited_around fuel n1 n2 w this st
               (subscribe this (fresh s0, cb) (alloc s0)) in
  length obs.1 = n1 + n2
  /\ (forall q, q ∈ obs.1 -> outcome obs.2 q = Some st)
  /\ emitted tag (log obs.2) = emitted tag (log s0) ++ seen
  /\ outcome obs.2 (fresh s0) = Some st
  /\ outcome obs.2 this = Some st.
Proof.
  intros Hthis Hfuel st obs. subst obs. unfold awaited_around.
  set (s1 := subscribe this (fresh s0, cb) (alloc s0)).
  assert (Hs1 : s1 = mkState (cells s0 ++ [Pending []]) [(fresh s0, cb st)]
                       (log s0)).
  { subst s1. rewrite (subscribe_settled _ _ _ st) by (by apply outcome_alloc).
    unfold enqueue, alloc. cbn. by rewrite idle. }
  assert (Hplain : forall v', st = Fulfilled v' -> thenable v' = None)
    by (by intros v' [= <-]).
  assert (Hrun : forall cs l,
    length cs = fresh s0 ->
    run_job (fresh s0, cb st) (mkState (cs ++ [Pending []]) [] l)
    = mkState (cs ++ [Settled st]) [] (l ++ map (EvEmit tag) seen)).
  { intros cs l Hlen. unfold run_job. cbn [fst snd]. rewrite cb_runs.
    cbn [complete cells queue log]. unfold resolve. rewrite v_plain.
    rewrite (settle_pending _ _ _ []).
    - cbn. rewrite <- Hlen. by rewrite insert_fresh.
    - cbn. rewrite <- Hlen. by rewrite lookup_app_r, Nat.sub_diag by lia. }
  destruct fuel as [|[|fuel]]; [lia|lia|].
  destruct n1 as [|n1].
  - (* no await before: the reaction runs when the queue is run *)
    change (await_many (S (S fuel)) 0 w s1) with (@nil nat, s1).
    cbn [fst snd app].
    rewrite (settle_settled _ _ _ st).
    2:{ rewrite Hs1. unfold outcome. cbn.
        apply outcome_Some in Hthis. rewrite lookup_app_l; [by rewrite Hthis|].
        by eapply lookup_lt_Some. }
    rewrite Hs1, drain_step, Hrun by done.
    rewrite drain_idle by done.
    set (s3 := mkState _ _ _).
    destruct (await_many_settled (S (S fuel)) tag w (fresh s0) st w_promise)
      with (n := n2) (s := s3) as (Hlen4 & _ & Hqs4 & Hmono4 & Hlog4);
      try done; [lia | apply outcome_app_fresh |].
    split_and!; try done.
    + rewrite Hlog4. subst s3. cbn [log].
      by rewrite emitted_app, emitted_emit.
    + apply Hmono4, outcome_app_fresh.
    + apply Hmono4. subst s3. unfold outcome. cbn.
      apply outcome_Some in Hthis.
      by rewrite (lookup_app_l_Some _ _ _ _ Hthis).
  - (* the first await finds the promise pending; the queue is run *)
    rewrite await_many_first. cbn [fst snd].
    set (sA := drain (S (S fuel)) (exec (probe w) s1).2).
    assert (HsA : sA = mkState (cells s0 ++ [Settled st; Settled st]) []
                         ((log s0 ++ [EvAwait w]) ++ map (EvEmit tag) seen)).
    { assert (Hfresh1 : fresh s1 = S (fresh s0)).
      { rewrite Hs1. unfold fresh. cbn. rewrite length_app. cbn. lia. }
      subst sA. unfold probe, async, await. rewrite exec_async_await.
      cbn [snd]. rewrite Hfresh1. unfold park. rewrite w_promise, Hs1.
      rewrite (subscribe_pending _ _ _ []).
      2:{ cbn. rewrite lookup_app_l by (rewrite length_app; cbn; unfold fresh; lia).
          apply (lookup_alloc_fresh s0). }
      cbn [cells queue log record alloc app].
      rewrite drain_step.
      replace (<[fresh s0:=Pending [(S (fresh s0), resume)]]>
                 ((cells s0 ++ [Pending []]) ++ [Pending []]))
        with ((cells s0 ++ [Pending [(S (fresh s0), resume)]]) ++ [Pending []]).
      2:{ rewrite insert_app_l by (rewrite length_app; cbn; unfold fresh; lia).
          unfold fresh. by rewrite insert_fresh. }
      unfold run_job. cbn [fst snd]. rewrite cb_runs.
      cbn [complete cells queue log]. unfold resolve. rewrite v_plain.
      rewrite (settle_pending _ _ _ [(S (fresh s0), resume)]).
      2:{ cbn. rewrite lookup_app_l by (rewrite length_app; cbn; unfold fresh; lia).
          unfold fresh. by rewrite lookup_app_r, Nat.sub_diag by lia. }
      cbn [cells queue log map app fst snd resume].
      rewrite insert_app_l by (rewrite length_app; cbn; unfold fresh; lia).
      unfold fresh at 1. rewrite insert_fresh.
      rewrite drain_step.
      rewrite (run_resume_fresh (cells s0 ++ [Settled (Fulfilled v)]) _
                 (S (fresh s0)) (Fulfilled v)).
      - rewrite drain_idle by done. by rewrite <- app_assoc.
      - by intros v' [= <-].
      - rewrite length_app. cbn. unfold fresh. lia. }
    assert (Hp' : outcome sA (fresh s0) = Some st).
    { rewrite HsA. unfold outcome. cbn.
      rewrite lookup_app_r by (unfold fresh; lia).
      unfold fresh. by rewrite Nat.sub_diag. }
    assert (Hq1 : outcome sA (fresh s1) = Some st).
    { rewrite HsA, Hs1. unfold outcome, fresh. cbn.
      rewrite length_app. cbn.
      rewrite lookup_app_r by lia.
      by replace (length (cells s0) + 1 - length (cells s0)) with 1 by lia. }
    assert (HthisA : outcome sA this = Some st).
    { rewrite HsA. unfold outcome. cbn. apply outcome_Some in Hthis.
      rewrite lookup_app_l; [by rewrite Hthis|]. by eapply lookup_lt_Some. }
    destruct (await_many_settled (S (S fuel)) tag w (fresh s0) st w_promise)
      with (n := n1) (s := sA) as (Hlen2 & Hq2 & Hqs2 & Hmono2 & Hlog2);
      try done; [lia | by rewrite HsA |].
    set (a1 := await_many (S (S fuel)) n1 w sA) in *.
    rewrite (settle_settled _ _ _ st) by (by apply Hmono2).
    rewrite drain_idle by done.
    destruct (await_many_settled (S (S fuel)) tag w (fresh s0) st w_promise)
      with (n := n2) (s := a1.2) as (Hlen4 & _ & Hqs4 & Hmono4 & Hlog4);
      try done; [lia | by apply Hmono2 |].
    set (a2 := await_many (S (S fuel)) n2 w a1.2) in *.
    split_and!.
    + rewrite length_app. cbn. lia.
    + intros q [Hin|Hin]%elem_of_app; [|by apply Hqs4].
      apply Hmono4. apply elem_of_cons in Hin as [->|Hin]; [|by apply Hqs2].
      by apply Hmono2.
    + rewrite Hlog4, Hlog2, HsA. cbn [log].
      rewrite !emitted_app, emitted_emit. cbn. by rewrite app_nil_r.
    + by apply Hmono4, Hmono2.
    + by apply Hmono4, Hmono2.
Qed.

Lemma inspected_once n1 n2 fuel :
  outcome s0 this = Some (Fulfilled v) \/ cells s0 !! this = Some (Pending []) ->
  S n1 < fuel ->
  let st := Fulfilled v in
  let obs := awaited_around fuel n1 n2 w this st
               (subscribe this (fresh s0, cb) (alloc s0)) in
  length obs.1 = n1 + n2
  /\ (forall q, q ∈ obs.1 -> outcome obs.2 q = Some st)
  /\ emitted tag (log obs.2) = emitted tag (log s0) ++ seen
  /\ outcome obs.2 (fresh s0) = Some st
  /\ outcome obs.2 this = Some st.
Proof.
  intros [Hthis|Hthis] Hfuel.
  - apply inspected_settled; [done|lia].
  - apply inspected_pending; [done|lia].
Qed.
End Inspected.

Lemma emitted_replicate tag n v :
  emitted tag (replicate n (EvEmit tag v)) = replicate n v.
Proof.
  induction n as [|n IH]; [done|].
  cbn. rewrite String.eqb_refl. by f_equal.
Qed.

(** Microtasks that each call [flag] for a pending promise nobody
    observes. *)
Lemma drain_flags tag v qs : forall s fuel,
  queue s = map (fun q => (q, flag tag v)) qs ->
  NoDup qs ->
  (forall q, q ∈ qs -> cells s !! q = Some (Pending [])) ->
  length qs <= fuel ->
  queue (drain fuel s) = []
  /\ log (drain fuel s) = log s ++ replicate (length qs) (EvEmit tag v)
  /\ fresh (drain fuel s) = fresh s
  /\ (forall q, q ∈ qs -> outcome (drain fuel s) q = Some (Fulfilled VUndefined))
  /\ (forall q st, outcome s q = Some st -> outcome (drain fuel s) q = Some st).
Proof.
  induction qs as [|q qs IH]; intros [cs jobs l] fuel Hq Hnd Hcells Hfuel;
    cbn in Hq; subst jobs.
  - rewrite drain_idle by done. cbn. rewrite app_nil_r.
    split_and!; try done. by intros q H%elem_of_nil.
  - destruct fuel as [|fuel]; [cbn in Hfuel; lia|]. rewrite drain_step.
    apply NoDup_cons in Hnd as [Hq Hnd].
    assert (Hcq : cs !! q = Some (Pending [])) by (apply Hcells; left).
    assert (Hrun : run_job (q, flag tag v)
                     (mkState cs (map (fun q => (q, flag tag v)) qs) l)
                   = mkState (<[q := Settled (Fulfilled VUndefined)]> cs)
                       (map (fun q => (q, flag tag v)) qs)
                       (l ++ [EvEmit tag v])).
    { unfold run_job; cbn. unfold resolve. cbn.
      rewrite (settle_pending _ _ _ []) by done. cbn. by rewrite app_nil_r. }
    rewrite Hrun.
    destruct (IH (mkState (<[q := Settled (Fulfilled VUndefined)]> cs)
                    (map (fun q => (q, flag tag v)) qs) (l ++ [EvEmit tag v]))
                fuel)
      as (H1 & H2 & H3 & H4 & H5); try done.
    { intros q' Hq'. cbn. rewrite list_lookup_insert_ne; [|by intros ->].
      apply Hcells. by right. }
    { cbn in Hfuel. lia. }
    split_and!; try done.
    + rewrite H2. cbn. by rewrite <- app_assoc.
    + rewrite H3. unfold fresh; cbn. by rewrite length_insert.
    + intros q' [->|Hq']%elem_of_cons; [|by apply H4].
      apply H5. unfold outcome; cbn.
      rewrite list_lookup_insert_eq; [done|]. by eapply lookup_lt_Some.
    + intros q' st Hst. apply H5. unfold outcome in *; cbn in *.
      destruct (decide (q' = q)) as [->|Hne].
      * by rewrite Hcq in Hst.
      * by rewrite list_lookup_insert_ne.
Qed.

Lemma called_many_S n call s :
  called_many (S n) call s
  = ((called_many n call s).1 ++ [fresh (called_many n call s).2],
     (exec call (called_many n call s).2).2).
Proof. done. Qed.

Section Called.
Variables (tag : string) (this : nat) (call : prog) (v : val)
  (R : settled -> prog).
Hypothesis call_attaches : forall s,
  (exec call s).2 = subscribe this (fresh s, R) (alloc s).
Hypothesis R_flags : R (Fulfilled v) = flag tag v.

(** Calls made while the promise is pending: the reactions pile up on
    it. *)
Lemma called_many_pending n : forall s rs0,
  cells s !! this = Some (Pending rs0) ->
  let a := called_many n call s in
  a.1 = seq (fresh s) n
  /\ cells a.2
     = <[this := Pending (rs0 ++ map (fun q => (q, R)) a.1)]>
         (cells s ++ replicate n (Pending []))
  /\ queue a.2 = queue s
  /\ log a.2 = log s.
Proof.
  intros s rs0 Hthis. pose proof (lookup_lt_Some _ _ _ Hthis) as Hlt.
  induction n as [|n IH]; cbn zeta.
  - cbn. rewrite !app_nil_r. split_and!; try done.
    by rewrite list_insert_id.
  - rewrite called_many_S. cbn [fst snd].
    destruct IH as (Hqs & Hcells & Hq & Hlog).
    set (a := called_many n call s) in *.
    assert (Hfresh : fresh a.2 = fresh s + n).
    { unfold fresh. rewrite Hcells, length_insert, length_app, length_replicate.
      done. }
    rewrite call_attaches.
    rewrite (subscribe_pending _ _ _ (rs0 ++ map (fun q => (q, R)) a.1)).
    2:{ cbn. rewrite Hcells. rewrite lookup_app_l.
        - apply list_lookup_insert_eq. rewrite length_app. lia.
        - rewrite length_insert, length_app. lia. }
    cbn [cells queue log alloc]. split_and!; try done.
    + by rewrite seq_S, Hqs, Hfresh.
    + rewrite Hcells. rewrite <- insert_app_l by (rewrite length_app; lia).
      rewrite list_insert_insert_eq.
      rewrite map_app, (app_assoc rs0). cbn [map].
      f_equal. rewrite <- (app_assoc (cells s)). f_equal.
      change [Pending []] with (replicate 1 (@Pending [])).
      by rewrite <- replicate_add, Nat.add_1_r.
Qed.

(** Calls made once the promise has settled: each reaction is
    scheduled at once. *)
Lemma called_many_settled n : forall s st,
  outcome s this = Some st ->
  let a := called_many n call s in
  a.1 = seq (fresh s) n
  /\ cells a.2 = cells s ++ replicate n (Pending [])
  /\ queue a.2 = queue s ++ map (fun q => (q, R st)) a.1
  /\ log a.2 = log s.
Proof.
  intros s st Hthis. apply outcome_Some in Hthis.
  pose proof (lookup_lt_Some _ _ _ Hthis) as Hlt.
  induction n as [|n IH]; cbn zeta.
  - cbn. by rewrite !app_nil_r.
  - rewrite called_many_S. cbn [fst snd].
    destruct IH as (Hqs & Hcells & Hq & Hlog).
    set (a := called_many n call s) in *.
    assert (Hfresh : fresh a.2 = fresh s + n).
    { unfold fresh. by rewrite Hcells, length_app, length_replicate. }
    rewrite call_attaches.
    rewrite (subscribe_settled _ _ _ st).
    2:{ apply outcome_Some. cbn. rewrite Hcells.
        rewrite !lookup_app_l; try done. rewrite length_app. lia. }
    cbn [cells queue log alloc enqueue fst snd]. split_and!; try done.
    + by rewrite seq_S, Hqs, Hfresh.
    + rewrite Hcells, <- app_assoc. f_equal.
      change [Pending []] with (replicate 1 (@Pending [])).
      by rewrite <- replicate_add, Nat.add_1_r.
    + by rewrite Hq, map_app, <- app_assoc.
Qed.

(** Calls made once the promise has settled, and the queue run. *)
Lemma called_settled_phase n fuel s :
  queue s = [] ->
  outcome s this = Some (Fulfilled v) ->
  n <= fuel ->
  let a := called_many n call s in
  let s' := drain fuel a.2 in
  length a.1 = n
  /\ queue s' = []
  /\ log s' = log s ++ replicate n (EvEmit tag v)
  /\ (forall q, q ∈ a.1 -> outcome s' q = Some (Fulfilled VUndefined))
  /\ (forall q st, outcome s q = Some st -> outcome s' q = Some st).
Proof.
  intros Hq Hthis Hfuel a s'. subst s'.
  destruct (called_many_settled n s _ Hthis) as (Hqs & Hcells & Hqueue & Hlog).
  fold a in Hqs, Hcells, Hqueue, Hlog.
  destruct (drain_flags tag v a.1 a.2 fuel) as (H1 & H2 & H3 & H4 & H5).
  - by rewrite Hqueue, Hq, R_flags.
  - rewrite Hqs. apply NoDup_seq.
  - intros q Hin. rewrite Hqs in Hin. apply elem_of_seq in Hin.
    rewrite Hcells, lookup_app_r by (unfold fresh in Hin; lia).
    apply lookup_replicate. split; [done|]. unfold fresh in Hin. lia.
  - by rewrite Hqs, length_seq.
  - rewrite Hqs, length_seq in *. split_and!; try done.
    + by rewrite H2, Hlog.
    + intros q st Hst. apply H5. unfold outcome in *. rewrite Hcells.
      destruct (cells s !! q) eqn:E; [|done].
      by rewrite (lookup_app_l_Some _ _ _ _ E).
Qed.

(** Calls made while the promise is pending, the promise settling, and
    the queue run. *)
Lemma called_pending_phase n fuel s :
  queue s = [] ->
  cells s !! this = Some (Pending []) ->
  n <= fuel ->
  let a := called_many n call s in
  let s' := drain fuel (settle this (Fulfilled v) a.2) in
  length a.1 = n
  /\ queue s' = []
  /\ log s' = log s ++ replicate n (EvEmit tag v)
  /\ outcome s' this = Some (Fulfilled v)
  /\ (forall q, q ∈ a.1 -> outcome s' q = Some (Fulfilled VUndefined))
  /\ (forall q st, outcome s q = Some st -> outcome s' q = Some st).
Proof.
  intros Hq Hthis Hfuel a s'. subst s'.
  pose proof (lookup_lt_Some _ _ _ Hthis) as Hlt.
  destruct (called_many_pending n s [] Hthis) as (Hqs & Hcells & Hqueue & Hlog).
  fold a in Hqs, Hcells, Hqueue, Hlog. cbn [app] in Hcells.
  assert (Hset : settle this (Fulfilled v) a.2
    = mkState (<[this := Settled (Fulfilled v)]>
                 (cells s ++ replicate n (Pending [])))
        (map (fun q => (q, flag tag v)) a.1) (log s)).
  { rewrite (settle_pending _ _ _ (map (fun q => (q, R)) a.1)).
    2:{ rewrite Hcells. apply list_lookup_insert_eq. rewrite length_app. lia. }
    rewrite Hcells, Hqueue, Hq, Hlog, list_insert_insert_eq. cbn [app].
    rewrite map_map. cbn [fst snd]. by rewrite R_flags. }
  destruct (drain_flags tag v a.1 (settle this (Fulfilled v) a.2) fuel)
    as (H1 & H2 & H3 & H4 & H5).
  - by rewrite Hset.
  - rewrite Hqs. apply NoDup_seq.
  - intros q Hin. rewrite Hqs in Hin. apply elem_of_seq in Hin.
    rewrite Hset. cbn [cells].
    rewrite list_lookup_insert_ne by (unfold fresh in Hin; lia).
    rewrite lookup_app_r by (unfold fresh in Hin; lia).
    apply lookup_replicate. split; [done|]. unfold fresh in Hin. lia.
  - by rewrite Hqs, length_seq.
  - rewrite Hqs, length_seq in *. split_and!; try done.
    + by rewrite H2, Hset.
    + apply H5. rewrite Hset. unfold outcome. cbn [cells].
      rewrite list_lookup_insert_eq; [done|]. rewrite length_app. lia.
    + intros q st Hst. apply H5. rewrite Hset. unfold outcome in *.
      cbn [cells]. destruct (cells s !! q) eqn:E; [|done].
      assert (q <> this).
      { intros ->. rewrite Hthis in E. injection E as <-. done. }
      rewrite list_lookup_insert_ne by done.
      by rewrite (lookup_app_l_Some _ _ _ _ E).
Qed.

(** A callback attached [n1] times before and [n2] times after the
    promise settles is called [n1 + n2] times, each time with the value
    the promise was fulfilled with. *)
Lemma called_around_once n1 n2 fuel s0 :
  queue s0 = [] ->
  outcome s0 this = Some (Fulfilled v) \/ cells s0 !! this = Some (Pending []) ->
  n1 <= fuel ->
  n2 <= fuel ->
  let obs := called_around fuel n1 n2 call this (Fulfilled v) s0 in
  length obs.1 = n1 + n2
  /\ (forall q, q ∈ obs.1 -> outcome obs.2 q = Some (Fulfilled VUndefined))
  /\ emitted tag (log obs.2) = emitted tag (log s0) ++ replicate (n1 + n2) v.
Proof.
  intros Hq Hthis Hf1 Hf2 obs. subst obs. unfold called_around.
  set (a1 := called_many n1 call s0).
  set (s2 := drain fuel (settle this (Fulfilled v) a1.2)).
  assert (Hphase1 : length a1.1 = n1 /\ queue s2 = []
    /\ log s2 = log s0 ++ replicate n1 (EvEmit tag v)
    /\ outcome s2 this = Some (Fulfilled v)
    /\ (forall q, q ∈ a1.1 -> outcome s2 q = Some (Fulfilled VUndefined))).
  { destruct Hthis as [Hthis|Hthis].
    - destruct (called_settled_phase n1 fuel s0 Hq Hthis Hf1)
        as (H1 & H2 & H3 & H4 & H5).
      fold a1 in H1, H2, H3, H4, H5.
      destruct (called_many_settled n1 s0 _ Hthis) as (_ & Hcells & _).
      fold a1 in Hcells.
      assert (Hs2 : s2 = drain fuel a1.2).
      { subst s2. rewrite (settle_settled _ _ _ (Fulfilled v)); [done|].
        apply outcome_Some in Hthis. apply outcome_Some. rewrite Hcells.
        by rewrite (lookup_app_l_Some _ _ _ _ Hthis). }
      rewrite Hs2. split_and!; try done. by apply H5.
    - destruct (called_pending_phase n1 fuel s0 Hq Hthis Hf1)
        as (H1 & H2 & H3 & H4 & H5 & _).
      done. }
  destruct Hphase1 as (Hlen1 & Hq2 & Hlog2 & Hthis2 & Hqs1).
  destruct (called_settled_phase n2 fuel s2 Hq2 Hthis2 Hf2)
    as (Hlen2 & _ & Hlog3 & Hqs2 & Hmono).
  cbn [fst snd]. split_and!.
  - rewrite length_app. lia.
  - intros q [Hin|Hin]%elem_of_app; [by apply Hmono, Hqs1 | by apply Hqs2].
  - rewrite Hlog3, Hlog2, !emitted_app, !emitted_replicate.
    by rewrite <- app_assoc, <- replicate_add.
Qed.
End Called.

(** C9: a wrapper resolves once, and what is attached to it sees that
    one resolution. Let the promise behind a wrapper be pending with
    nothing attached, or resolved already.

    - A callback attached with [inspect] (with [inspectErr]) runs once
      when the wrapper resolves to [Ok] or [Some] (to [Err]) and not at
      all otherwise, however many times the wrapper [inspect] returned
      is awaited, before and after the resolution; each of these awaits
      comes back with the value the receiver resolved to.
    - A wrapper made by [fromResult] or [fromOption], awaited any
      number of times, gives the value it was made from each time.
    - A callback handed to [then] any number of times, before and
      after the resolution, is called once per call of [then], each
      time with the value the wrapper resolved to.
    - A chaining method only makes a new promise, attaches one
      reaction for it to the promise of the receiver, and returns the
      new wrapper. *)
Theorem resolves_once (s0 : state) (this : nat) (tag : string)
    (n1 n2 fuel : nat) :
  queue s0 = [] ->
  S n1 < fuel ->
  n2 <= fuel ->
  (forall r,
      let st := Fulfilled (VResult r) in
      outcome s0 this = Some st \/ cells s0 !! this = Some (Pending []) ->
      (let c := ResultAsync.inspect this (flag tag) in
       let obs := awaited_around fuel n1 n2 (VResultAsync (fresh s0)) this st
                    (exec c s0).2 in
       (exec c s0).1 = Normal (VResultAsync (fresh s0))
       /\ length obs.1 = n1 + n2
       /\ (forall q, q ∈ obs.1 -> outcome obs.2 q = Some st)
       /\ emitted tag (log obs.2) = emitted tag (log s0) ++ ok_payload r
       /\ outcome obs.2 (fresh s0) = Some st
       /\ outcome obs.2 this = Some st)
      /\ (let c := ResultAsync.inspectErr this (flag tag) in
          let obs := awaited_around fuel n1 n2 (VResultAsync (fresh s0)) this
                       st (exec c s0).2 in
          (exec c s0).1 = Normal (VResultAsync (fresh s0))
          /\ length obs.1 = n1 + n2
          /\ (forall q, q ∈ obs.1 -> outcome obs.2 q = Some st)
          /\ emitted tag (log obs.2) = emitted tag (log s0) ++ err_payload r
          /\ outcome obs.2 (fresh s0) = Some st
          /\ outcome obs.2 this = Some st))
  /\ (forall o,
        let st := Fulfilled (VOption o) in
        outcome s0 this = Some st \/ cells s0 !! this = Some (Pending []) ->
        let c := OptionAsync.inspect this (flag tag) in
        let obs := awaited_around fuel n1 n2 (VOptionAsync (fresh s0)) this st
                     (exec c s0).2 in
        (exec c s0).1 = Normal (VOptionAsync (fresh s0))
        /\ length obs.1 = n1 + n2
        /\ (forall q, q ∈ obs.1 -> outcome obs.2 q = Some st)
        /\ emitted tag (log obs.2) = emitted tag (log s0) ++ some_payload o
        /\ outcome obs.2 (fresh s0) = Some st
        /\ outcome obs.2 this = Some st)
  /\ (forall r,
        let c := ResultAsync.fromResult (VResult r) in
        let a := await_many fuel n1 (VResultAsync (fresh s0)) (exec c s0).2 in
        (exec c s0).1 = Normal (VResultAsync (fresh s0))
        /\ length a.1 = n1
        /\ forall q, q ∈ a.1 -> outcome a.2 q = Some (Fulfilled (VResult r)))
  /\ (forall o,
        let c := OptionAsync.fromOption (VOption o) in
        let a := await_many fuel n1 (VOptionAsync (fresh s0)) (exec c s0).2 in
        (exec c s0).1 = Normal (VOptionAsync (fresh s0))
        /\ length a.1 = n1
        /\ forall q, q ∈ a.1 -> outcome a.2 q = Some (Fulfilled (VOption o)))
  /\ (forall v,
        outcome s0 this = Some (Fulfilled v)
        \/ cells s0 !! this = Some (Pending []) ->
        (let obs := called_around fuel n1 n2
                      (ResultAsync.then_ this (Some (flag tag)) None) this
                      (Fulfilled v) s0 in
         length obs.1 = n1 + n2
         /\ (forall q, q ∈ obs.1 ->
               outcome obs.2 q = Some (Fulfilled VUndefined))
         /\ emitted tag (log obs.2)
            = emitted tag (log s0) ++ replicate (n1 + n2) v)
        /\ (let obs := called_around fuel n1 n2
                         (OptionAsync.then_ this (Some (flag tag)) None) this
                         (Fulfilled v) s0 in
            length obs.1 = n1 + n2
            /\ (forall q, q ∈ obs.1 ->
                  outcome obs.2 q = Some (Fulfilled VUndefined))
            /\ emitted tag (log obs.2)
               = emitted tag (log s0) ++ replicate (n1 + n2) v))
  /\ (forall p other fn thunk fn2 onfulfilled onrejected,
        attaches (ResultAsync.map p fn) p VResultAsync
        /\ attaches (ResultAsync.mapErr p fn) p VResultAsync
        /\ attaches (ResultAsync.andThen p fn) p VResultAsync
        /\ attaches (ResultAsync.orElse p fn) p VResultAsync
        /\ attaches (ResultAsync.and p other) p VResultAsync
        /\ attaches (ResultAsync.or p other) p VResultAsync
        /\ attaches (ResultAsync.inspect p fn) p VResultAsync
        /\ attaches (ResultAsync.inspectErr p fn) p VResultAsync
        /\ attaches (ResultAsync.flatten p) p VResultAsync
        /\ attaches (ResultAsync.then_ p onfulfilled onrejected) p VPromise
        /\ attaches (OptionAsync.map p fn) p VOptionAsync
        /\ attaches (OptionAsync.andThen p fn) p VOptionAsync
        /\ attaches (OptionAsync.orElse p thunk) p VOptionAsync
        /\ attaches (OptionAsync.and p other) p VOptionAsync
        /\ attaches (OptionAsync.or p other) p VOptionAsync
        /\ attaches (OptionAsync.filter p fn) p VOptionAsync
        /\ attaches (OptionAsync.inspect p fn) p VOptionAsync
        /\ attaches (OptionAsync.flatten p) p VOptionAsync
        /\ attaches (OptionAsync.zip p other) p VOptionAsync
        /\ attaches (OptionAsync.zipWith p other fn2) p VOptionAsync
        /\ attaches (OptionAsync.then_ p onfulfilled onrejected) p VPromise).
Proof.
  intros Hq Hf1 Hf2.
  assert (Hnil : forall s : state,
            s = mkState (cells s) (queue s) (log s ++ map (EvEmit tag) []))
    by (intros [cs jobs l]; cbn; by rewrite app_nil_r).
  split_and!.
  - intros r st Hthis. split.
    + split; [done|].
      apply (inspected_once tag this _ (VResult r) (ok_payload r)
               (VResultAsync (fresh s0)) s0); try done.
      intros s. destruct r as [x|e]; cbn; [done|]. by rewrite <- Hnil.
    + split; [done|].
      apply (inspected_once tag this _ (VResult r) (err_payload r)
               (VResultAsync (fresh s0)) s0); try done.
      intros s. destruct r as [x|e]; cbn; [|done]. by rewrite <- Hnil.
  - intros o st Hthis. split; [done|].
    apply (inspected_once tag this _ (VOption o) (some_payload o)
             (VOptionAsync (fresh s0)) s0); try done.
    intros s. destruct o as [x|]; cbn; [done|]. by rewrite <- Hnil.
  - intros r c a. subst c a. unfold ResultAsync.fromResult.
    rewrite exec_PromiseResolve_value by done. cbn [exec fst snd].
    split; [done|].
    destruct (await_many_settled fuel tag (VResultAsync (fresh s0)) (fresh s0)
                (Fulfilled (VResult r)) eq_refl)
      with (n := n1)
           (s := mkState (cells s0 ++ [Settled (Fulfilled (VResult r))])
                   (queue s0) (log s0))
      as (Hlen & _ & Hqs & _); try done; [by intros v [= <-] | lia |].
    apply outcome_app_fresh.
  - intros o c a. subst c a. unfold OptionAsync.fromOption.
    rewrite exec_PromiseResolve_value by done. cbn [exec fst snd].
    split; [done|].
    destruct (await_many_settled fuel tag (VOptionAsync (fresh s0)) (fresh s0)
                (Fulfilled (VOption o)) eq_refl)
      with (n := n1)
           (s := mkState (cells s0 ++ [Settled (Fulfilled (VOption o))])
                   (queue s0) (log s0))
      as (Hlen & _ & Hqs & _); try done; [by intros v [= <-] | lia |].
    apply outcome_app_fresh.
  - intros v Hthis. split.
    + apply (called_around_once tag this _ v
               (reaction_of (Some (flag tag)) None)); try done. lia.
    + apply (called_around_once tag this _ v
               (reaction_of (Some (flag tag)) None)); try done. lia.
  - intros p other fn thunk fn2 onfulfilled onrejected.
    split_and!; intros s; by eexists.
Qed.

Lemma resolves_once_witness :
  let s0 := mkState [Pending []] [] [] in
  let st := Fulfilled (VOption (OptionSome (VNum 42))) in
  let c := OptionAsync.inspect 0 (flag "seen") in
  let obs := awaited_around 4 2 1 (VOptionAsync 1) 0 st (exec c s0).2 in
  queue s0 = [] /\ 3 < 4 /\ 1 <= 4
  /\ (exec c s0).1 = Normal (VOptionAsync 1)
  /\ length obs.1 = 2 + 1
  /\ (forall q, q ∈ obs.1 -> outcome obs.2 q = Some st)
  /\ emitted "seen" (log obs.2) = [VNum 42]
  /\ outcome obs.2 1 = Some st
  /\ outcome obs.2 0 = Some st.
Proof.
  intros s0 st c obs.
  assert (H1 : 3 < 4) by lia.
  assert (H2 : 1 <= 4) by lia.
  destruct (resolves_once s0 0 "seen" 2 1 4 eq_refl H1 H2)
    as (_ & Hinspect & _).
  split; [reflexivity|]. split; [exact H1|]. split; [exact H2|].
  exact (Hinspect (OptionSome (VNum 42)) (or_intror eq_refl)).
Defined.

(** ** The cases of the test suite *)

Example test_all_combines :
  resolved 8
    (let* a := ResultAsync.ok (VNum 1) in
     let* b := ResultAsync.ok (VNum 2) in
     let* c := ResultAsync.ok (VNum 3) in
     ResultAsync.all [a; b; c])
  = Some (Fulfilled (VResult (ResultOk (VArray [VNum 1; VNum 2; VNum 3])))).
Proof. reflexivity. Qed.

Example test_all_short_circuits :
  resolved 8
    (let* a := ResultAsync.ok (VNum 1) in
     let* b := ResultAsync.err (VStr "failed") in
     let* c := ResultAsync.ok (VNum 3) in
     ResultAsync.all [a; b; c])
  = Some (Fulfilled (VResult (ResultErr (VStr "failed")))).
Proof. reflexivity. Qed.

Example test_allSettled_collects :
  resolved 8
    (let* a := ResultAsync.ok (VNum 1) in
     let* b := ResultAsync.err (VStr "first") in
     let* c := ResultAsync.err (VStr "second") in
     ResultAsync.allSettled [a; b; c])
  = Some (Fulfilled (VResult (ResultErr (VArray [VStr "first"; VStr "second"])))).
Proof. reflexivity. Qed.

Example test_allSettled_success :
  resolved 8
    (let* a := ResultAsync.ok (VNum 1) in
     let* b := ResultAsync.ok (VNum 2) in
     ResultAsync.allSettled [a; b])
  = Some (Fulfilled (VResult (ResultOk (VArray [VNum 1; VNum 2])))).
Proof. reflexivity. Qed.

Example test_option_all :
  resolved 8
    (let* a := OptionAsync.some (VNum 1) in
     let* b := OptionAsync.some (VNum 2) in
     let* c := OptionAsync.some (VNum 3) in
     OptionAsync.all [a; b; c])
  = Some (Fulfilled (VOption (OptionSome (VArray [VNum 1; VNum 2; VNum 3]))))
  /\ resolved 8
       (let* a := OptionAsync.some (VNum 1) in
        let* b := OptionAsync.none in
        let* c := OptionAsync.some (VNum 3) in
        OptionAsync.all [a; b; c])
     = Some (Fulfilled (VOption OptionNone)).
Proof. split; reflexivity. Qed.

(** Handles that are themselves the outcome of a chain. *)
Example test_all_of_chains :
  let double := fun v =>
    match v with VNum n => Ret (VNum (2 * n)) | _ => Ret v end in
  resolved 16
    (let* a := ResultAsync.ok (VNum 1) in
     let* a' := on_wrapper a (fun p => ResultAsync.map p double) in
     let* b := ResultAsync.ok (VNum 2) in
     let* b' := on_wrapper b (fun p => ResultAsync.map p double) in
     ResultAsync.all [a'; b'])
  = Some (Fulfilled (VResult (ResultOk (VArray [VNum 2; VNum 4])))).
Proof. reflexivity. Qed.

Example test_expect_rejects :
  resolved 8
    (let* w := OptionAsync.none in
     on_wrapper w (fun p => OptionAsync.expect p "custom message"))
  = Some (Rejected (VError "custom message"))
  /\ resolved 8
       (let* w := ResultAsync.err (VStr "error") in
        on_wrapper w (fun p => ResultAsync.expect p "custom message"))
     = Some (Rejected (VError "custom message"))
  /\ resolved 8
       (let* w := ResultAsync.err (VStr "error") in
        on_wrapper w (fun p => ResultAsync.unwrap p))
     = Some (Rejected
               (VError "Called Result.unwrap() on an Err value: error"))
  /\ resolved 8
       (let* w := OptionAsync.some (VNum 42) in
        on_wrapper w (fun p => OptionAsync.unwrap p))
     = Some (Fulfilled (VNum 42)).
Proof. repeat split; reflexivity. Qed.

Example test_try :
  resolved 8 (OptionAsync.try (Throw (VError "fail")))
  = Some (Fulfilled (VOption OptionNone))
  /\ resolved 8 (OptionAsync.try (Ret (VNum 42)))
     = Some (Fulfilled (VOption (OptionSome (VNum 42))))
  /\ resolved 8 (ResultAsync.try (Throw (VError "sync error")) None)
     = Some (Fulfilled (VResult (ResultErr (VError "sync error"))))
  /\ resolved 8 (ResultAsync.try (async (Throw (VError "async error"))) None)
     = Some (Fulfilled (VResult (ResultErr (VError "async error"))))
  /\ resolved 8 (ResultAsync.try (async (Ret (VNum 42))) None)
     = Some (Fulfilled (VResult (ResultOk (VNum 42))))
  /\ resolved 8
       (ResultAsync.try
          (async (let* _ := await (VNum 0) in Throw (VError "late"))) None)
     = Some (Fulfilled (VResult (ResultErr (VError "late")))).
Proof. repeat split; reflexivity. Qed.

Example test_toAsync :
  resolved 8 (ResultAsync.toAsync (Ok (VNum 42)))
  = Some (Fulfilled (VResult (ResultOk (VNum 42))))
  /\ resolved 8 (ResultAsync.toAsync (Err (VStr "error")))
     = Some (Fulfilled (VResult (ResultErr (VStr "error"))))
  /\ resolved 8 (OptionAsync.toAsync (mkSome (VNum 42)))
     = Some (Fulfilled (VOption (OptionSome (VNum 42))))
  /\ resolved 8 (OptionAsync.toAsync mkNone)
     = Some (Fulfilled (VOption OptionNone)).
Proof. repeat split; reflexivity. Qed.

(** [inspect] on an [Ok] calls the callback and passes the result on;
    on an [Err] it does not call it. *)
Example test_inspect :
  (let '(_, s) :=
     exec (let* w := ResultAsync.ok (VNum 42) in
           on_wrapper w (fun p => ResultAsync.inspect p (flag "seen")))
       initial in
   emitted "seen" (log (drain 8 s))) = [VNum 42]
  /\ (let '(_, s) :=
        exec (let* w := ResultAsync.err (VStr "error") in
              on_wrapper w (fun p => ResultAsync.inspect p (flag "seen")))
          initial in
      emitted "seen" (log (drain 8 s))) = [].
Proof. split; reflexivity. Qed.
(** ** Further laws of the synchronous types *)

Lemma collect_loop_oks oks : forall values rest,
  collect_loop (map Ok oks ++ rest) values
  = collect_loop rest (values ++ oks).
Proof.
  induction oks as [|v oks IH]; intros values rest; cbn.
  - by rewrite app_nil_r.
  - by rewrite IH, <- app_assoc.
Qed.

(** X1: [collect] returns the first [Err] of the list, the very result
    that stands there, whatever comes after it; when there is none it
    returns [Ok] of the array of all the payloads in the order of the
    list. *)
Theorem collect_first_err (oks : list val) (e : val)
    (rest : list (Result val val)) :
  collect (map Ok oks ++ Err e :: rest) = Err e
  /\ collect (map Ok oks) = Ok (VArray oks).
Proof.
  unfold collect. split.
  - by rewrite collect_loop_oks.
  - rewrite <- (app_nil_r (map Ok oks)). by rewrite collect_loop_oks.
Qed.

(** X2: [and], [or] and [xor] of two options are present as the
    conjunction, the disjunction and the exclusive disjunction of the
    two tell; what [or] and [xor] return is one of the two operands,
    the receiver first. *)
Theorem option_presence (a b : Option val) :
  Option.is_some (Option.and a b) = Option.is_some a && Option.is_some b
  /\ Option.is_some (Option.or a b) = Option.is_some a || Option.is_some b
  /\ Option.is_some (Option.xor a b)
     = xorb (Option.is_some a) (Option.is_some b)
  /\ (Option.is_some a = true -> Option.or a b = a)
  /\ (Option.is_some a = false -> Option.or a b = b)
  /\ (Option.is_some (Option.xor a b) = true ->
      Option.xor a b = if Option.is_some a then a else b).
Proof. by destruct a, b. Qed.

(** X3: of [r.ok()] and [r.err()] exactly one is present, and it holds
    the payload of [r]. *)
Theorem ok_err_exactly_one (r : Result val val) :
  Option.xor (Result.ok r) (Result.err r) = OptionSome (Result.value r)
  /\ Option.and (Result.ok r) (Result.err r) = OptionNone
  /\ Option.is_some (Result.ok r) = Result.is_ok r
  /\ Option.is_some (Result.err r) = Result.is_err r.
Proof. by destruct r. Qed.

(** X4: [a.zip_with(b, f)] is [a.zip(b).map(([x, y]) => f(x, y))]: the
    callback is called, once, when both options are present and not
    otherwise. *)
Theorem zip_with_is_zip_then_map (a b : Option val) (f : val -> val -> prog)
    (s : state) :
  exec (Option.zip_with a b f) s
  = exec (Option.map (Option.zip a b)
            (fun pair =>
               match pair with
               | VArray [x; y] => f x y
               | _ => Throw (type_error "not a pair")
               end)) s
  /\ Option.is_some (Option.zip a b) = Option.is_some a && Option.is_some b.
Proof. by destruct a, b. Qed.

(** X5: for a callback that returns an option, [o.map(f).flatten()]
    is [o.and_then(f)]; and likewise for a result. *)
Theorem flatten_map_is_and_then (f g : val -> prog) (s : state) :
  (forall x r s', exec (f x) s = (r, s') ->
     match r with
     | Normal v => exists o', v = VOption o'
     | Thrown _ => True
     | Suspend _ _ => False
     end) ->
  (forall x r s', exec (g x) s = (r, s') ->
     match r with
     | Normal v => exists r', v = VResult r'
     | Thrown _ => True
     | Suspend _ _ => False
     end) ->
  (forall o,
     exec (let* m := Option.map o f in
           on_option m (fun o' => Ret (Option.flatten o'))) s
     = exec (Option.and_then o f) s)
  /\ (forall r,
        exec (let* m := Result.map r g in
              on_result m (fun r' => Ret (Result.flatten r'))) s
        = exec (Result.and_then r g) s).
Proof.
  intros Hf Hg. split.
  - intros [x|]; [|done]. unfold Option.map, OptionSome.map, Option.and_then,
      OptionSome.and_then. rewrite !exec_bind.
    pose proof (Hf x) as Hx.
    destruct (exec (f x) s) as [[v|e|w k] s']; cbn; try done.
    + by destruct (Hx _ _ eq_refl) as [o' ->].
    + by destruct (Hx _ _ eq_refl).
  - intros [x|e]; [|done]. unfold Result.map, ResultOk.map, Result.and_then,
      ResultOk.and_then. rewrite !exec_bind.
    pose proof (Hg x) as Hx.
    destruct (exec (g x) s) as [[v|e|w k] s']; cbn; try done.
    + by destruct (Hx _ _ eq_refl) as [r' ->].
    + by destruct (Hx _ _ eq_refl).
Qed.

Lemma flatten_map_is_and_then_witness :
  let f := fun x => Ret (VOption (OptionSome x)) in
  let g := fun x => Ret (VResult (ResultErr x)) in
  let s := mkState [] [] [] in
  (forall x r s', exec (f x) s = (r, s') ->
     match r with
     | Normal v => exists o', v = VOption o'
     | Thrown _ => True
     | Suspend _ _ => False
     end)
  /\ (forall x r s', exec (g x) s = (r, s') ->
        match r with
        | Normal v => exists r', v = VResult r'
        | Thrown _ => True
        | Suspend _ _ => False
        end)
  /\ exec (let* m := Option.map (OptionSome (VNum 1)) f in
           on_option m (fun o' => Ret (Option.flatten o'))) s
     = exec (Option.and_then (OptionSome (VNum 1)) f) s
  /\ exec (let* m := Result.map (ResultOk (VNum 1)) g in
           on_result m (fun r' => Ret (Result.flatten r'))) s
     = exec (Result.and_then (ResultOk (VNum 1)) g) s.
Proof.
  intros f g s.
  assert (Hf : forall x r s', exec (f x) s = (r, s') ->
     match r with
     | Normal v => exists o', v = VOption o'
     | Thrown _ => True
     | Suspend _ _ => False
     end).
  { intros x r s' [= <- <-]. by eexists. }
  assert (Hg : forall x r s', exec (g x) s = (r, s') ->
     match r with
     | Normal v => exists r', v = VResult r'
     | Thrown _ => True
     | Suspend _ _ => False
     end).
  { intros x r s' [= <- <-]. by eexists. }
  split; [exact Hf|]. split; [exact Hg|].
  destruct (flatten_map_is_and_then f g s Hf Hg) as [Ho Hr].
  split; [apply (Ho (OptionSome (VNum 1))) | apply (Hr (ResultOk (VNum 1)))].
Defined.

(** X6: [transpose] of an option after [transpose] of a result gives
    back the tag and the payload of the result, when the payload of an
    [Ok] is an option. *)
Theorem transpose_round_trip (r : Result val val) (s : state) :
  (forall v, r = ResultOk v -> exists o, v = VOption o) ->
  exists t,
    exec (Result.transpose r) s = (Normal (VOption t), s)
    /\ Option.transpose t
       = Plain.Returns
           (Plain.mk (if Result.is_ok r then "Ok" else "Err") (Result.value r)).
Proof.
  intros Hr. destruct r as [v|e].
  - destruct (Hr v eq_refl) as [[x|] ->]; by eexists.
  - by eexists.
Qed.

Lemma transpose_round_trip_witness :
  let r := ResultOk (VOption (OptionSome (VNum 5))) in
  let s := mkState [] [] [] in
  (forall v, r = ResultOk v -> exists o, v = VOption o)
  /\ exists t,
    exec (Result.transpose r) s = (Normal (VOption t), s)
    /\ Option.transpose t
       = Plain.Returns (Plain.mk "Ok" (VOption (OptionSome (VNum 5)))).
Proof.
  intros r s.
  assert (Hr : forall v, r = ResultOk v -> exists o, v = VOption o).
  { intros v [= <-]. by eexists. }
  split; [exact Hr|]. exact (transpose_round_trip r s Hr).
Defined.

(** X7: [try_catch] never throws. It returns [Ok] of what the function
    returns and [Err] of what it throws, the side effects of the
    function having taken place. *)
Theorem try_catch_never_throws (fn : prog) (s s' : state) (r : completion) :
  exec fn s = (r, s') ->
  returns_or_throws r ->
  exists res,
    exec (try_catch_ fn) s = (Normal (VResult res), s')
    /\ match r with
       | Normal v => res = ResultOk v
       | Thrown e => res = ResultErr e
       | Suspend _ _ => False
       end.
Proof.
  intros Hfn Hr. unfold try_catch_. rewrite exec_try_catch, exec_bind, Hfn.
  destruct r as [v|e|w k]; [by eexists | by eexists | done].
Qed.

Lemma try_catch_never_throws_witness :
  let fn := Emit "called" VNull (Throw (VError "boom")) in
  let s := mkState [] [] [] in
  let s' := mkState [] [] [EvEmit "called" VNull] in
  exec fn s = (Thrown (VError "boom"), s')
  /\ returns_or_throws (Thrown (VError "boom"))
  /\ exists res,
       exec (try_catch_ fn) s = (Normal (VResult res), s')
       /\ res = ResultErr (VError "boom").
Proof.
  intros fn s s'. split; [reflexivity|]. split; [exact I|].
  exact (try_catch_never_throws fn s s' (Thrown (VError "boom")) eq_refl I).
Defined.



(** X9: [matchResult] is [map_or_else] with the handlers swapped, and
    [matchOption] with a [None] handler that returns [d] is [map_or]
    with default [d]: one handler is called, the one of the variant. *)
Theorem match_is_map_or (r : Result val val) (o : Option val)
    (f g : val -> prog) (d : val) :
  matchResult r f g = Result.map_or_else r g f
  /\ matchOption o f (Ret d) = Option.map_or o d f.
Proof. by destruct r, o. Qed.
(** ** The chaining methods, followed to the end *)

Lemma state_eta s : mkState (cells s) (queue s) (log s ++ []) = s.
Proof. destruct s. cbn. by rewrite app_nil_r. Qed.

(** Attaching a reaction to a promise that nothing is waiting for and
    settling the promise comes to scheduling the reaction. *)
Lemma subscribe_then_settle s p r st :
  queue s = [] ->
  outcome s p = Some st \/ cells s !! p = Some (Pending []) ->
  settle p st (subscribe p r s)
  = mkState (<[p := Settled st]> (cells s)) [(r.1, r.2 st)] (log s).
Proof.
  intros Hq [Hp|Hp].
  - rewrite (subscribe_settled _ _ _ _ Hp).
    rewrite (settle_settled _ _ _ st); [|done].
    apply outcome_Some in Hp. unfold enqueue. rewrite Hq. cbn [app].
    by rewrite list_insert_id.
  - rewrite (subscribe_pending _ _ _ _ Hp).
    erewrite settle_pending; cycle 1.
    { cbn [cells]. apply list_lookup_insert_eq. by eapply lookup_lt_Some. }
    cbn [cells queue log]. rewrite Hq, list_insert_insert_eq. done.
Qed.

(** What was known of [s] when [this] has settled is true of the state
    in which the reaction runs. *)
Lemma holds_after_settle s this st lg :
  outcome s this = Some st \/ cells s !! this = Some (Pending []) ->
  holds (outcome (settle this st s))
    (mkState (<[this := Settled st]> (cells s ++ [Pending []])) [] lg).
Proof.
  intros Hthis p st' Hp. unfold outcome in *. cbn [cells].
  assert (Hlt : this < length (cells s)).
  { destruct Hthis as [H%outcome_Some|H]; by eapply lookup_lt_Some. }
  assert (Hcells : cells (settle this st s) = <[this := Settled st]> (cells s)).
  { destruct Hthis as [H|H].
    - rewrite (settle_settled _ _ _ _ H). apply outcome_Some in H.
      by rewrite list_insert_id.
    - by rewrite (settle_pending _ _ _ _ H). }
  rewrite Hcells in Hp.
  assert (p < length (cells s)).
  { destruct (<[this:=Settled st]> (cells s) !! p) eqn:E; [|done].
    apply lookup_lt_Some in E. by rewrite length_insert in E. }
  rewrite insert_app_l by done.
  by rewrite lookup_app_l by (by rewrite length_insert).
Qed.

Section Chained.
Variables (s : state) (this : nat) (st : settled) (mk : nat -> val).
Hypothesis idle : queue s = [].
Hypothesis this_unobserved :
  outcome s this = Some st \/ cells s !! this = Some (Pending []).

(** A chaining method whose callback is a plain function that only
    computes. *)
Lemma then_sync_settles cb evs r o fuel :
  emits (cb st) evs r ->
  settles_with r = Some o ->
  0 < fuel ->
  let sF := finally fuel (PromiseThen this cb (fun p => Ret (mk p))) this st s in
  outcome sF (fresh s) = Some o
  /\ queue sF = []
  /\ log sF = log s ++ evs.
Proof.
  intros Hcb Hr Hfuel sF. subst sF. unfold finally. cbn [exec snd].
  assert (Hlt : this < length (cells s)).
  { destruct this_unobserved as [H%outcome_Some|H]; by eapply lookup_lt_Some. }
  rewrite subscribe_then_settle; [|done|].
  2:{ destruct this_unobserved as [H|H]; [left; by apply outcome_alloc|right].
      cbn. by rewrite lookup_app_l. }
  cbn [fst snd cells log alloc]. destruct fuel as [|fuel]; [lia|].
  rewrite drain_step. unfold run_job. cbn [fst snd]. rewrite Hcb.
  rewrite (complete_settles _ _ _ _ Hr).
  rewrite (settle_pending _ _ _ []).
  2:{ cbn [cells]. rewrite list_lookup_insert_ne by (unfold fresh; lia).
      apply (lookup_alloc_fresh s). }
  cbn [cells queue log map app]. rewrite drain_idle by done.
  split_and!; try done.
  unfold outcome. cbn [cells]. rewrite list_lookup_insert_eq; [done|].
  rewrite length_insert, length_app. cbn. unfold fresh. lia.
Qed.

(** A chaining method whose callback is an [async] function the body
    of which only computes. *)
Lemma then_async_settles cb body o n l fuel :
  cb st = async body ->
  settles_to (outcome (settle this st s)) body o n l ->
  S n < fuel ->
  let sF := finally fuel (PromiseThen this cb (fun p => Ret (mk p))) this st s in
  outcome sF (fresh s) = Some o
  /\ queue sF = []
  /\ log sF = log s ++ l.
Proof.
  intros Hcb Hbody Hfuel sF. subst sF. unfold finally. cbn [exec snd].
  assert (Hlt : this < length (cells s)).
  { destruct this_unobserved as [H%outcome_Some|H]; by eapply lookup_lt_Some. }
  rewrite subscribe_then_settle; [|done|].
  2:{ destruct this_unobserved as [H|H]; [left; by apply outcome_alloc|right].
      cbn. by rewrite lookup_app_l. }
  cbn [fst snd cells log alloc].
  set (B := mkState (<[this := Settled st]> (cells s ++ [Pending []])) []
              (log s)).
  assert (HfB : fresh B = S (fresh s)).
  { unfold fresh. cbn. rewrite length_insert, length_app. cbn. lia. }
  destruct (async_call_observed (outcome (settle this st s)) body o n l B
              (fresh s) resume
              match o with Fulfilled v => Normal v | Rejected e => Thrown e end
              o [])
    as [Hret (lg & Hrun & Hlog)]; try done.
  { by apply holds_after_settle. }
  { cbn [B cells]. rewrite list_lookup_insert_ne by (unfold fresh; lia).
    apply (lookup_alloc_fresh s). }
  { apply computes_resume. }
  { apply resume_settles_with, (settles_to_plain _ _ _ _ _ Hbody). }
  rewrite state_eta in Hrun.
  replace fuel with (S (S n) + (fuel - S (S n))) by lia.
  rewrite drain_add. cbn [Nat.add]. rewrite drain_step. rewrite Hcb.
  fold B.
  assert (Hjob : run_job (fresh s, async body) B
                 = subscribe (fresh B) (fresh s, resume) (exec (async body) B).2).
  { unfold run_job. cbn [fst snd].
    destruct (exec (async body) B) as [r1 s1] eqn:E. cbn [fst snd] in *.
    subst r1. done. }
  rewrite Hjob, Hrun, drain_idle by done.
  rewrite (Hlog eq_refl). split_and!; try done.
  unfold outcome. cbn [cells]. rewrite list_lookup_insert_eq; [done|].
  rewrite length_app. cbn [B cells]. rewrite length_insert, length_app.
  cbn. unfold fresh. lia.
Qed.

(** An [async] method that awaits the promise of the receiver first. *)
Lemma async_await_settles body evs0 w k o n l fuel :
  emits body evs0 (Suspend w k) ->
  thenable w = Some this ->
  settles_to (outcome (settle this st s)) (k st) o n l ->
  n < fuel ->
  let sF := finally fuel (AsyncCall body (fun q => Ret (mk q))) this st s in
  outcome sF (fresh s) = Some o
  /\ queue sF = []
  /\ log sF = log s ++ evs0 ++ EvAwait w :: l.
Proof.
  intros Hbody Hw Hrest Hfuel sF. subst sF. unfold finally. cbn [exec].
  assert (Hlt : this < length (cells s)).
  { destruct this_unobserved as [H%outcome_Some|H]; by eapply lookup_lt_Some. }
  rewrite Hbody. cbn [exec complete snd]. unfold park. rewrite Hw.
  rewrite subscribe_then_settle; [|done|].
  2:{ cbn [record cells alloc].
      destruct this_unobserved as [H|H]; [left|right].
      - apply outcome_Some in H. apply outcome_Some. cbn.
        by rewrite lookup_app_l.
      - by rewrite lookup_app_l. }
  cbn [fst snd cells log alloc record].
  replace fuel with (S n + (fuel - S n)) by lia.
  rewrite drain_add. cbn [Nat.add]. rewrite drain_step.
  rewrite (job_settles _ _ _ _ _ Hrest _ (fresh s) []); try done.
  - cbn [cells log map]. rewrite drain_idle by done.
    split_and!; try done.
    + unfold outcome. cbn [cells]. rewrite list_lookup_insert_eq; [done|].
      rewrite length_insert, length_app. cbn. unfold fresh. lia.
    + by rewrite <- !app_assoc.
  - by apply holds_after_settle.
  - cbn [cells]. rewrite list_lookup_insert_ne by (unfold fresh; lia).
    apply (lookup_alloc_fresh s).
Qed.
End Chained.

(** The promise of an activation that completes on the spot. *)
Lemma settles_at_once known c r o :
  computes c r -> settles_with r = Some o -> settles_to known c o 0 [].
Proof. intros Hc Hr. eapply settles_now; [by apply computes_emits|done]. Qed.

(** X10: the chaining methods short-circuit. On a wrapper that resolves
    to [Err(e)], [map], [andThen] and [and] give a wrapper that
    resolves to [Err(e)]; on one that resolves to [Ok(x)], [mapErr],
    [orElse] and [or] give one that resolves to [Ok(x)]; on one that
    resolves to [None], [map], [andThen], [and], [filter], [zip] and
    [zipWith] give one that resolves to [None]; on one that resolves to
    [Some(x)], [orElse] and [or] give one that resolves to [Some(x)].
    No callback is called and the other wrapper is not awaited: the
    log is as it was. *)
Theorem async_short_circuit (s : state) (this : nat) (fuel : nat) :
  queue s = [] ->
  1 < fuel ->
  (forall e fn other c,
      let st := Fulfilled (VResult (ResultErr e)) in
      outcome s this = Some st \/ cells s !! this = Some (Pending []) ->
      c ∈ [ResultAsync.map this fn; ResultAsync.andThen this fn;
           ResultAsync.and this other] ->
      let sF := finally fuel c this st s in
      outcome sF (fresh s) = Some st /\ queue sF = [] /\ log sF = log s)
  /\ (forall x fn other c,
        let st := Fulfilled (VResult (ResultOk x)) in
        outcome s this = Some st \/ cells s !! this = Some (Pending []) ->
        c ∈ [ResultAsync.mapErr this fn; ResultAsync.orElse this fn;
             ResultAsync.or this other] ->
        let sF := finally fuel c this st s in
        outcome sF (fresh s) = Some st /\ queue sF = [] /\ log sF = log s)
  /\ (forall fn fn2 other c,
        let st := Fulfilled (VOption OptionNone) in
        outcome s this = Some st \/ cells s !! this = Some (Pending []) ->
        c ∈ [OptionAsync.map this fn; OptionAsync.andThen this fn;
             OptionAsync.and this other; OptionAsync.filter this fn;
             OptionAsync.zip this other; OptionAsync.zipWith this other fn2] ->
        let sF := finally fuel c this st s in
        outcome sF (fresh s) = Some st /\ queue sF = [] /\ log sF = log s)
  /\ (forall x thunk other c,
        let st := Fulfilled (VOption (OptionSome x)) in
        outcome s this = Some st \/ cells s !! this = Some (Pending []) ->
        c ∈ [OptionAsync.orElse this thunk; OptionAsync.or this other] ->
        let sF := finally fuel c this st s in
        outcome sF (fresh s) = Some st /\ queue sF = [] /\ log sF = log s).
Proof.
  intros Hq Hfuel.
  assert (Hgo : forall st mk cb body,
    outcome s this = Some st \/ cells s !! this = Some (Pending []) ->
    cb st = async body ->
    computes body match st with Fulfilled v => Normal v | Rejected e => Thrown e end ->
    (forall v, st = Fulfilled v -> thenable v = None) ->
    let sF := finally fuel (PromiseThen this cb (fun p => Ret (mk p))) this st s in
    outcome sF (fresh s) = Some st /\ queue sF = [] /\ log sF = log s).
  { intros st mk cb body Hthis Hcb Hbody Hv.
    destruct (then_async_settles s this st mk Hq Hthis cb body st 0 [] fuel)
      as (H1 & H2 & H3); try done.
    - eapply settles_at_once; [done|]. by apply resume_settles_with.
    - by rewrite app_nil_r in H3. }
  split_and!.
  - intros e fn other c st Hthis Hc.
    repeat (apply elem_of_cons in Hc as [->|Hc]);
      [..|by apply elem_of_nil in Hc];
      (eapply Hgo; [done | reflexivity | by intros ? | by intros ? [= <-]]).
  - intros x fn other c st Hthis Hc.
    repeat (apply elem_of_cons in Hc as [->|Hc]);
      [..|by apply elem_of_nil in Hc];
      (eapply Hgo; [done | reflexivity | by intros ? | by intros ? [= <-]]).
  - intros fn fn2 other c st Hthis Hc.
    repeat (apply elem_of_cons in Hc as [->|Hc]);
      [..|by apply elem_of_nil in Hc];
      (eapply Hgo; [done | reflexivity | by intros ? | by intros ? [= <-]]).
  - intros x thunk other c st Hthis Hc.
    repeat (apply elem_of_cons in Hc as [->|Hc]);
      [..|by apply elem_of_nil in Hc];
      (eapply Hgo; [done | reflexivity | by intros ? | by intros ? [= <-]]).
Qed.

Lemma async_short_circuit_witness :
  let s := mkState [Pending []] [] [] in
  let st := Fulfilled (VResult (ResultErr (VStr "e"))) in
  let sF := finally 2 (ResultAsync.map 0 (flag "called")) 0 st s in
  queue s = [] /\ 1 < 2
  /\ outcome sF 1 = Some st /\ queue sF = [] /\ log sF = [].
Proof.
  intros s st sF.
  assert (H1 : 1 < 2) by lia.
  destruct (async_short_circuit s 0 2 eq_refl H1) as (Herr & _).
  split; [reflexivity|]. split; [exact H1|].
  apply (Herr (VStr "e") (flag "called") 0 (ResultAsync.map 0 (flag "called"))).
  - right. reflexivity.
  - apply elem_of_cons. left. reflexivity.
Defined.

(** X11: [map] applies the callback to the payload and awaits what it
    returns. On a wrapper that resolves to [Ok(x)] (to [Some(x)]), with
    a callback that returns [y], not a thenable, [map] gives a wrapper
    that resolves to [Ok(y)] (to [Some(y)]); likewise [mapErr] on
    [Err(x)]. The callback has been called once, and what it returned
    has been awaited. *)
Theorem async_map_applies (s : state) (this : nat) (fuel : nat)
    (fn : val -> prog) (x y : val) (evs : list event) :
  queue s = [] ->
  2 < fuel ->
  emits (fn x) evs (Normal y) ->
  thenable y = None ->
  (let st := Fulfilled (VResult (ResultOk x)) in
   outcome s this = Some st \/ cells s !! this = Some (Pending []) ->
   let sF := finally fuel (ResultAsync.map this fn) this st s in
   outcome sF (fresh s) = Some (Fulfilled (VResult (ResultOk y)))
   /\ queue sF = [] /\ log sF = log s ++ evs ++ [EvAwait y])
  /\ (let st := Fulfilled (VResult (ResultErr x)) in
      outcome s this = Some st \/ cells s !! this = Some (Pending []) ->
      let sF := finally fuel (ResultAsync.mapErr this fn) this st s in
      outcome sF (fresh s) = Some (Fulfilled (VResult (ResultErr y)))
      /\ queue sF = [] /\ log sF = log s ++ evs ++ [EvAwait y])
  /\ (let st := Fulfilled (VOption (OptionSome x)) in
      outcome s this = Some st \/ cells s !! this = Some (Pending []) ->
      let sF := finally fuel (OptionAsync.map this fn) this st s in
      outcome sF (fresh s) = Some (Fulfilled (VOption (OptionSome y)))
      /\ queue sF = [] /\ log sF = log s ++ evs ++ [EvAwait y]).
Proof.
  intros Hq Hfuel Hfn Hy.
  assert (Hgo : forall st mk cb (wrap : val -> val),
    outcome s this = Some st \/ cells s !! this = Some (Pending []) ->
    cb st = async (let* u := fn x in let* v := await u in Ret (wrap v)) ->
    thenable (wrap y) = None ->
    let sF := finally fuel (PromiseThen this cb (fun p => Ret (mk p))) this st s in
    outcome sF (fresh s) = Some (Fulfilled (wrap y))
    /\ queue sF = [] /\ log sF = log s ++ evs ++ [EvAwait y]).
  { intros st mk cb wrap Hthis Hcb Hw.
    apply (then_async_settles s this st mk Hq Hthis cb
             (let* u := fn x in let* v := await u in Ret (wrap v))
             (Fulfilled (wrap y)) 1 (evs ++ EvAwait y :: []) fuel);
      try done.
    apply (settles_await_value _ _ evs y
             (fun st' => let* v := resume st' in Ret (wrap v)));
      [|done|].
    - intros s'. by rewrite exec_bind, Hfn.
    - apply settles_at_once with (r := Normal (wrap y)); [done|].
      cbn. by rewrite Hw. }
  split_and!; intros st Hthis.
  - by apply (Hgo st VResultAsync _ (fun v => VResult (ResultOk v))).
  - by apply (Hgo st VResultAsync _ (fun v => VResult (ResultErr v))).
  - by apply (Hgo st VOptionAsync _ (fun v => VOption (OptionSome v))).
Qed.

Lemma async_map_applies_witness :
  let s := mkState [Pending []] [] [] in
  let fn := fun v => Emit "called" v (Ret (VNum 2)) in
  let st := Fulfilled (VOption (OptionSome (VNum 1))) in
  let sF := finally 3 (OptionAsync.map 0 fn) 0 st s in
  queue s = [] /\ 2 < 3
  /\ emits (fn (VNum 1)) [EvEmit "called" (VNum 1)] (Normal (VNum 2))
  /\ thenable (VNum 2) = None
  /\ outcome sF 1 = Some (Fulfilled (VOption (OptionSome (VNum 2))))
  /\ queue sF = []
  /\ log sF = [EvEmit "called" (VNum 1); EvAwait (VNum 2)].
Proof.
  intros s fn st sF.
  assert (H1 : 2 < 3) by lia.
  assert (H2 : emits (fn (VNum 1)) [EvEmit "called" (VNum 1)] (Normal (VNum 2)))
    by (intros s0; reflexivity).
  destruct (async_map_applies s 0 3 fn (VNum 1) (VNum 2)
              [EvEmit "called" (VNum 1)] eq_refl H1 H2 eq_refl)
    as (_ & _ & Hsome).
  split; [reflexivity|]. split; [exact H1|]. split; [exact H2|].
  split; [reflexivity|].
  apply Hsome. right. reflexivity.
Defined.



(** X13: a rejection passes through the chaining methods. When the
    promise behind the receiver rejects with [e], the wrapper each of
    them returns rejects with [e], and no callback has been called. *)
Theorem rejection_passes_through (s : state) (this : nat) (fuel : nat)
    (e : val) :
  queue s = [] ->
  outcome s this = Some (Rejected e) \/ cells s !! this = Some (Pending []) ->
  0 < fuel ->
  forall fn fn2 thunk other c,
    c ∈ [ResultAsync.map this fn; ResultAsync.mapErr this fn;
         ResultAsync.andThen this fn; ResultAsync.orElse this fn;
         ResultAsync.and this other; ResultAsync.or this other;
         ResultAsync.inspect this fn; ResultAsync.inspectErr this fn;
         ResultAsync.flatten this;
         OptionAsync.map this fn; OptionAsync.andThen this fn;
         OptionAsync.orElse this thunk; OptionAsync.and this other;
         OptionAsync.or this other; OptionAsync.filter this fn;
         OptionAsync.inspect this fn; OptionAsync.flatten this;
         OptionAsync.zip this other; OptionAsync.zipWith this other fn2] ->
    let sF := finally fuel c this (Rejected e) s in
    outcome sF (fresh s) = Some (Rejected e)
    /\ queue sF = [] /\ log sF = log s.
Proof.
  intros Hq Hthis Hfuel fn fn2 thunk other c Hc.
  assert (Hgo : forall mk cb,
    cb (Rejected e) = Throw e ->
    let sF := finally fuel (PromiseThen this cb (fun p => Ret (mk p))) this
                (Rejected e) s in
    outcome sF (fresh s) = Some (Rejected e)
    /\ queue sF = [] /\ log sF = log s).
  { intros mk cb Hcb.
    destruct (then_sync_settles s this (Rejected e) mk Hq Hthis cb []
                (Thrown e) (Rejected e) fuel) as (H1 & H2 & H3); try done.
    - rewrite Hcb. by apply computes_emits.
    - by rewrite app_nil_r in H3. }
  repeat (apply elem_of_cons in Hc as [->|Hc]);
    [..|by apply elem_of_nil in Hc]; by apply Hgo.
Qed.

Lemma rejection_passes_through_witness :
  let s := mkState [Pending []] [] [] in
  let e := VError "down" in
  let sF := finally 1 (OptionAsync.map 0 (flag "called")) 0 (Rejected e) s in
  queue s = []
  /\ (outcome s 0 = Some (Rejected e) \/ cells s !! 0 = Some (Pending []))
  /\ 0 < 1
  /\ outcome sF 1 = Some (Rejected e) /\ queue sF = [] /\ log sF = [].
Proof.
  intros s e sF.
  assert (H0 : outcome s 0 = Some (Rejected e) \/ cells s !! 0 = Some (Pending []))
    by (right; reflexivity).
  assert (H1 : 0 < 1) by lia.
  split; [reflexivity|]. split; [exact H0|]. split; [exact H1|].
  apply (rejection_passes_through s 0 1 e eq_refl H0 H1 (flag "called")
           (fun _ _ => Ret VNull) (Ret VNull) 0).
  repeat (first [by apply list_elem_of_here | apply list_elem_of_further]).
Defined.

(** X14: an exception in a callback of a chaining method rejects the
    wrapper the method returns; it does not become an [Err] or a
    [None]. This holds of [map] and [andThen] on [Ok(x)] and on
    [Some(x)], of [mapErr] and [orElse] on [Err(x)], and of [filter]
    on [Some(x)]. *)
Theorem callback_throw_rejects (s : state) (this : nat) (fuel : nat)
    (fn : val -> prog) (x e : val) (evs : list event) :
  queue s = [] ->
  1 < fuel ->
  emits (fn x) evs (Thrown e) ->
  (forall c,
      let st := Fulfilled (VResult (ResultOk x)) in
      outcome s this = Some st \/ cells s !! this = Some (Pending []) ->
      c ∈ [ResultAsync.map this fn; ResultAsync.andThen this fn] ->
      let sF := finally fuel c this st s in
      outcome sF (fresh s) = Some (Rejected e)
      /\ queue sF = [] /\ log sF = log s ++ evs)
  /\ (forall c,
        let st := Fulfilled (VResult (ResultErr x)) in
        outcome s this = Some st \/ cells s !! this = Some (Pending []) ->
        c ∈ [ResultAsync.mapErr this fn; ResultAsync.orElse this fn] ->
        let sF := finally fuel c this st s in
        outcome sF (fresh s) = Some (Rejected e)
        /\ queue sF = [] /\ log sF = log s ++ evs)
  /\ (forall c,
        let st := Fulfilled (VOption (OptionSome x)) in
        outcome s this = Some st \/ cells s !! this = Some (Pending []) ->
        c ∈ [OptionAsync.map this fn; OptionAsync.andThen this fn;
             OptionAsync.filter this fn] ->
        let sF := finally fuel c this st s in
        outcome sF (fresh s) = Some (Rejected e)
        /\ queue sF = [] /\ log sF = log s ++ evs).
Proof.
  intros Hq Hfuel Hfn.
  assert (Hgo : forall st mk cb (K : val -> prog),
    outcome s this = Some st \/ cells s !! this = Some (Pending []) ->
    cb st = async (let* u := fn x in K u) ->
    let sF := finally fuel (PromiseThen this cb (fun p => Ret (mk p))) this st s in
    outcome sF (fresh s) = Some (Rejected e)
    /\ queue sF = [] /\ log sF = log s ++ evs).
  { intros st mk cb K Hthis Hcb.
    apply (then_async_settles s this st mk Hq Hthis cb
             (let* u := fn x in K u) (Rejected e) 0 evs fuel); try done.
    apply (settles_now _ _ evs (Thrown e)); [|done].
    intros s'. by rewrite exec_bind, Hfn. }
  split_and!; intros c st Hthis Hc;
    repeat (apply elem_of_cons in Hc as [->|Hc]);
    [..|by apply elem_of_nil in Hc| | |by apply elem_of_nil in Hc
     | | | |by apply elem_of_nil in Hc].
  all: try (eapply Hgo; [done|reflexivity]).
Qed.

Lemma callback_throw_rejects_witness :
  let s := mkState [Pending []] [] [] in
  let fn := fun v => Emit "called" v (Throw (VError "boom")) in
  let st := Fulfilled (VResult (ResultOk (VNum 1))) in
  let sF := finally 2 (ResultAsync.map 0 fn) 0 st s in
  queue s = [] /\ 1 < 2
  /\ emits (fn (VNum 1)) [EvEmit "called" (VNum 1)] (Thrown (VError "boom"))
  /\ outcome sF 1 = Some (Rejected (VError "boom"))
  /\ queue sF = [] /\ log sF = [EvEmit "called" (VNum 1)].
Proof.
  intros s fn st sF.
  assert (H1 : 1 < 2) by lia.
  assert (H2 : emits (fn (VNum 1)) [EvEmit "called" (VNum 1)]
                 (Thrown (VError "boom"))) by (intros s0; reflexivity).
  destruct (callback_throw_rejects s 0 2 fn (VNum 1) (VError "boom")
              [EvEmit "called" (VNum 1)] eq_refl H1 H2) as (Hok & _).
  split; [reflexivity|]. split; [exact H1|]. split; [exact H2|].
  apply (Hok (ResultAsync.map 0 fn)).
  - right. reflexivity.
  - apply list_elem_of_here.
Defined.



(** X16: [zip] awaits the other wrapper when the receiver has resolved
    to [Some], and then gives what [zip] of the two options gives. *)
Theorem zip_awaits_other (s : state) (this other : nat) (fuel : nat)
    (a : val) (b : Option val) :
  queue s = [] ->
  outcome s this = Some (Fulfilled (VOption (OptionSome a)))
  \/ cells s !! this = Some (Pending []) ->
  outcome s other = Some (Fulfilled (VOption b)) ->
  2 < fuel ->
  let st := Fulfilled (VOption (OptionSome a)) in
  let sF := finally fuel (OptionAsync.zip this other) this st s in
  outcome sF (fresh s)
    = Some (Fulfilled (VOption (Option.zip (OptionSome a) b)))
  /\ queue sF = []
  /\ log sF = log s ++ [EvAwait (VPromise other)].
Proof.
  intros Hq Hthis Hother Hfuel st sF.
  apply (then_async_settles s this st VOptionAsync Hq Hthis _
           (let* otherOption := await (VPromise other) in
            on_option otherOption (fun o' =>
              match o' with
              | OptionSome value' =>
                  Ret (VOption (mkSome (VArray [a; value'])))
              | OptionNone => Ret (VOption mkNone)
              end))
           (Fulfilled (VOption (Option.zip (OptionSome a) b))) 1
           ([] ++ EvAwait (VPromise other) :: []) fuel); try done.
  eapply (settles_await_promise _ _ [] (VPromise other) other
            (Fulfilled (VOption b))).
  - apply computes_emits. by intros s'.
  - done.
  - by apply settle_outcome.
  - apply settles_at_once
      with (r := Normal (VOption (Option.zip (OptionSome a) b)));
      [|done].
    intros s'. by destruct b.
Qed.

Lemma zip_awaits_other_witness :
  let s := mkState [Pending []; Settled (Fulfilled (VOption (OptionSome (VNum 2))))]
             [] [] in
  let st := Fulfilled (VOption (OptionSome (VNum 1))) in
  let sF := finally 3 (OptionAsync.zip 0 1) 0 st s in
  queue s = []
  /\ (outcome s 0 = Some st \/ cells s !! 0 = Some (Pending []))
  /\ outcome s 1 = Some (Fulfilled (VOption (OptionSome (VNum 2))))
  /\ 2 < 3
  /\ outcome sF 2
     = Some (Fulfilled (VOption (OptionSome (VArray [VNum 1; VNum 2]))))
  /\ queue sF = []
  /\ log sF = [EvAwait (VPromise 1)].
Proof.
  intros s st sF.
  assert (H0 : outcome s 0 = Some st \/ cells s !! 0 = Some (Pending []))
    by (right; reflexivity).
  assert (H1 : 2 < 3) by lia.
  split; [reflexivity|]. split; [exact H0|]. split; [reflexivity|].
  split; [exact H1|].
  exact (zip_awaits_other s 0 1 3 (VNum 1) (OptionSome (VNum 2)) eq_refl H0
           eq_refl H1).
Defined.

(** X17: [OptionAsync.fromNullable] makes the wrapper of
    [option_from_nullable], which is [None] on [null] and [undefined]
    and on nothing else. *)
Theorem fromNullable_is_option_from_nullable (v : val) (s : state) :
  exec (OptionAsync.fromNullable v) s
  = exec (OptionAsync.fromOption (VOption (option_from_nullable v))) s
  /\ Option.is_none (option_from_nullable v) = nullish v
  /\ (nullish v = false -> option_from_nullable v = OptionSome v).
Proof. by destruct v. Qed.

(** ** The aggregation combinators, further *)

Lemma locate_collect rs : forall i values,
  exists n,
    locate all_step all_finish (map (fun r => Some (Fulfilled (VResult r))) rs)
      i values
    = Done (Fulfilled (VResult (collect_loop rs values))) n.
Proof.
  induction rs as [|r rs IH]; intros i values; cbn.
  - by eexists.
  - destruct r as [v|e]; cbn; [apply IH | by eexists].
Qed.

(** X18: [ResultAsync.all] is [collect], asynchronously: once the
    handles have resolved, to the results [rs], whenever and in
    whatever order, the wrapper [all] returned has resolved to
    [collect(rs)]. *)
Theorem all_agrees_with_collect (s0 : state) (hs : list nat)
    (events : list (nat * settled)) (fuel : nat)
    (rs : list (Result val val)) :
  queue s0 = [] ->
  Forall (unobserved s0) hs ->
  Forall (fun ev : nat * settled => ev.1 ∈ hs) events ->
  length hs < fuel ->
  let sR := later fuel events (ResultAsync.all (map VResultAsync hs)) s0 in
  Forall2 (fun h r => outcome sR h = Some (Fulfilled (VResult r))) hs rs ->
  outcome sR (fresh s0) = Some (Fulfilled (VResult (collect rs))).
Proof.
  intros Hq Hhs Hev Hfuel sR Hall.
  destruct (all_loop_inv s0 hs fuel events Hq Hhs Hev Hfuel) as [_ HR].
  fold sR in HR. rewrite (map_outcome_results _ _ _ Hall) in HR.
  destruct (locate_collect rs 0 []) as [n Hn]. rewrite Hn in HR.
  by destruct HR as (Hout & _).
Qed.

Lemma all_agrees_with_collect_witness :
  let s0 := mkState [Pending []; Pending []] [] [] in
  let hs := [0; 1] in
  let events := [(1, Fulfilled (VResult (Err (VStr "late"))));
                 (0, Fulfilled (VResult (Ok (VNum 1))))] in
  let rs := [Ok (VNum 1); Err (VStr "late")] in
  let sR := later 3 events (ResultAsync.all (map VResultAsync hs)) s0 in
  queue s0 = []
  /\ Forall (unobserved s0) hs
  /\ Forall (fun ev : nat * settled => ev.1 ∈ hs) events
  /\ length hs < 3
  /\ Forall2 (fun h r => outcome sR h = Some (Fulfilled (VResult r))) hs rs
  /\ outcome sR 2 = Some (Fulfilled (VResult (ResultErr (VStr "late")))).
Proof.
  intros s0 hs events rs sR.
  assert (H1 : Forall (unobserved s0) hs).
  { repeat constructor; right; reflexivity. }
  assert (H2 : Forall (fun ev : nat * settled => ev.1 ∈ hs) events).
  { repeat constructor; cbn;
      repeat (first [apply list_elem_of_here | apply list_elem_of_further]). }
  assert (H3 : length hs < 3) by (cbn; lia).
  assert (H4 : Forall2 (fun h r => outcome sR h = Some (Fulfilled (VResult r)))
                 hs rs).
  { repeat constructor; reflexivity. }
  split; [reflexivity|]. split; [exact H1|]. split; [exact H2|].
  split; [exact H3|]. split; [exact H4|].
  exact (all_agrees_with_collect s0 hs events 3 rs eq_refl H1 H2 H3 H4).
Defined.

(** X19: a handle that rejects makes the aggregate reject. Once the
    handles before index [i] have resolved to [Ok] (to [Some]; to any
    result for [allSettled]) and the one at [i] has rejected with [e],
    the wrapper of [all], of [OptionAsync.all] and of [allSettled] has
    rejected with [e], and the handles after [i] have not been
    awaited. *)
Theorem aggregate_rejects (s0 : state) (hs : list nat)
    (events : list (nat * settled)) (fuel : nat) (i h : nat) (e : val) :
  queue s0 = [] ->
  Forall (unobserved s0) hs ->
  Forall (fun ev : nat * settled => ev.1 ∈ hs) events ->
  length hs < fuel ->
  hs !! i = Some h ->
  let sR := later fuel events (ResultAsync.all (map VResultAsync hs)) s0 in
  let sO := later fuel events (OptionAsync.all (map VOptionAsync hs)) s0 in
  let sS := later fuel events (ResultAsync.allSettled (map VResultAsync hs)) s0 in
  (forall values,
      Forall2 (fun h v => outcome sR h = Some (Fulfilled (VResult (ResultOk v))))
        (take i hs) values ->
      outcome sR h = Some (Rejected e) ->
      outcome sR (fresh s0) = Some (Rejected e)
      /\ log sR = log s0 ++ awaits VResultAsync hs (S i))
  /\ (forall values,
        Forall2 (fun h v =>
                   outcome sO h = Some (Fulfilled (VOption (OptionSome v))))
          (take i hs) values ->
        outcome sO h = Some (Rejected e) ->
        outcome sO (fresh s0) = Some (Rejected e)
        /\ log sO = log s0 ++ awaits VOptionAsync hs (S i))
  /\ (forall rs,
        Forall2 (fun h r => outcome sS h = Some (Fulfilled (VResult r)))
          (take i hs) rs ->
        outcome sS h = Some (Rejected e) ->
        outcome sS (fresh s0) = Some (Rejected e)
        /\ log sS = log s0 ++ awaits VResultAsync hs (S i)).
Proof.
  intros Hq Hhs Hev Hfuel Hi sR sO sS.
  destruct (all_loop_inv s0 hs fuel events Hq Hhs Hev Hfuel) as [_ HR].
  destruct (option_all_loop_inv s0 hs fuel events Hq Hhs Hev Hfuel) as [_ HO].
  destruct (allSettled_loop_inv s0 hs fuel events Hq Hhs Hev Hfuel) as [_ HS].
  fold sR in HR. fold sO in HO. fold sS in HS.
  split_and!.
  - intros values Hpre Hh.
    rewrite (locate_first_failure all_step all_finish
               (fun v => Fulfilled (VResult (ResultOk v))) sR hs i h values
               (Rejected e) (Rejected e)) in HR; try done.
    by destruct HR as (Hout & _ & Hlog).
  - intros values Hpre Hh.
    rewrite (locate_first_failure option_all_step option_all_finish
               (fun v => Fulfilled (VOption (OptionSome v))) sO hs i h values
               (Rejected e) (Rejected e)) in HO; try done.
    by destruct HO as (Hout & _ & Hlog).
  - intros rs Hpre Hh.
    assert (Hlen : length rs = i).
    { apply Forall2_length in Hpre. rewrite length_take in Hpre.
      pose proof (lookup_lt_Some _ _ _ Hi). lia. }
    rewrite <- (take_drop i hs), map_app, (drop_S _ _ _ Hi) in HS.
    rewrite (map_outcome_results _ _ _ Hpre) in HS.
    rewrite locate_results in HS. cbn in HS. rewrite Hh in HS. cbn in HS.
    rewrite Hlen in HS. rewrite <- (drop_S _ _ _ Hi), take_drop in HS.
    by destruct HS as (Hout & _ & Hlog).
Qed.

Lemma aggregate_rejects_witness :
  let s0 := mkState [Pending []; Pending []; Pending []] [] [] in
  let hs := [0; 1; 2] in
  let e := VError "down" in
  let events := [(1, Rejected e); (0, Fulfilled (VResult (Ok (VNum 1))))] in
  let sR := later 4 events (ResultAsync.all (map VResultAsync hs)) s0 in
  queue s0 = []
  /\ Forall (unobserved s0) hs
  /\ Forall (fun ev : nat * settled => ev.1 ∈ hs) events
  /\ length hs < 4
  /\ hs !! 1 = Some 1
  /\ Forall2 (fun h v => outcome sR h = Some (Fulfilled (VResult (ResultOk v))))
       (take 1 hs) [VNum 1]
  /\ outcome sR 1 = Some (Rejected e)
  /\ outcome sR 3 = Some (Rejected e)
  /\ log sR = [EvAwait (VResultAsync 0); EvAwait (VResultAsync 1)].
Proof.
  intros s0 hs e events sR.
  assert (H1 : Forall (unobserved s0) hs).
  { repeat constructor; right; reflexivity. }
  assert (H2 : Forall (fun ev : nat * settled => ev.1 ∈ hs) events).
  { repeat constructor; cbn;
      repeat (first [apply list_elem_of_here | apply list_elem_of_further]). }
  assert (H3 : length hs < 4) by (cbn; lia).
  assert (H4 : Forall2 (fun h v =>
                  outcome sR h = Some (Fulfilled (VResult (ResultOk v))))
                 (take 1 hs) [VNum 1]).
  { repeat constructor; reflexivity. }
  destruct (aggregate_rejects s0 hs events 4 1 1 e eq_refl H1 H2 H3 eq_refl)
    as (Hall & _).
  split; [reflexivity|]. split; [exact H1|]. split; [exact H2|].
  split; [exact H3|]. split; [reflexivity|]. split; [exact H4|].
  split; [reflexivity|].
  exact (Hall [VNum 1] H4 eq_refl).
Defined.

(** ** Promises turned into wrappers *)

(** [p.then(f).catch(h)], both callbacks plain functions that only
    compute. *)
Lemma then_catch_settles s promise st cb1 cb2 mk r1 o1 r2 o2 fuel :
  queue s = [] ->
  outcome s promise = Some st \/ cells s !! promise = Some (Pending []) ->
  computes (cb1 st) r1 ->
  settles_with r1 = Some o1 ->
  computes (cb2 o1) r2 ->
  settles_with r2 = Some o2 ->
  1 < fuel ->
  let c := PromiseThen promise cb1
             (fun p1 => PromiseThen p1 cb2 (fun p2 => Ret (mk p2))) in
  (exec c s).1 = Normal (mk (S (fresh s)))
  /\ outcome (finally fuel c promise st s) (S (fresh s)) = Some o2.
Proof.
  intros Hq Hthis H1 Hr1 H2 Hr2 Hfuel c. subst c. unfold finally.
  cbn [exec]. rewrite fresh_subscribe, fresh_alloc. split; [done|].
  cbn [snd].
  assert (Hlt : promise < length (cells s)).
  { destruct Hthis as [H%outcome_Some|H]; by eapply lookup_lt_Some. }
  set (p1 := fresh s). set (p2 := S (fresh s)).
  assert (Hshape : exists cs,
    settle promise st
      (subscribe p1 (p2, cb2) (alloc (subscribe promise (p1, cb1) (alloc s))))
    = mkState cs [(p1, cb1 st)] (log s)
    /\ cs !! p1 = Some (Pending [(p2, cb2)])
    /\ cs !! p2 = Some (Pending [])).
  { destruct Hthis as [Hset|Hpend].
    - rewrite (subscribe_settled (alloc s) promise (p1, cb1) st) by (by apply outcome_alloc).
      unfold enqueue, alloc. cbn [cells queue log fst snd]. rewrite Hq.
      cbn [app].
      rewrite (subscribe_pending _ p1 (p2, cb2) []).
      2:{ cbn [cells]. rewrite lookup_app_l by (rewrite length_app; cbn; unfold p1, fresh; lia).
          apply (lookup_alloc_fresh s). }
      cbn [cells queue log app].
      rewrite (settle_settled _ _ _ st).
      2:{ apply outcome_Some in Hset. apply outcome_Some. cbn [cells].
          rewrite list_lookup_insert_ne by (unfold p1, fresh; lia).
          rewrite lookup_app_l by (rewrite length_app; lia).
          by rewrite lookup_app_l. }
      eexists. split; [done|]. split.
      + apply list_lookup_insert_eq. rewrite !length_app. cbn.
        unfold p1, fresh. lia.
      + rewrite list_lookup_insert_ne by (unfold p1, p2; lia).
        unfold p2, fresh. rewrite lookup_app_r; rewrite length_app; cbn; [|lia].
        by rewrite Nat.add_1_r, Nat.sub_diag.
    - rewrite (subscribe_pending (alloc s) promise (p1, cb1) []).
      2:{ cbn. by rewrite lookup_app_l. }
      unfold alloc at 1 2. cbn [cells queue log app].
      rewrite (subscribe_pending _ p1 (p2, cb2) []).
      2:{ cbn [cells alloc]. rewrite lookup_app_l.
          - rewrite list_lookup_insert_ne by (unfold p1, fresh; lia).
            apply (lookup_alloc_fresh s).
          - rewrite length_insert, length_app. cbn. unfold p1, fresh. lia. }
      cbn [cells queue log alloc app].
      rewrite (settle_pending _ _ _ [(p1, cb1)]).
      2:{ cbn [cells]. rewrite list_lookup_insert_ne by (unfold p1, fresh; lia).
          rewrite lookup_app_l by (rewrite length_insert, length_app; lia).
          apply list_lookup_insert_eq. rewrite length_app. lia. }
      cbn [cells queue log map fst snd]. rewrite Hq. cbn [app].
      eexists. split; [done|]. split.
      + rewrite list_lookup_insert_ne by (unfold p1, fresh; lia).
        apply list_lookup_insert_eq.
        rewrite length_app, length_insert, length_app. cbn.
        unfold p1, fresh. lia.
      + rewrite !list_lookup_insert_ne by (unfold p1, p2, fresh; lia).
        unfold p2, fresh.
        rewrite lookup_app_r; rewrite length_insert, length_app; cbn; [|lia].
        by rewrite Nat.add_1_r, Nat.sub_diag. }
  destruct Hshape as (cs & HS & Hp1 & Hp2). unfold p1, p2 in *. rewrite HS.
  pose proof (reaction_job (fun _ => None) (cb1 st) o1 0 [] cs (S (fresh s))
                (fresh s) cb2 r2 o2
                (log s) (settles_at_once _ _ _ _ H1 Hr1)) as Hrun.
  rewrite (drain_enough 2); [| |lia].
  - rewrite Hrun; try done. unfold outcome. cbn [cells].
    rewrite list_lookup_insert_eq; [done|].
    rewrite length_insert. by eapply lookup_lt_Some.
  - by rewrite Hrun.
Qed.

(** X20: a promise becomes a wrapper that never rejects. When the
    promise is fulfilled with [v], the wrapper [ResultAsync.fromPromise]
    made of it resolves to [Ok(v)] and the one of
    [OptionAsync.fromPromise] to [Some(v)]; when it is rejected with
    [e], to [Err] of [e], as the mapping function maps it when there is
    one, and to [None]. The functions [option_from_promise] and
    [result_from_promise] give promises that are fulfilled in the same
    way, the second with [Err(e)] itself. *)
Theorem from_promise_converts (s : state) (promise : nat) (st : settled)
    (errorFn : option (val -> prog)) (ef : val -> val) (fuel : nat) :
  queue s = [] ->
  outcome s promise = Some st \/ cells s !! promise = Some (Pending []) ->
  maps_errors errorFn ef ->
  1 < fuel ->
  let after c := finally fuel c promise st s in
  let option := match st with
                | Fulfilled v => OptionSome v
                | Rejected _ => OptionNone
                end in
  (exec (ResultAsync.fromPromise promise errorFn) s).1
    = Normal (VResultAsync (S (fresh s)))
  /\ outcome (after (ResultAsync.fromPromise promise errorFn)) (S (fresh s))
     = Some (Fulfilled (VResult match st with
                                | Fulfilled v => ResultOk v
                                | Rejected e => ResultErr (ef e)
                                end))
  /\ (exec (OptionAsync.fromPromise promise) s).1
     = Normal (VOptionAsync (S (fresh s)))
  /\ outcome (after (OptionAsync.fromPromise promise)) (S (fresh s))
     = Some (Fulfilled (VOption option))
  /\ (exec (option_from_promise promise) s).1 = Normal (VPromise (S (fresh s)))
  /\ outcome (after (option_from_promise promise)) (S (fresh s))
     = Some (Fulfilled (VOption option))
  /\ (exec (result_from_promise promise) s).1 = Normal (VPromise (fresh s))
  /\ outcome (after (result_from_promise promise)) (fresh s)
     = Some (Fulfilled (VResult match st with
                                | Fulfilled v => ResultOk v
                                | Rejected e => ResultErr e
                                end)).
Proof.
  intros Hq Hthis Hef Hfuel after option.
  assert (Hres : forall mk,
    let c := PromiseThen promise
               (fulfilled (fun value => Ret (VResult (Ok value))))
               (fun p1 =>
                  PromiseThen p1
                    (rejected (fun error =>
                       let* mappedError := map_error errorFn error in
                       Ret (VResult (Err mappedError))))
                    (fun p2 => Ret (mk p2))) in
    (exec c s).1 = Normal (mk (S (fresh s)))
    /\ outcome (after c) (S (fresh s))
       = Some (Fulfilled (VResult match st with
                                  | Fulfilled v => ResultOk v
                                  | Rejected e => ResultErr (ef e)
                                  end))).
  { intros mk. destruct st as [v|e].
    - by apply (then_catch_settles s promise _ _ _ mk
                  (Normal (VResult (ResultOk v)))
                  (Fulfilled (VResult (ResultOk v)))
                  (Normal (VResult (ResultOk v)))).
    - apply (then_catch_settles s promise _ _ _ mk (Thrown e) (Rejected e)
               (Normal (VResult (ResultErr (ef e))))); try done.
      intros s'. cbn. by rewrite exec_bind, (map_error_computes _ _ _ Hef). }
  assert (Hopt : forall mk,
    let c := PromiseThen promise
               (fulfilled (fun value => Ret (VOption (mkSome value))))
               (fun p1 =>
                  PromiseThen p1 (rejected (fun _ => Ret (VOption mkNone)))
                    (fun p2 => Ret (mk p2))) in
    (exec c s).1 = Normal (mk (S (fresh s)))
    /\ outcome (after c) (S (fresh s)) = Some (Fulfilled (VOption option))).
  { intros mk. subst option. destruct st as [v|e].
    - by apply (then_catch_settles s promise _ _ _ mk
                  (Normal (VOption (OptionSome v)))
                  (Fulfilled (VOption (OptionSome v)))
                  (Normal (VOption (OptionSome v)))).
    - by apply (then_catch_settles s promise _ _ _ mk (Thrown e) (Rejected e)
                  (Normal (VOption OptionNone))). }
  destruct (Hres VResultAsync) as [R1 R2].
  destruct (Hopt VOptionAsync) as [O1 O2].
  destruct (Hopt VPromise) as [P1 P2].
  split_and!; try done.
  unfold after, result_from_promise.
  assert (Hbody : settles_to (outcome (settle promise st s))
            (try_catch (let* v := resume st in Ret (VResult (Ok v)))
               (fun error => Ret (VResult (Err error))))
            (Fulfilled (VResult match st with
                                | Fulfilled v => ResultOk v
                                | Rejected e => ResultErr e
                                end)) 0 []).
  { destruct st as [v|e]; by eapply settles_at_once. }
  assert (Hemit : emits (try_catch
                           (let* v := await (VPromise promise) in
                            Ret (VResult (Ok v)))
                           (fun error => Ret (VResult (Err error)))) []
                    (Suspend (VPromise promise)
                       (fun st' => try_catch
                          (let* v := resume st' in Ret (VResult (Ok v)))
                          (fun error => Ret (VResult (Err error)))))).
  { by apply computes_emits. }
  assert (H0 : 0 < fuel) by lia.
  destruct (async_await_settles s promise st VPromise Hq Hthis _ []
              (VPromise promise) _ _ 0 [] fuel Hemit eq_refl Hbody H0)
    as (Hout & _). cbn [async] in *. exact Hout.
Qed.

Lemma from_promise_converts_witness :
  let s := mkState [Pending []] [] [] in
  let st := Rejected (VError "down") in
  let errorFn := Some (fun e => Ret (VArray [VStr "mapped"; e])) in
  let ef := fun e => VArray [VStr "mapped"; e] in
  queue s = []
  /\ (outcome s 0 = Some st \/ cells s !! 0 = Some (Pending []))
  /\ maps_errors errorFn ef
  /\ 1 < 2
  /\ outcome (finally 2 (ResultAsync.fromPromise 0 errorFn) 0 st s) 2
     = Some (Fulfilled (VResult (ResultErr
               (VArray [VStr "mapped"; VError "down"]))))
  /\ outcome (finally 2 (OptionAsync.fromPromise 0) 0 st s) 2
     = Some (Fulfilled (VOption OptionNone)).
Proof.
  intros s st errorFn ef.
  assert (H0 : outcome s 0 = Some st \/ cells s !! 0 = Some (Pending []))
    by (right; reflexivity).
  assert (Hef : maps_errors errorFn ef) by (intros e s0; reflexivity).
  assert (H1 : 1 < 2) by lia.
  destruct (from_promise_converts s 0 st errorFn ef 2 eq_refl H0 Hef H1)
    as (_ & HR & _ & HO & _).
  split; [reflexivity|]. split; [exact H0|]. split; [exact Hef|].
  split; [exact H1|]. split; [exact HR | exact HO].
Defined.

(** X21: [liftAsync] lets an exception of the function it wraps escape
    to the caller, where [tryAsync] returns a wrapper that resolves to
    [Err] of it; and when the function returns a result, [liftAsync]
    returns a wrapper resolved to that result. *)
Theorem lift_throws_try_catches (fn : list val -> prog)
    (errorFn : option (val -> prog)) (ef : val -> val) (args : list val)
    (s : state) (e : val) :
  (forall s', exists s1, exec (fn args) s' = (Thrown e, s1)) ->
  maps_errors errorFn ef ->
  (exists s1, exec (liftAsync fn args) s = (Thrown e, s1))
  /\ (exec (tryAsync fn errorFn args) s).1 = Normal (VResultAsync (fresh s))
  /\ outcome (exec (tryAsync fn errorFn args) s).2 (fresh s)
     = Some (Fulfilled (VResult (ResultErr (ef e))))
  /\ (forall (gn : list val -> prog) r s1,
        exec (gn args) s = (Normal (VResult r), s1) ->
        (exec (liftAsync gn args) s).1 = Normal (VResultAsync (fresh s1))
        /\ outcome (exec (liftAsync gn args) s).2 (fresh s1)
           = Some (Fulfilled (VResult r))).
Proof.
  intros Hfn Hef. split_and!.
  - destruct (Hfn s) as [s1 H1]. exists s1.
    unfold liftAsync. by rewrite exec_bind, H1.
  - unfold tryAsync, ResultAsync.try. cbn [exec].
    by destruct (exec _ (alloc s)).
  - destruct (Hfn (alloc s)) as [s2 H2].
    unfold tryAsync, ResultAsync.try. cbn [exec].
    rewrite exec_try_catch, exec_bind, H2.
    rewrite exec_bind, (map_error_computes _ _ _ Hef). cbn.
    pose proof (exec_alloc_pending _ _ _ _ H2) as Hpend.
    destruct (status_pending _ _ Hpend) as [rs Hrs].
    apply (outcome_settle_pending _ _ _ rs Hrs).
  - intros gn r s1 Hgn. unfold liftAsync, ResultAsync.fromResult.
    rewrite exec_bind, Hgn, exec_PromiseResolve_value by done. cbn.
    split; [done|]. apply outcome_app_fresh.
Qed.

Lemma lift_throws_try_catches_witness :
  let fn := fun _ : list val => Throw (VError "boom") in
  let s := mkState [] [] [] in
  (forall s', exists s1, exec (fn []) s' = (Thrown (VError "boom"), s1))
  /\ maps_errors None id
  /\ (exists s1, exec (liftAsync fn []) s = (Thrown (VError "boom"), s1))
  /\ (exec (tryAsync fn None []) s).1 = Normal (VResultAsync 0)
  /\ outcome (exec (tryAsync fn None []) s).2 0
     = Some (Fulfilled (VResult (ResultErr (VError "boom")))).
Proof.
  intros fn s.
  assert (Hfn : forall s', exists s1,
             exec (fn []) s' = (Thrown (VError "boom"), s1))
    by (intros s'; by eexists).
  assert (Hef : maps_errors None id) by (intros e; reflexivity).
  destruct (lift_throws_try_catches fn None id [] s (VError "boom") Hfn Hef)
    as (H1 & H2 & H3 & _).
  split; [exact Hfn|]. split; [exact Hef|]. split; [exact H1|].
  split; [exact H2 | exact H3].
Defined.
